(** * Enhanced Color Scale Generator: a shallow embedding of the colour core

    This development models the colour-mathematics core of the
    enhanced-color-scale-generator repository:
    - [ColorUtils]: HSL/RGB conversions, [clampHSL], [isNeutralColor]
      (the colour-utils file that also provides the LAB/LCH helpers);
    - [Contrast]: WCAG luminance and contrast ratio (js/accessibility.js);
    - [ScaleGenerator]: [createColorScale] and its helpers
      (js/scale-generator.js);
    - [Accessibility]: [findAccessibleColor] and its search helpers;
    - [DarkMode]: the dark-mode level mirror (js/dark-mode-generator.js);
    - [UiSearch]: [findFullyAccessibleColor] (js/ui-controller.js);
    - [DeltaE]: the CIEDE2000 distance [calculateDeltaE].

    JavaScript numbers are modelled exactly: the rational-valued parts
    (conversions, the generator, the mirror) over [Q], and the parts that
    use [Math.pow] with a fractional exponent, square roots or
    trigonometry over [R].  [Math.round x] is [floor (x + 1/2)] in both. *)

From Stdlib Require Import ZArith QArith Qround Qminmax Qabs Reals Psatz.
From Stdlib Require Import List String Ascii Bool.
From Stdlib Require Import Permutation Qreals.
Import ListNotations.

Open Scope Z_scope.

(** ** Numeric helpers shared by the modules *)

Module JsNum.

Local Open Scope Q_scope.

(** Strict comparison on [Q] as a boolean, as JavaScript's [<]. *)
Definition qlt (a b : Q) : bool := negb (Qle_bool b a).
Definition qle (a b : Q) : bool := Qle_bool a b.
Definition qeq (a b : Q) : bool := Qeq_bool a b.

(** [Math.round] on an exact rational: round half up. *)
Definition js_round (x : Q) : Z := Qfloor (x + (1#2)).

(** Truncation toward zero, used by the remainder operator [%]. *)
Definition js_trunc (x : Q) : Z :=
  if Qle_bool 0 x then Qfloor x else Qceiling x.

(** JavaScript [a % b]: the remainder takes the sign of [a]. *)
Definition js_mod (a b : Q) : Q := a - b * inject_Z (js_trunc (a / b)).

(** [Math.max] / [Math.min] of two numbers. *)
Definition js_max (a b : Q) : Q := if qlt a b then b else a.
Definition js_min (a b : Q) : Q := if qlt b a then b else a.

End JsNum.

Import JsNum.

(** ** Colour utilities (colour-utils module) *)

Module ColorUtils.

Local Open Scope Q_scope.

(** An HSL colour [h, s, l] and an RGB colour [r, g, b]. *)
Definition HSL := (Q * Q * Q)%type.
Definition RGB := (Z * Z * Z)%type.

Definition hsl_h (c : HSL) : Q := fst (fst c).
Definition hsl_s (c : HSL) : Q := snd (fst c).
Definition hsl_l (c : HSL) : Q := snd c.

(** [rgbToHSL]: the channel values are divided by 255; the achromatic
    case [diff = 0] keeps hue and saturation at 0; the [switch (max)]
    tests [r], then [g], then [b]; all three outputs are rounded. *)
Definition rgbToHSL (rgb : RGB) : HSL :=
  let '(r0, g0, b0) := rgb in
  let r := inject_Z r0 / 255 in
  let g := inject_Z g0 / 255 in
  let b := inject_Z b0 / 255 in
  let mx := js_max r (js_max g b) in
  let mn := js_min r (js_min g b) in
  let diff := mx - mn in
  let l := (mx + mn) / 2 in
  let '(h, s) :=
    if qeq diff 0 then (0, 0)
    else
      let s := if qlt (1#2) l then diff / (2 - mx - mn) else diff / (mx + mn) in
      let h :=
        if qeq mx r then (g - b) / diff + (if qlt g b then 6 else 0)
        else if qeq mx g then (b - r) / diff + 2
        else if qeq mx b then (r - g) / diff + 4
        else 0 in
      (h / 6, s) in
  (inject_Z (js_round (h * 360)),
   inject_Z (js_round (s * 100)),
   inject_Z (js_round (l * 100))).

(** The inner [hue2rgb] closure of [hslToRgb]. *)
Definition hue2rgb (p q t0 : Q) : Q :=
  let t1 := if qlt t0 0 then t0 + 1 else t0 in
  let t := if qlt 1 t1 then t1 - 1 else t1 in
  if qlt t (1#6) then p + (q - p) * 6 * t
  else if qlt t (1#2) then q
  else if qlt t (2#3) then p + (q - p) * ((2#3) - t) * 6
  else p.

(** [hslToRgb]: a grey shortcut when [s === 0], otherwise the standard
    two-point construction; every channel is rounded. *)
Definition hslToRgb (hsl : HSL) : RGB :=
  let '(h0, s0, l0) := hsl in
  let h := h0 / 360 in
  let s := s0 / 100 in
  let l := l0 / 100 in
  if qeq s 0 then
    let gray := js_round (l * 255) in (gray, gray, gray)
  else
    let q := if qlt l (1#2) then l * (1 + s) else l + s - l * s in
    let p := 2 * l - q in
    let r := hue2rgb p q (h + (1#3)) in
    let g := hue2rgb p q h in
    let b := hue2rgb p q (h - (1#3)) in
    (js_round (r * 255), js_round (g * 255), js_round (b * 255)).

(** [isNeutralColor]: saturation below 15 (the colour-utils version that
    also defines [rgbToLch], [lchToRgb] and [calculateDeltaE], which the
    scale generator calls). *)
Definition isNeutralColor (hsl : HSL) : bool := qlt (hsl_s hsl) 15.

(** [clampHSL]: hue wrapped by [((h % 360) + 360) % 360], saturation and
    lightness clamped to [0, 100]. *)
Definition clampHSL (hsl : HSL) : HSL :=
  let '(h, s, l) := hsl in
  (js_mod (js_mod h 360 + 360) 360,
   js_max 0 (js_min 100 s),
   js_max 0 (js_min 100 l)).

(** A colour whose components lie in the documented ranges. *)
Definition hsl_in_range (c : HSL) : Prop :=
  0 <= hsl_h c < 360 /\ 0 <= hsl_s c <= 100 /\ 0 <= hsl_l c <= 100.

End ColorUtils.

(** The older copy of the colour utilities (js/color-utils.js, without the
    LAB/LCH helpers) has the previous neutrality threshold. *)
Module ColorUtilsLegacy.
Local Open Scope Q_scope.
Definition isNeutralColor (hsl : ColorUtils.HSL) : bool :=
  qlt (ColorUtils.hsl_s hsl) 10.
End ColorUtilsLegacy.

Import ColorUtils.

(** ** WCAG luminance and contrast (js/color-utils.js, js/accessibility.js) *)

Module Contrast.

Local Open Scope R_scope.

(** [Math.round] on a real number. *)
Definition js_roundR (x : R) : Z := Int_part (x + / 2).

(** [a >= b] as a boolean. *)
Definition Rgeb (a b : R) : bool := if Rle_dec b a then true else false.

(** Per-channel linearisation of [calculateLuminance]. *)
Definition channel_lin (v : Z) : R :=
  let x := IZR v / 255 in
  if Rle_dec x 0.03928 then x / 12.92
  else Rpower ((x + 0.055) / 1.055) 2.4.

(** [calculateLuminance]. *)
Definition calculateLuminance (rgb : RGB) : R :=
  let '(r, g, b) := rgb in
  0.2126 * channel_lin r + 0.7152 * channel_lin g + 0.0722 * channel_lin b.

(** [getContrastRatio]: rounded to two decimals. *)
Definition getContrastRatio (rgb1 rgb2 : RGB) : R :=
  let l1 := calculateLuminance rgb1 in
  let l2 := calculateLuminance rgb2 in
  let lighter := Rmax l1 l2 in
  let darker := Rmin l1 l2 in
  IZR (js_roundR (((lighter + 0.05) / (darker + 0.05)) * 100)) / 100.

Definition blackRgb : RGB := (0, 0, 0)%Z.
Definition whiteRgb : RGB := (255, 255, 255)%Z.

Record ContrastSide := mkSide {
  ratio : R;
  passesNormal : bool;
  passesLarge : bool;
  passesAAA : bool
}.

Record ContrastInfo := mkInfo {
  black : ContrastSide;
  white : ContrastSide;
  preferredText : string
}.

Definition side_of (r : R) : ContrastSide :=
  mkSide r (Rgeb r 4.5) (Rgeb r 3.0) (Rgeb r 7.0).

(** [getContrastInfo]: ratios against black and white text. *)
Definition getContrastInfo (rgb : RGB) : ContrastInfo :=
  let blackRatio := getContrastRatio rgb blackRgb in
  let whiteRatio := getContrastRatio rgb whiteRgb in
  mkInfo (side_of blackRatio) (side_of whiteRatio)
    (if Rlt_dec whiteRatio blackRatio then "#000000"%string else "#ffffff"%string).

End Contrast.

(** ** Hex formatting (colour-utils module) *)

Module HexFormat.

Definition hex_digit (n : Z) : ascii :=
  match n with
  | 0 => "0" | 1 => "1" | 2 => "2" | 3 => "3" | 4 => "4" | 5 => "5"
  | 6 => "6" | 7 => "7" | 8 => "8" | 9 => "9" | 10 => "a" | 11 => "b"
  | 12 => "c" | 13 => "d" | 14 => "e" | _ => "f"
  end%char.

(** [toHex]: clamp to [0, 255], print in base 16, pad to two digits. *)
Definition toHex (n : Z) : string :=
  let v := Z.max 0 (Z.min 255 n) in
  String (hex_digit (v / 16)) (String (hex_digit (v mod 16)) EmptyString).

Definition rgbToHex (rgb : RGB) : string :=
  let '(r, g, b) := rgb in
  ("#" ++ toHex r ++ toHex g ++ toHex b)%string.

Definition hslToHex (c : HSL) : string := rgbToHex (hslToRgb c).

End HexFormat.

Import HexFormat.

(** ** Colour swatches: the objects a scale is made of *)

Module Swatch.

(** The colour object built by [createColorScale] and
    [generateDarkModeScale]; the dark-mode-only fields are [None] /
    [false] on light swatches. *)
Record Swatch := mkSwatch {
  level : Z;
  hsl : HSL;
  rgb : RGB;
  hex : string;
  blackPassesNormal : bool;
  blackPassesLarge : bool;
  blackRatio : R;
  whitePassesNormal : bool;
  whitePassesLarge : bool;
  whiteRatio : R;
  preferredTextColor : string;
  name : string;
  isBase : bool;
  originalLevel : option Z;
  isDarkMode : bool
}.

(** The colour object of one level: HSL, derived RGB/hex and the
    accessibility properties of [getContrastInfo]. *)
Definition colorObject (lvl : Z) (c : HSL) (nm : string) (base : bool)
    (orig : option Z) (dark : bool) : Swatch :=
  let rgb0 := hslToRgb c in
  let hex0 := hslToHex c in
  let info := Contrast.getContrastInfo rgb0 in
  mkSwatch lvl c rgb0 hex0
    (Contrast.passesNormal (Contrast.black info))
    (Contrast.passesLarge (Contrast.black info))
    (Contrast.ratio (Contrast.black info))
    (Contrast.passesNormal (Contrast.white info))
    (Contrast.passesLarge (Contrast.white info))
    (Contrast.ratio (Contrast.white info))
    (Contrast.preferredText info) nm base orig dark.

End Swatch.

Import Swatch.

(** ** Scale generation (js/scale-generator.js) *)

Module ScaleGenerator.

Local Open Scope Q_scope.

(** [SCALE_CONFIGURATIONS]: the level lists of the four presets. *)
Definition SCALE_CONFIGURATIONS : list (string * list Z) :=
  [("triad", [300; 400; 600]%Z);
   ("pentatonic", [200; 300; 400; 500; 600]%Z);
   ("diatonic", [100; 200; 300; 400; 500; 600; 700]%Z);
   ("chromatic", [50; 100; 200; 300; 400; 500; 600; 700; 800]%Z)]%string.

Fixpoint lookup_config (key : string) (cfgs : list (string * list Z))
    : option (list Z) :=
  match cfgs with
  | [] => None
  | (k, v) :: rest => if String.eqb k key then Some v else lookup_config key rest
  end.

(** [Array.prototype.sort] with comparator [(a, b) => a - b]: a stable
    insertion sort on integers. *)
Fixpoint insert_sorted (x : Z) (l : list Z) : list Z :=
  match l with
  | [] => [x]
  | y :: rest => if (y <=? x)%Z then y :: insert_sorted x rest else x :: l
  end.

Fixpoint sort_levels (l : list Z) : list Z :=
  match l with
  | [] => []
  | x :: rest => insert_sorted x (sort_levels rest)
  end.

(** [getBaseLevelForConfiguration]: 400 when present, otherwise the
    middle of the sorted levels. *)
Definition getBaseLevelForConfiguration (levels : list Z) : Z :=
  if existsb (Z.eqb 400) levels then 400%Z
  else nth (Nat.div (List.length levels) 2) (sort_levels levels) 0%Z.

(** [getLevelAdjustments]: (lightnessAdjustment, saturationAdjustment). *)
Definition getLevelAdjustments (lvl : Z) : Q * Q :=
  match lvl with
  | 50%Z => (2, 0)
  | 100%Z => (1, 0)
  | 200%Z => (0, -1)
  | 600%Z => (0, 2)
  | 700%Z => (0, 3)
  | 800%Z => (-2, 5)
  | _ => (0, 0)
  end.

Record Boundaries := mkBoundaries {
  lightestL : Q; lightestS : Q; darkestL : Q; darkestS : Q;
  lightHueShift : Q; darkHueShift : Q
}.

(** [calculateDynamicBoundaries]. *)
Definition calculateDynamicBoundaries (c : HSL) : Boundaries :=
  let '(baseH, baseS, baseL) := c in
  let '(lL, dL) :=
    if qlt 80 baseL then (js_min 96 (baseL + 16), js_max 20 (baseL - 35))
    else if qlt baseL 30 then (js_min 92 (baseL + 55), js_max 15 (baseL - 15))
    else (js_min 94 (baseL + 44), js_max 24 (baseL - 26)) in
  let '(lS, dS) :=
    if qlt 80 baseS then (js_max 0 (baseS - 15), js_min 100 (baseS + 10))
    else if qlt baseS 30 then (js_max 0 (baseS - 5), js_min 100 (baseS + 35))
    else (js_max 0 (baseS - 1), js_min 100 (baseS + 28)) in
  mkBoundaries lL lS dL dS 0 0.

(** [calculateNeutralHSL]: fixed anchors 95 and 28. *)
Definition calculateNeutralHSL (c : HSL) (lvl : Z) : HSL :=
  let '(baseH, baseS, baseL) := c in
  let lightest := 95 in
  let darkest := 28 in
  let targetL0 :=
    if (lvl <? 400)%Z then
      let factor := (400 - inject_Z lvl) / 350 in
      baseL + (lightest - baseL) * factor
    else
      let factor := (inject_Z lvl - 400) / 400 in
      baseL - (baseL - darkest) * factor in
  let targetL := js_max darkest (js_min lightest targetL0) in
  let targetS := if ((lvl <=? 100) || (700 <=? lvl))%Z then js_max 0 (baseS - 2) else baseS in
  (baseH, targetS, inject_Z (js_round targetL)).

(** [calculateNonNeutralHSL]: interpolation toward the dynamic boundaries,
    the per-level micro-adjustments, then [clampHSL]. *)
Definition calculateNonNeutralHSL (c : HSL) (lvl : Z) : HSL :=
  let '(baseH, baseS, baseL) := c in
  let bd := calculateDynamicBoundaries c in
  let '(targetH, targetS, targetL) :=
    if (lvl <? 400)%Z then
      let factor := (400 - inject_Z lvl) / 350 in
      let tL := baseL + (lightestL bd - baseL) * factor in
      let tS := baseS + (lightestS bd - baseS) * factor in
      let tH := if (lvl <=? 100)%Z then js_mod (baseH + lightHueShift bd) 360 else baseH in
      (tH, tS, tL)
    else
      let factor := (inject_Z lvl - 400) / 400 in
      let tL := baseL + (darkestL bd - baseL) * factor in
      let tS := baseS + (darkestS bd - baseS) * factor in
      let tH := if (700 <=? lvl)%Z then js_mod (baseH + darkHueShift bd) 360 else baseH in
      (tH, tS, tL) in
  let '(dL, dS) := getLevelAdjustments lvl in
  clampHSL (targetH, targetS + dS, targetL + dL).

(** [calculateHSL]. *)
Definition calculateHSL (c : HSL) (lvl : Z) : HSL :=
  if (lvl =? 400)%Z then c
  else if isNeutralColor c then calculateNeutralHSL c lvl
  else calculateNonNeutralHSL c lvl.

(** The HSL value [createColorScale] assigns to one level. *)
Definition levelHSL (clamped : HSL) (baseLevel lvl : Z) : HSL :=
  if (lvl =? baseLevel)%Z then clamped else calculateHSL clamped lvl.

(** [createColorScale]: [None] models the thrown
    [Unknown scale configuration] error. *)
Definition createColorScale (baseHSL : HSL) (configuration : string)
    : option (list Swatch) :=
  match lookup_config configuration SCALE_CONFIGURATIONS with
  | None => None
  | Some levels =>
      let clampedBaseHSL := clampHSL baseHSL in
      let baseLevelForConfig := getBaseLevelForConfiguration levels in
      Some (map (fun lvl =>
                   colorObject lvl (levelHSL clampedBaseHSL baseLevelForConfig lvl)
                     ""%string (lvl =? baseLevelForConfig)%Z None false)
                levels)
  end.

End ScaleGenerator.

(** ** Dark-mode level mirror (js/dark-mode-generator.js) *)

Module DarkMode.

Import ScaleGenerator.
Local Open Scope Q_scope.

(** A JavaScript object with numeric keys, as an association list;
    assigning a key replaces its previous value. *)
Definition obj_set (m : list (Z * Z)) (k v : Z) : list (Z * Z) :=
  (k, v) :: filter (fun p => negb (fst p =? k)%Z) m.

Fixpoint obj_get (m : list (Z * Z)) (k : Z) : option Z :=
  match m with
  | [] => None
  | (k', v) :: rest => if (k' =? k)%Z then Some v else obj_get rest k
  end.

(** [Array.prototype.indexOf]: [None] plays the role of [-1]. *)
Fixpoint index_of (x : Z) (l : list Z) : option nat :=
  match l with
  | [] => None
  | y :: rest =>
      if (y =? x)%Z then Some 0%nat
      else option_map S (index_of x rest)
  end.

(** [createDarkModeLevelMapping]: sort the levels, then mirror each level
    around the index of 400 (clamped to the array bounds), or reverse
    the whole list when 400 is absent.  [Math.max (0, i - d)] is the
    truncated subtraction of [nat]. *)
Definition createDarkModeLevelMapping (lightModeScale : list Swatch)
    : list (Z * Z) :=
  let levels := sort_levels (map level lightModeScale) in
  let n := List.length levels in
  let indexed := combine (seq 0 n) levels in
  match index_of 400 levels with
  | None =>
      fold_left (fun m '(index, lvl) =>
                   obj_set m lvl (nth (n - 1 - index) levels 0%Z))
        indexed []
  | Some centerIndex =>
      fold_left (fun m '(index, lvl) =>
                   if (lvl =? 400)%Z then obj_set m lvl 400%Z
                   else if Nat.ltb index centerIndex then
                     let distanceFromCenter := (centerIndex - index)%nat in
                     let targetIndex :=
                       Nat.min (n - 1) (centerIndex + distanceFromCenter) in
                     obj_set m lvl (nth targetIndex levels 0%Z)
                   else
                     let distanceFromCenter := (index - centerIndex)%nat in
                     let targetIndex := (centerIndex - distanceFromCenter)%nat in
                     obj_set m lvl (nth targetIndex levels 0%Z))
        indexed []
  end.

(** [applyDarkModeAdjustments]. *)
Definition applyDarkModeAdjustments (c : HSL) (lvl : Z)
    (saturationBoost contrastAdjustment : Q) : HSL :=
  let '(h, s0, l0) := c in
  let s := if negb (isNeutralColor c) then js_min 100 (s0 + saturationBoost) else s0 in
  let l1 :=
    if (lvl <? 400)%Z then js_max l0 65
    else if (400 <? lvl)%Z then js_min l0 35
    else l0 in
  let contrastFactor := 1 + contrastAdjustment in
  let l := if qlt 50 l1 then js_min 100 (l1 * contrastFactor)
           else js_max 0 (l1 / contrastFactor) in
  clampHSL (h, s, l).

(** [applyLevelSpecificDarkModeAdjustments]. *)
Definition applyLevelSpecificDarkModeAdjustments (c : HSL)
    (targetLevel originalLevel : Z) : HSL :=
  let '(h, s0, l0) := c in
  let '(s1, l1) :=
    if ((originalLevel <=? 200) && (600 <=? targetLevel))%Z
    then (js_min 100 (s0 + 8), js_min l0 30)
    else if ((600 <=? originalLevel) && (targetLevel <=? 200))%Z
    then (js_max 0 (s0 - 3), js_max l0 70)
    else (s0, l0) in
  let '(s, l) :=
    if (targetLevel =? 50)%Z then (s1, js_max l1 85)
    else if (targetLevel =? 800)%Z then (js_min 100 (s1 + 10), js_min l1 25)
    else (s1, l1) in
  clampHSL (h, s, l).

(** [calculateDarkModeHSL]. *)
Definition calculateDarkModeHSL (baseHSL : HSL) (targetLevel originalLevel : Z)
    : HSL :=
  applyLevelSpecificDarkModeAdjustments (calculateHSL baseHSL targetLevel)
    targetLevel originalLevel.

Record DarkOptions := mkDarkOptions {
  useAccessibleBase : bool;
  accessibleBaseHSL : option HSL;
  saturationBoost : Q;
  contrastAdjustment : Q
}.

Definition defaultDarkOptions : DarkOptions := mkDarkOptions false None 5 (1#10).

(** [darkModeBaseHSL]: the accessible base when requested and given. *)
Definition darkModeBaseHSL (baseHSL : HSL) (o : DarkOptions) : HSL :=
  if useAccessibleBase o then
    match accessibleBaseHSL o with Some a => a | None => baseHSL end
  else baseHSL.

(** The HSL value of one dark swatch, before the colour object is built.
    Every level of the scale is a key of the mapping, so the default of
    the lookup is never used. *)
Definition darkHSL (lightModeScale : list Swatch) (levelMapping : list (Z * Z))
    (base : HSL) (o : DarkOptions) (lightColor : Swatch) : HSL :=
  let targetLevel := match obj_get levelMapping (level lightColor) with
                     | Some t => t | None => 0%Z end in
  let darkHSL0 :=
    if (level lightColor =? 400)%Z then base
    else match find (fun c => (level c =? targetLevel)%Z) lightModeScale with
         | Some targetLightColor => hsl targetLightColor
         | None => calculateDarkModeHSL base targetLevel (level lightColor)
         end in
  if negb (level lightColor =? 400)%Z
  then applyDarkModeAdjustments darkHSL0 (level lightColor)
         (saturationBoost o) (contrastAdjustment o)
  else darkHSL0.

(** [generateDarkModeScale]. *)
Definition generateDarkModeScale (lightModeScale : list Swatch) (baseHSL : HSL)
    (o : DarkOptions) : list Swatch :=
  let base := darkModeBaseHSL baseHSL o in
  let levelMapping := createDarkModeLevelMapping lightModeScale in
  map (fun lightColor =>
         colorObject (level lightColor)
           (darkHSL lightModeScale levelMapping base o lightColor)
           (name lightColor) (level lightColor =? 400)%Z
           (obj_get levelMapping (level lightColor)) true)
      lightModeScale.

End DarkMode.

(** ** Accessible-colour search (js/accessibility.js) *)

Module Accessibility.

Import Contrast.

(** *** Candidate ranges, over [Q] *)

Section Ranges.

Local Open Scope Q_scope.

(** [range.includes(x)]. *)
Definition includes (l : list Q) (x : Q) : bool := existsb (qeq x) l.

(** [[...new Set(range)]]: keeps the first occurrence of each number. *)
Definition dedup (l : list Q) : list Q :=
  fold_left (fun acc x => if includes acc x then acc else acc ++ [x]) l [].

(** [range.sort((a, b) => Math.abs(a - center) - Math.abs(b - center))]:
    a stable insertion sort on the distance to [center] (the array sort of
    the engines is stable). *)
Fixpoint insert_by_dist (center x : Q) (l : list Q) : list Q :=
  match l with
  | [] => [x]
  | y :: r => if qlt (Qabs (x - center)) (Qabs (y - center)) then x :: y :: r
              else y :: insert_by_dist center x r
  end.

Definition sort_by_dist (center : Q) (l : list Q) : list Q :=
  fold_left (fun acc x => insert_by_dist center x acc) l [].

(** The counting loop [for (let i = step; i <= bound; i += step)], unrolled
    as a list of the values of [i]; [fuel] is the number of passes, which
    the callers set to [floor (bound / step) + 1], one more than the number
    of values [i] takes. *)
Fixpoint count_up (fuel : nat) (i step bound : Q) : list Q :=
  match fuel with
  | O => []
  | S f => if qle i bound then i :: count_up f (i + step) step bound else []
  end.

Definition loop_fuel (bound step : Q) : nat := S (Z.to_nat (Qfloor (bound / step))).

(** The loop [for (let l = start; l >= bound; l -= 10)]. *)
Fixpoint count_down10 (fuel : nat) (l bound : Q) : list Q :=
  match fuel with
  | O => []
  | S f => if qle bound l then l :: count_down10 f (l - 10) bound else []
  end.

(** [generateHueRange]. *)
Definition generateHueRange (centerHue tolerance : Q) : list Q :=
  if qeq tolerance 0 then [centerHue]
  else
    let step := js_min 15 (tolerance / 3) in
    centerHue ::
      flat_map (fun i => [js_mod (centerHue + i) 360; js_mod (centerHue - i + 360) 360])
        (count_up (loop_fuel tolerance step) step step tolerance).

(** [generateSmartSaturationRange]. *)
Definition generateSmartSaturationRange (originalS originalL : Q) : list Q :=
  let r1 := [originalS] in
  let r2 := if qlt 80 originalL || qlt originalL 20
            then r1 ++ flat_map (fun st => if qle 0 (originalS - st) then [originalS - st] else [])
                          [10; 20; 30]
            else r1 in
  let r3 := if qlt originalS 70
            then r2 ++ flat_map (fun st => if qle (originalS + st) 100 then [originalS + st] else [])
                          [15; 30]
            else r2 in
  let r4 := if qlt 20 originalS then r3 ++ [js_max 0 (originalS - 40)] else r3 in
  let r5 := if qlt originalS 80 then r4 ++ [js_min 100 (originalS + 40)] else r4 in
  sort_by_dist originalS (dedup r5).

(** [generateSmartLightnessRange]; [targetAtLeast7] is [targetRatio >= 7.0]. *)
Definition generateSmartLightnessRange (originalL : Q) (targetAtLeast7 : bool) : list Q :=
  let darkTarget := if targetAtLeast7 then 25 else 35 in
  let lightTarget := if targetAtLeast7 then 75 else 65 in
  let down := count_down10 (loop_fuel (originalL - darkTarget) 10) (originalL - 10) darkTarget in
  let up := count_up (loop_fuel (lightTarget - originalL) 10) (originalL + 10) 10 lightTarget in
  let range := [originalL] ++ (if qlt 50 originalL then down ++ up else up ++ down)
               ++ [5; 15; 25; 75; 85; 95] in
  sort_by_dist originalL (dedup range).

(** [generateSearchRange] of js/accessibility.js. *)
Definition generateSearchRange (center min max step : Q) : list Q :=
  let bound := js_max (center - min) (max - center) in
  let r1 := center ::
    flat_map (fun i => (if qle min (center - i) then [center - i] else [])
                       ++ (if qle (center + i) max then [center + i] else []))
      (count_up (loop_fuel bound step) step step bound) in
  let r2 := if includes r1 min then r1 else r1 ++ [min] in
  let r3 := if includes r2 max then r2 else r2 ++ [max] in
  sort_by_dist center r3.

(** [generateHuePreservingFallbacks]. *)
Definition generateHuePreservingFallbacks (originalH originalS : Q) : list HSL :=
  [(originalH, js_max 0 (originalS - 20), 25);
   (originalH, js_max 0 (originalS - 20), 75);
   (originalH, js_min 100 (originalS + 20), 35);
   (originalH, js_min 100 (originalS + 20), 65);
   (originalH, 60, 30);
   (originalH, 60, 70);
   (js_mod (originalH + 15) 360, js_max 20 (originalS - 10), 40);
   (js_mod (originalH - 15 + 360) 360, js_max 20 (originalS - 10), 60)].

(** [getHueFamily]. *)
Definition getHueFamily (hue : Q) : string :=
  if qle 0 hue && qlt hue 30 then "red"
  else if qle 30 hue && qlt hue 60 then "orange"
  else if qle 60 hue && qlt hue 90 then "yellow"
  else if qle 90 hue && qlt hue 150 then "green"
  else if qle 150 hue && qlt hue 210 then "cyan"
  else if qle 210 hue && qlt hue 270 then "blue"
  else if qle 270 hue && qlt hue 330 then "purple"
  else "red".

(** [getAccessibleColorForHueFamily]. *)
Definition getAccessibleColorForHueFamily (hueFamily : string) : HSL :=
  if String.eqb hueFamily "red" then (0, 60, 45)
  else if String.eqb hueFamily "orange" then (30, 70, 40)
  else if String.eqb hueFamily "yellow" then (50, 80, 35)
  else if String.eqb hueFamily "green" then (120, 60, 35)
  else if String.eqb hueFamily "cyan" then (180, 60, 40)
  else if String.eqb hueFamily "blue" then (210, 65, 45)
  else if String.eqb hueFamily "purple" then (270, 60, 40)
  else (210, 60, 45).

End Ranges.

(** *** Scores, distances and the staged search, over [R] *)

Section Search.

Local Open Scope R_scope.

(** [a < b] as a boolean. *)
Definition Rltb (a b : R) : bool := if Rlt_dec a b then true else false.

(** A distance that may be [Infinity]: [None] stands for [Infinity]. *)
Definition ext_lt (x : R) (y : option R) : bool :=
  match y with None => true | Some y => Rltb x y end.

Definition ext_lt_num (y : option R) (x : R) : bool :=
  match y with None => false | Some y => Rltb y x end.

(** [Math.pow(x, y)] for [x >= 0] and [y > 0] ([Rpower] is [exp (y ln x)],
    which is meaningless at [x = 0], where [Math.pow] gives [0]). *)
Definition js_powR (x y : R) : R := if Rlt_dec 0 x then Rpower x y else 0.

(** [calculateAccessibilityScore]. *)
Definition calculateAccessibilityScore (hsl : HSL) (textColor : string) : R :=
  let rgb := hslToRgb hsl in
  if String.eqb textColor "black" then getContrastRatio rgb blackRgb
  else if String.eqb textColor "white" then getContrastRatio rgb whiteRgb
  else Rmax (getContrastRatio rgb blackRgb) (getContrastRatio rgb whiteRgb).

(** [calculateEnhancedColorDistance]. *)
Definition calculateEnhancedColorDistance (hsl1 hsl2 : HSL) (huePreservationWeight : R) : R :=
  let '(h1, s1, l1) := hsl1 in
  let '(h2, s2, l2) := hsl2 in
  let hd := Qabs (h1 - h2) in
  let hueDiff := if qlt 180 hd then (360 - hd)%Q else hd in
  let hueWeight := 0.4 + huePreservationWeight * 0.4 in
  let satWeight := 0.3 - huePreservationWeight * 0.1 in
  let lightWeight := 0.3 - huePreservationWeight * 0.1 in
  let hueDistancePenalty :=
    if Rltb 0.5 huePreservationWeight then js_powR (Q2R hueDiff / 180) 1.5
    else Q2R hueDiff / 180 in
  hueDistancePenalty * hueWeight * 100 +
  (Q2R (Qabs (s1 - s2)) / 100) * satWeight * 100 +
  (Q2R (Qabs (l1 - l2)) / 100) * lightWeight * 100.

(** [evaluateColorCandidate]. *)
Definition evaluateColorCandidate (candidate current original : HSL)
    (candidateScore currentScore candidateDistance : R) (currentDistance : option R)
    (targetRatio huePreservationWeight : R) : bool :=
  let candidateAccessible := Rgeb candidateScore targetRatio in
  let currentAccessible := Rgeb currentScore targetRatio in
  if candidateAccessible && negb currentAccessible then true
  else if currentAccessible && negb candidateAccessible then false
  else if candidateAccessible && currentAccessible then
    let candidateWeightedScore := candidateDistance + (1 / candidateScore) * 10 in
    match currentDistance with
    | None => true
    | Some d => Rltb candidateWeightedScore (d + (1 / currentScore) * 10)
    end
  else if Rltb (Rabs (candidateScore - currentScore)) 0.1
  then ext_lt candidateDistance currentDistance
  else Rltb currentScore candidateScore.

(** The options of [findAccessibleColor]. *)
Record FindOptions := mkFindOptions {
  targetRatio : R;
  maxIterations : R;
  preserveHue : bool;
  allowSaturationChange : bool;
  textColor : string;
  huePreservationWeight : R
}.

Definition defaultFindOptions : FindOptions :=
  mkFindOptions 4.5 150 true true "both" 0.8.

Record SearchStage := mkStage {
  hueRange : list Q;
  saturationRange : list Q;
  lightnessRange : list Q
}.

(** The three stages of [findAccessibleColor]. *)
Definition searchStages (originalHSL : HSL) (o : FindOptions) : list SearchStage :=
  let '(originalH, originalS, originalL) := originalHSL in
  [mkStage (if preserveHue o then [originalH] else generateHueRange originalH 15)
     (if allowSaturationChange o then generateSmartSaturationRange originalS originalL
      else [originalS])
     (generateSmartLightnessRange originalL (Rgeb (targetRatio o) 7.0));
   mkStage (if preserveHue o then generateHueRange originalH 30
            else generateHueRange originalH 45)
     (if allowSaturationChange o then generateSearchRange originalS 0 100 15
      else [originalS])
     (generateSearchRange originalL 0 100 5);
   mkStage (if preserveHue o then generateHueRange originalH 60
            else generateSearchRange originalH 0 360 30)
     (if allowSaturationChange o then generateSearchRange originalS 0 100 20
      else [originalS])
     (generateSearchRange originalL 0 100 10)].

(** The mutable locals of the search loop. *)
Record SearchState := mkState {
  bestColor : HSL;
  bestScore : R;
  bestDistance : option R;
  iterations : Z;
  foundAccessible : bool
}.

Section Loops.

Variable o : FindOptions.
Variable originalHSL : HSL.

(** The innermost loop, over the saturations; [break] returns the state. *)
Fixpoint saturationLoop (h l : Q) (ss : list Q) (st : SearchState) : SearchState :=
  match ss with
  | [] => st
  | s :: rest =>
      let it := iterations st in
      let st0 := mkState (bestColor st) (bestScore st) (bestDistance st) (it + 1)
                   (foundAccessible st) in
      if Rltb (maxIterations o) (IZR it) then st0
      else
        let candidateHSL := (h, s, l) in
        let score := calculateAccessibilityScore candidateHSL (textColor o) in
        let distance := calculateEnhancedColorDistance originalHSL candidateHSL
                          (huePreservationWeight o) in
        let isAccessible := Rgeb score (targetRatio o) in
        let isBetter := evaluateColorCandidate candidateHSL (bestColor st) originalHSL
                          score (bestScore st) distance (bestDistance st)
                          (targetRatio o) (huePreservationWeight o) in
        if isBetter then
          let st1 := mkState candidateHSL score (Some distance) (it + 1)
                       (foundAccessible st) in
          if isAccessible then
            let st2 := mkState candidateHSL score (Some distance) (it + 1) true in
            if Rltb distance 20 then st2 else saturationLoop h l rest st2
          else saturationLoop h l rest st1
        else saturationLoop h l rest st0
  end.

(** [foundAccessible && bestDistance < 20]. *)
Definition closeEnough (st : SearchState) : bool :=
  foundAccessible st && ext_lt_num (bestDistance st) 20.

Fixpoint lightnessLoop (h : Q) (ls ss : list Q) (st : SearchState) : SearchState :=
  match ls with
  | [] => st
  | l :: rest =>
      let st' := saturationLoop h l ss st in
      if closeEnough st' then st' else lightnessLoop h rest ss st'
  end.

Fixpoint hueLoop (hs ls ss : list Q) (st : SearchState) : SearchState :=
  match hs with
  | [] => st
  | h :: rest =>
      let st' := lightnessLoop h ls ss st in
      if closeEnough st' then st' else hueLoop rest ls ss st'
  end.

Fixpoint stageLoop (stages : list SearchStage) (st : SearchState) : SearchState :=
  match stages with
  | [] => st
  | stage :: rest =>
      if foundAccessible st then st
      else stageLoop rest (hueLoop (hueRange stage) (lightnessRange stage)
                             (saturationRange stage) st)
  end.

(** The loop over the hue-preserving fallbacks. *)
Fixpoint fallbackLoop (fallbacks : list HSL) (st : SearchState) : SearchState :=
  match fallbacks with
  | [] => st
  | fallback :: rest =>
      let score := calculateAccessibilityScore fallback (textColor o) in
      let distance := calculateEnhancedColorDistance originalHSL fallback
                        (huePreservationWeight o) in
      if Rgeb score (targetRatio o) && ext_lt distance (bestDistance st)
      then mkState fallback score (Some distance) (iterations st) true
      else fallbackLoop rest st
  end.

End Loops.

(** [findAccessibleColor]. *)
Definition findAccessibleColor (originalHSL : HSL) (o : FindOptions) : HSL :=
  let '(originalH, originalS, originalL) := originalHSL in
  let score0 := calculateAccessibilityScore originalHSL (textColor o) in
  if Rgeb score0 (targetRatio o) then originalHSL
  else
    let st0 := mkState originalHSL score0 None 0 false in
    let st1 := stageLoop o originalHSL (searchStages originalHSL o) st0 in
    let st2 := if Rltb (bestScore st1) (targetRatio o)
               then fallbackLoop o originalHSL
                      (generateHuePreservingFallbacks originalH originalS) st1
               else st1 in
    let best := if Rltb (bestScore st2) (targetRatio o)
                then getAccessibleColorForHueFamily (getHueFamily originalH)
                else bestColor st2 in
    clampHSL best.

End Search.

End Accessibility.

(** ** The fully-accessible search of the interface (js/ui-controller.js) *)

Module UiSearch.

Import Contrast Accessibility.

Local Open Scope R_scope.

(** The accessibility flags that [isColorAccessibleByMode] reads. *)
Record ColorData := mkColorData {
  blackPassesNormal : bool;
  blackPassesLarge : bool;
  whitePassesNormal : bool;
  whitePassesLarge : bool
}.

(** [isColorAccessibleByMode]. *)
Definition isColorAccessibleByMode (colorInfo : ColorData) (accessibilityMode : string) : bool :=
  if String.eqb accessibilityMode "full" then
    blackPassesNormal colorInfo && blackPassesLarge colorInfo &&
    whitePassesNormal colorInfo && whitePassesLarge colorInfo
  else if String.eqb accessibilityMode "black-only" then
    blackPassesNormal colorInfo && blackPassesLarge colorInfo
  else if String.eqb accessibilityMode "white-only" then
    whitePassesNormal colorInfo && whitePassesLarge colorInfo
  else false.

(** [generateSearchRange] of js/ui-controller.js: the first entry is the
    centre clamped to [[min, max]], and no boundary is added. *)
Definition generateSearchRange (center min max step : Q) : list Q :=
  let bound := js_max (center - min) (max - center)%Q in
  sort_by_dist center
    (js_max min (js_min max center) ::
       flat_map (fun i => (if qle min (center - i) then [(center - i)%Q] else [])
                          ++ (if qle (center + i) max then [(center + i)%Q] else []))
         (count_up (loop_fuel bound step) step step bound)).

(** The [mode] argument: the callers pass ['light'] or ['dark'], the two
    keys of [searchRanges]. *)
Inductive SearchMode := light | dark.

Record SearchRanges := mkRanges {
  lightness : list Q;
  saturation : list Q;
  hue : list Q
}.

Definition searchRanges (originalHSL : HSL) (mode : SearchMode) : SearchRanges :=
  let '(originalH, originalS, _) := originalHSL in
  match mode with
  | light => mkRanges [25; 30; 35; 40; 45; 50]%Q
               (generateSearchRange originalS 20 90 10)
               (generateSearchRange originalH 0 360 15)
  | dark => mkRanges [60; 65; 70; 75; 80]%Q
              (generateSearchRange originalS 30 80 10)
              (generateSearchRange originalH 0 360 15)
  end.

(** The flags of a candidate, as the search builds [colorData]. *)
Definition colorDataOf (candidateHSL : HSL) : ColorData :=
  let contrastInfo := getContrastInfo (hslToRgb candidateHSL) in
  mkColorData (passesNormal (black contrastInfo)) (passesLarge (black contrastInfo))
    (passesNormal (white contrastInfo)) (passesLarge (white contrastInfo)).

Section Loops.

(** The colour distance: [calculateColorDistance] is defined both in
    js/color-utils.js and in js/accessibility.js, and the one in scope
    depends on the order in which the page loads the scripts. *)
Variable calculateColorDistance : HSL -> HSL -> R.
Variable originalHSL : HSL.
Variable accessibilityMode : string.

(** The locals [bestColor] and [minDistance] ([None] is [Infinity]). *)
Definition UiState : Type := (option HSL * option R)%type.

Fixpoint saturationLoop (h l : Q) (ss : list Q) (st : UiState) : UiState :=
  match ss with
  | [] => st
  | s :: rest =>
      let candidateHSL := (h, s, l) in
      let fullyAccessible := isColorAccessibleByMode (colorDataOf candidateHSL)
                               accessibilityMode in
      if fullyAccessible then
        let distance := calculateColorDistance originalHSL candidateHSL in
        if ext_lt distance (snd st) then
          if Rltb distance 30 then (Some candidateHSL, Some distance)
          else saturationLoop h l rest (Some candidateHSL, Some distance)
        else saturationLoop h l rest st
      else saturationLoop h l rest st
  end.

(** [bestColor && minDistance < 30]. *)
Definition closeEnough (st : UiState) : bool :=
  match fst st with
  | Some _ => ext_lt_num (snd st) 30
  | None => false
  end.

Fixpoint lightnessLoop (h : Q) (ls ss : list Q) (st : UiState) : UiState :=
  match ls with
  | [] => st
  | l :: rest =>
      let st' := saturationLoop h l ss st in
      if closeEnough st' then st' else lightnessLoop h rest ss st'
  end.

Fixpoint hueLoop (hs ls ss : list Q) (st : UiState) : UiState :=
  match hs with
  | [] => st
  | h :: rest =>
      let st' := lightnessLoop h ls ss st in
      if closeEnough st' then st' else hueLoop rest ls ss st'
  end.

End Loops.

(** [findFullyAccessibleColor]: [null] is [None]. *)
Definition findFullyAccessibleColor (calculateColorDistance : HSL -> HSL -> R)
    (originalHSL : HSL) (mode : SearchMode) (accessibilityMode : string) : option HSL :=
  let ranges := searchRanges originalHSL mode in
  fst (hueLoop calculateColorDistance originalHSL accessibilityMode
         (firstn 8 (hue ranges)) (lightness ranges) (firstn 6 (saturation ranges))
         (None, None)).

End UiSearch.

(** ** The candidates a staged search may evaluate *)

Module SearchCandidates.

Import Accessibility.

(** Every [[h, s, l]] of the nested loops of a list of stages. *)
Definition stage_candidates (stages : list SearchStage) : list HSL :=
  flat_map (fun stage =>
    flat_map (fun h =>
      flat_map (fun l => map (fun s => (h, s, l)) (saturationRange stage))
        (lightnessRange stage))
      (hueRange stage))
    stages.

(** The candidates of [findAccessibleColor]: its three stages and its
    hue-preserving fallbacks. *)
Definition all_candidates (originalHSL : HSL) (o : FindOptions) : list HSL :=
  stage_candidates (searchStages originalHSL o) ++
  generateHuePreservingFallbacks (hsl_h originalHSL) (hsl_s originalHSL).

(** [r], [g] and [b] all in [[0, 255]], as a boolean. *)
Definition valid_rgb_b (c : RGB) : bool :=
  let '(r, g, b) := c in
  ((0 <=? r) && (r <=? 255) && (0 <=? g) && (g <=? 255) && (0 <=? b) && (b <=? 255))%Z.

(** Default options except for a target ratio of 22, which no contrast
    ratio reaches. *)
Definition unreachableOptions : FindOptions :=
  mkFindOptions 22 150 true true "both" 0.8.

End SearchCandidates.

(** ** CIEDE2000 colour difference (the colour-utils file with LAB helpers) *)

Module DeltaE.

Local Open Scope R_scope.

Definition LAB : Type := (R * R * R)%type.

(** [Math.atan2(y, x)] on real numbers (no signed zeros): the angle of
    [(x, y)] in [(-PI, PI]], and [0] at the origin. *)
Definition atan2 (y x : R) : R :=
  if Rlt_dec 0 x then atan (y / x)
  else if Rlt_dec x 0 then
    (if Rle_dec 0 y then atan (y / x) + PI else atan (y / x) - PI)
  else if Rlt_dec 0 y then PI / 2
  else if Rlt_dec y 0 then - (PI / 2)
  else 0.

(** [Math.sqrt(a * a + b * b)], the chroma of [C1], [C2], [C1p], [C2p]. *)
Definition chroma (a b : R) : R := sqrt (a * a + b * b).

(** The [G] adjustment factor of [meanC]. *)
Definition factorG (meanC : R) : R :=
  0.5 * (1 - sqrt (meanC ^ 7 / (meanC ^ 7 + 25 ^ 7))).

(** The hue angle in degrees of [h1p] and [h2p]:
    [Math.atan2(b, ap) * 180 / Math.PI], plus 360 when negative. *)
Definition hue_deg (b ap : R) : R :=
  let h := atan2 b ap * 180 / PI in
  if Rlt_dec h 0 then h + 360 else h.

(** [deltahp]. *)
Definition delta_hue (h1p h2p : R) : R :=
  let deltahp := h2p - h1p in
  if Rlt_dec 180 (Rabs deltahp) then
    (if Rlt_dec h1p h2p then deltahp - 360 else deltahp + 360)
  else deltahp.

(** [meanHp]. *)
Definition mean_hue (h1p h2p : R) : R :=
  let meanHp := (h1p + h2p) / 2 in
  if Rlt_dec 180 (Rabs (h1p - h2p)) then
    (let m := meanHp + 180 in if Rle_dec 360 m then m - 360 else m)
  else meanHp.

(** The weighting functions and the sum under the final [Math.sqrt]. *)
Definition deltaE_radicand (deltaLp deltaCp deltaHp meanLp meanCp meanHp : R) : R :=
  let T := 1 - 0.17 * cos ((meanHp - 30) * PI / 180) +
           0.24 * cos (2 * meanHp * PI / 180) +
           0.32 * cos ((3 * meanHp + 6) * PI / 180) -
           0.20 * cos ((4 * meanHp - 63) * PI / 180) in
  let SL := 1 + (0.015 * (meanLp - 50) ^ 2) / sqrt (20 + (meanLp - 50) ^ 2) in
  let SC := 1 + 0.045 * meanCp in
  let SH := 1 + 0.015 * meanCp * T in
  let RT := -2 * sqrt (meanCp ^ 7 / (meanCp ^ 7 + 25 ^ 7)) *
            sin (60 * exp (- ((meanHp - 275) / 25) ^ 2) * PI / 180) in
  (deltaLp / SL) ^ 2 + (deltaCp / SC) ^ 2 + (deltaHp / SH) ^ 2 +
  RT * (deltaCp / SC) * (deltaHp / SH).

(** Everything of [calculateDeltaE] up to the final square root. *)
Definition calculateDeltaE_radicand (lab1 lab2 : LAB) : R :=
  let '(L1, a1, b1) := lab1 in
  let '(L2, a2, b2) := lab2 in
  let C1 := chroma a1 b1 in
  let C2 := chroma a2 b2 in
  let G := factorG ((C1 + C2) / 2) in
  let a1p := a1 * (1 + G) in
  let a2p := a2 * (1 + G) in
  let C1p := chroma a1p b1 in
  let C2p := chroma a2p b2 in
  let h1p := hue_deg b1 a1p in
  let h2p := hue_deg b2 a2p in
  let deltaLp := L2 - L1 in
  let deltaCp := C2p - C1p in
  let deltaHp := 2 * sqrt (C1p * C2p) * sin (delta_hue h1p h2p * PI / 360) in
  deltaE_radicand deltaLp deltaCp deltaHp ((L1 + L2) / 2) ((C1p + C2p) / 2)
    (mean_hue h1p h2p).

(** [calculateDeltaE]. *)
Definition calculateDeltaE (lab1 lab2 : LAB) : R :=
  sqrt (calculateDeltaE_radicand lab1 lab2).

End DeltaE.

(** ** The remaining WCAG helpers (js/accessibility.js) *)

Module WcagChecks.

Import Contrast.
Local Open Scope R_scope.

(** [passesContrastCheck]: AA, 3.0 for large text and 4.5 otherwise. *)
Definition passesContrastCheck (bgRgb textRgb : RGB) (isLargeText : bool) : bool :=
  let ratio := getContrastRatio bgRgb textRgb in
  let minimumRatio := if isLargeText then 3.0 else 4.5 in
  Rgeb ratio minimumRatio.

(** [passesContrastCheckAAA]: 4.5 for large text and 7.0 otherwise. *)
Definition passesContrastCheckAAA (bgRgb textRgb : RGB) (isLargeText : bool) : bool :=
  let ratio := getContrastRatio bgRgb textRgb in
  let minimumRatio := if isLargeText then 4.5 else 7.0 in
  Rgeb ratio minimumRatio.

(** One entry of [results.problematicColors]. *)
Record ProblematicColor := mkProblematicColor {
  level : Z;
  hex : string;
  blackRatio : R;
  whiteRatio : R
}.

Record AccessibilityValidation := mkAccessibilityValidation {
  overallAccessible : bool;
  problematicColors : list ProblematicColor;
  recommendations : list string
}.

(** [validateColorScaleAccessibility]: the [forEach] is a left fold over
    the scale, threading [overallAccessible] and [problematicColors]. *)
Definition validateColorScaleAccessibility (colorScale : list Swatch)
    : AccessibilityValidation :=
  let step (acc : bool * list ProblematicColor) (color : Swatch) :=
    let contrastInfo := getContrastInfo (Swatch.rgb color) in
    if negb (passesNormal (black contrastInfo)) && negb (passesNormal (white contrastInfo))
    then (false, snd acc ++ [mkProblematicColor (Swatch.level color) (Swatch.hex color)
                              (ratio (black contrastInfo)) (ratio (white contrastInfo))])
    else acc in
  let '(ok, problems) := fold_left step colorScale (true, []) in
  mkAccessibilityValidation ok problems
    (if ok then []
     else ["Consider using the accessible alternative scale";
           "Adjust lightness values to improve contrast";
           "Test with users who have visual impairments"]%string).

Record AccessibilityLevel := mkAccessibilityLevel {
  levelName : string;
  description : string;
  levelColor : string
}.

(** [getAccessibilityLevel]; the fields [level] and [color] of the
    returned object are [levelName] and [levelColor]. *)
Definition getAccessibilityLevel (ratio : R) : AccessibilityLevel :=
  if Rgeb ratio 7.0 then mkAccessibilityLevel "AAA" "Enhanced contrast" "success"
  else if Rgeb ratio 4.5 then mkAccessibilityLevel "AA" "Standard contrast" "success"
  else if Rgeb ratio 3.0 then mkAccessibilityLevel "AA Large" "Large text only" "warning"
  else mkAccessibilityLevel "Fail" "Insufficient contrast" "error".

(** [calculateAPCAContrast]: [None] stands for a non-finite result, which
    [(lighter - darker) / lighter] is exactly when [lighter] is 0 ([NaN]
    for [0 / 0], an infinity otherwise), and [Math.round] keeps it. *)
Definition calculateAPCAContrast (bgRgb textRgb : RGB) : option Z :=
  let bgLum := calculateLuminance bgRgb in
  let textLum := calculateLuminance textRgb in
  let lighter := Rmax bgLum textLum in
  let darker := Rmin bgLum textLum in
  if Req_EM_T lighter 0 then None
  else Some (js_roundR ((lighter - darker) / lighter * 100)).

(** [calculateColorDistance] of js/accessibility.js (weights 0.6, 0.25,
    0.15). *)
Definition calculateColorDistance (hsl1 hsl2 : HSL) : Q :=
  let '(h1, s1, l1) := hsl1 in
  let '(h2, s2, l2) := hsl2 in
  let hd := Qabs (h1 - h2) in
  let hueDiff := if qlt 180 hd then (360 - hd)%Q else hd in
  (hueDiff / 180 * (6 # 10) * 100 +
   Qabs (s1 - s2) / 100 * (25 # 100) * 100 +
   Qabs (l1 - l2) / 100 * (15 # 100) * 100)%Q.

End WcagChecks.

(** ** Parsing HEX colour codes (js/color-utils.js) *)

(** Strings are sequences of code units below 256.  [toUpperCase] is
    modelled on the letters [a]-[z], which is exact for 7-bit characters;
    on the other code units below 256 it never produces a hex digit, so
    [isValidHex (normalizeHex _)] and [hexToRgb] do not depend on it. *)
Module HexParse.

Definition ascii_toUpper (c : ascii) : ascii :=
  let n := nat_of_ascii c in
  if (97 <=? n)%nat && (n <=? 122)%nat then ascii_of_nat (n - 32) else c.

Fixpoint toUpperCase (s : string) : string :=
  match s with
  | EmptyString => EmptyString
  | String c rest => String (ascii_toUpper c) (toUpperCase rest)
  end.

(** [hex.replace('#', '')]: a string pattern replaces its first
    occurrence only. *)
Fixpoint replace_first_hash (s : string) : string :=
  match s with
  | EmptyString => EmptyString
  | String c rest =>
      if Ascii.eqb c "#"%char then rest else String c (replace_first_hash rest)
  end.

(** [hex.split('').map(char => char + char).join('')]. *)
Fixpoint double_chars (s : string) : string :=
  match s with
  | EmptyString => EmptyString
  | String c rest => String c (String c (double_chars rest))
  end.

(** [normalizeHex]; the empty string is the falsy input. *)
Definition normalizeHex (hex : string) : string :=
  match hex with
  | EmptyString => EmptyString
  | _ =>
      let hex1 := replace_first_hash hex in
      let hex2 := if (String.length hex1 =? 3)%nat then double_chars hex1 else hex1 in
      String "#"%char (toUpperCase hex2)
  end.

(** The character class [[A-Fa-f0-9]] (and [[a-f\d]] with the [i] flag). *)
Definition is_hex_digit (c : ascii) : bool :=
  let n := nat_of_ascii c in
  (((48 <=? n) && (n <=? 57)) || ((65 <=? n) && (n <=? 70)) ||
   ((97 <=? n) && (n <=? 102)))%nat.

Fixpoint all_hex (s : string) : bool :=
  match s with
  | EmptyString => true
  | String c rest => is_hex_digit c && all_hex rest
  end.

(** The leading optional [#?] of the regular expressions: a leading [#] is
    never a hex digit, so the match consumes it whenever it is there. *)
Definition strip_hash (s : string) : string :=
  match s with
  | String c rest => if Ascii.eqb c "#"%char then rest else s
  | EmptyString => EmptyString
  end.

(** [isValidHex]: [/^#?([A-Fa-f0-9]{6}|[A-Fa-f0-9]{3})$/]. *)
Definition isValidHex (hex : string) : bool :=
  let body := strip_hash hex in
  ((String.length body =? 6)%nat || (String.length body =? 3)%nat) && all_hex body.

(** The value of one hex digit, as [parseInt] reads it. *)
Definition hex_value (c : ascii) : Z :=
  let n := nat_of_ascii c in
  if ((48 <=? n) && (n <=? 57))%nat then Z.of_nat n - 48
  else if ((65 <=? n) && (n <=? 70))%nat then Z.of_nat n - 55
  else if ((97 <=? n) && (n <=? 102))%nat then Z.of_nat n - 87
  else 0.

(** [parseInt(pair, 16)] of two hex digits. *)
Definition parse_pair (a b : ascii) : Z := hex_value a * 16 + hex_value b.

(** [hexToRgb]: [null] is [None]; the three groups of
    [/^#?([a-f\d]{2})([a-f\d]{2})([a-f\d]{2})$/i]. *)
Definition hexToRgb (hex : string) : option RGB :=
  let normalizedHex := normalizeHex hex in
  if negb (isValidHex normalizedHex) then None
  else
    match strip_hash normalizedHex with
    | String r1 (String r2 (String g1 (String g2 (String b1 (String b2 EmptyString))))) =>
        if all_hex (String r1 (String r2 (String g1 (String g2 (String b1 (String b2 EmptyString))))))
        then Some (parse_pair r1 r2, parse_pair g1 g2, parse_pair b1 b2)
        else None
    | _ => None
    end.

(** [hexToHSL]. *)
Definition hexToHSL (hex : string) : option HSL :=
  match hexToRgb hex with
  | None => None
  | Some rgb => Some (rgbToHSL rgb)
  end.

End HexParse.

(** ** More colour utilities (js/color-utils.js) *)

Module ColorUtilsMore.

Import Contrast HexParse.

(** [calculateColorDistance] of js/color-utils.js: a weighted Euclidean
    distance with the circular hue difference; [Math.pow(x, 2)] is [x * x]. *)
Definition calculateColorDistance (hsl1 hsl2 : HSL) : R :=
  let '(h1, s1, l1) := hsl1 in
  let '(h2, s2, l2) := hsl2 in
  let hd := Qabs (h1 - h2) in
  let hueDiff := if qlt 180 hd then (360 - hd)%Q else hd in
  let hueWeight := 2%Q in
  let satWeight := 1%Q in
  let lightWeight := 1%Q in
  sqrt (Q2R ((hueDiff * hueWeight) * (hueDiff * hueWeight) +
             ((s1 - s2) * satWeight) * ((s1 - s2) * satWeight) +
             ((l1 - l2) * lightWeight) * ((l1 - l2) * lightWeight))%Q).

(** [mixHSLColors]: the hue takes the shorter way round the wheel. *)
Definition mixHSLColors (hsl1 hsl2 : HSL) (ratio : Q) : HSL :=
  let '(h1, s1, l1) := hsl1 in
  let '(h2, s2, l2) := hsl2 in
  let hueDiff := Qabs (h2 - h1) in
  let h :=
    if qlt 180 hueDiff then
      let h0 := if qlt h2 h1 then (h1 + (360 - h1 + h2) * ratio)%Q
                else (h1 - (h1 + 360 - h2) * ratio)%Q in
      let h1' := js_mod h0 360 in
      if qlt h1' 0 then (h1' + 360)%Q else h1'
    else (h1 + (h2 - h1) * ratio)%Q in
  let s := (s1 + (s2 - s1) * ratio)%Q in
  let l := (l1 + (l2 - l1) * ratio)%Q in
  (inject_Z (js_round h),
   inject_Z (js_round (js_max 0 (js_min 100 s))),
   inject_Z (js_round (js_max 0 (js_min 100 l)))).

(** [getContrastingTextColor]: black on light backgrounds (luminance above
    0.5), white otherwise, and black when the code does not parse. *)
Definition getContrastingTextColor (hex : string) : string :=
  match hexToRgb hex with
  | None => "#000000"%string
  | Some rgb =>
      let luminance := calculateLuminance rgb in
      if Rlt_dec 0.5 luminance then "#000000"%string else "#ffffff"%string
  end.

End ColorUtilsMore.

(** ** CIE LAB and LCH conversions (the colour-utils file of
    src/unnamed/part_002) *)

Module LabColor.

Import Contrast DeltaE.

Local Open Scope R_scope.

(** The per-channel map of [rgbToLab] (sRGB to linear, times 100). *)
Definition lab_lin (v : Z) : R :=
  let x := IZR v / 255 in
  (if Rlt_dec 0.04045 x then Rpower ((x + 0.055) / 1.055) 2.4 else x / 12.92) * 100.

(** The XYZ-to-LAB map of [rgbToLab]. *)
Definition lab_f (v : R) : R :=
  if Rlt_dec 0.008856 v then Rpower v (1 / 3) else 7.787 * v + 16 / 116.

(** [rgbToLab] (observer 2 degrees, illuminant D65). *)
Definition rgbToLab (rgb : RGB) : LAB :=
  let '(r0, g0, b0) := rgb in
  let r := lab_lin r0 in
  let g := lab_lin g0 in
  let b := lab_lin b0 in
  let x := (r * 0.4124 + g * 0.3576 + b * 0.1805) / 95.047 in
  let y := (r * 0.2126 + g * 0.7152 + b * 0.0722) / 100.000 in
  let z := (r * 0.0193 + g * 0.1192 + b * 0.9505) / 108.883 in
  let fx := lab_f x in
  let fy := lab_f y in
  let fz := lab_f z in
  (116 * fy - 16, 500 * (fx - fy), 200 * (fy - fz)).

(** The LAB-to-XYZ map of [labToRgb]. *)
Definition lab_f_inv (v : R) : R :=
  let cubed := v ^ 3 in
  if Rlt_dec 0.008856 cubed then cubed else (v - 16 / 116) / 7.787.

(** The linear-to-sRGB map of [labToRgb], clamped to [[0, 1]] and scaled
    to [[0, 255]]. *)
Definition srgb_channel (v : R) : R :=
  let v' := if Rlt_dec 0.0031308 v then 1.055 * Rpower v (1 / 2.4) - 0.055
            else 12.92 * v in
  Rmax 0 (Rmin 1 v') * 255.

(** [labToRgb]. *)
Definition labToRgb (lab : LAB) : RGB :=
  let '(L, a, b) := lab in
  let y0 := (L + 16) / 116 in
  let x0 := a / 500 + y0 in
  let z0 := y0 - b / 200 in
  let x := lab_f_inv x0 * 95.047 / 100 in
  let y := lab_f_inv y0 * 100.000 / 100 in
  let z := lab_f_inv z0 * 108.883 / 100 in
  let r := x * 3.2406 + y * -1.5372 + z * -0.4986 in
  let g := x * -0.9689 + y * 1.8758 + z * 0.0415 in
  let b_val := x * 0.0557 + y * -0.2040 + z * 1.0570 in
  (js_roundR (srgb_channel r), js_roundR (srgb_channel g), js_roundR (srgb_channel b_val)).

(** [rgbToLch]: the chroma is [Math.sqrt(a * a + b * b)] ([chroma]) and the
    hue [Math.atan2(b, a) * 180 / Math.PI], plus 360 when negative
    ([hue_deg]). *)
Definition rgbToLch (rgb : RGB) : LAB :=
  let '(L, a, b) := rgbToLab rgb in
  (L, chroma a b, hue_deg b a).

(** [lchToRgb]. *)
Definition lchToRgb (lch : LAB) : RGB :=
  let '(L, C, H) := lch in
  let h_rad := H * PI / 180 in
  labToRgb (L, cos h_rad * C, sin h_rad * C).

End LabColor.

(** ** Easing of the Bezier interpolation (js/scale-generator.js) *)

Module Easing.

Local Open Scope Q_scope.

(** [bezierEasing]: the ease-in-out cubic. *)
Definition bezierEasing (t : Q) : Q := t * t * (3 - 2 * t).

End Easing.

(** ** More of the dark-mode generator (js/dark-mode-generator.js) *)

Module DarkModeMore.

Import Contrast.

(** [generateOptimalDarkModeBase]. *)
Definition generateOptimalDarkModeBase (lightBaseHSL : HSL) : HSL :=
  let '(h, s, l) := lightBaseHSL in
  let darkS := if negb (isNeutralColor lightBaseHSL) then js_min 100 (s + 8) else s in
  let darkL :=
    if qlt 70 l then js_max 35 (l - 35)
    else if qlt l 30 then js_min 65 (l + 35)
    else if qlt 50 l then js_max 40 (l - 15) else js_min 60 (l + 15) in
  clampHSL (h, darkS, darkL).

(** [calculateSimpleColorDistance]: the same weighted distance as
    [calculateColorDistance] of js/accessibility.js. *)
Definition calculateSimpleColorDistance (hsl1 hsl2 : HSL) : Q :=
  WcagChecks.calculateColorDistance hsl1 hsl2.

(** [distance < minDistance], with [None] for [Infinity]. *)
Definition lt_min (d : Q) (m : option Q) : bool :=
  match m with
  | None => true
  | Some m => qlt d m
  end.

(** The four flags of a candidate, as [fullyAccessible] reads them. *)
Definition fullyAccessible (candidateHSL : HSL) : bool :=
  let contrastInfo := getContrastInfo (hslToRgb candidateHSL) in
  passesNormal (black contrastInfo) && passesLarge (black contrastInfo) &&
  passesNormal (white contrastInfo) && passesLarge (white contrastInfo).

Section Loops.

Variable originalHSL : HSL.

(** The locals [bestColor] and [minDistance]. *)
Definition DarkState : Type := (option HSL * option Q)%type.

Fixpoint saturationLoop (h l : Q) (ss : list Q) (st : DarkState) : DarkState :=
  match ss with
  | [] => st
  | s :: rest =>
      let candidateHSL := (h, s, l) in
      if fullyAccessible candidateHSL then
        let distance := calculateSimpleColorDistance originalHSL candidateHSL in
        if lt_min distance (snd st) then
          if qlt distance 25 then (Some candidateHSL, Some distance)
          else saturationLoop h l rest (Some candidateHSL, Some distance)
        else saturationLoop h l rest st
      else saturationLoop h l rest st
  end.

(** [bestColor && minDistance < 25]. *)
Definition closeEnough (st : DarkState) : bool :=
  match st with
  | (Some _, Some m) => qlt m 25
  | _ => false
  end.

Fixpoint lightnessLoop (h : Q) (ls ss : list Q) (st : DarkState) : DarkState :=
  match ls with
  | [] => st
  | l :: rest =>
      let st' := saturationLoop h l ss st in
      if closeEnough st' then st' else lightnessLoop h rest ss st'
  end.

Fixpoint hueLoop (hs ls ss : list Q) (st : DarkState) : DarkState :=
  match hs with
  | [] => st
  | h :: rest =>
      let st' := lightnessLoop h ls ss st in
      if closeEnough st' then st' else hueLoop rest ls ss st'
  end.

End Loops.

(** [findFullyAccessibleColorForDarkMode]: [null] is [None]; its
    [generateSearchRange] has the same body as the one of
    js/ui-controller.js. *)
Definition findFullyAccessibleColorForDarkMode (originalHSL : HSL) : option HSL :=
  let '(originalH, originalS, originalL) := originalHSL in
  let lightness := [35; 40; 45; 50; 55; 60]%Q in
  let saturation := UiSearch.generateSearchRange originalS 30 85 10 in
  let hue := UiSearch.generateSearchRange originalH 0 360 15 in
  fst (hueLoop originalHSL (firstn 8 hue) lightness (firstn 6 saturation) (None, None)).

End DarkModeMore.

(** ** A worked dark-mode example *)

Module DarkExample.

Import ScaleGenerator DarkMode.

(** The mirror of the diatonic levels, as [createDarkModeLevelMapping]
    builds it (key, value). *)
Definition diatonic_mirror : list (Z * Z) :=
  [(700, 100); (600, 200); (500, 300); (400, 400); (300, 500); (200, 600); (100, 700)].

(** The light diatonic scale of hsl(210, 60, 50) and its dark counterpart
    with the default options. *)
Definition diatonic_light : list Swatch :=
  match createColorScale (210, 60, 50)%Q "diatonic" with
  | Some s => s
  | None => []
  end.

Definition diatonic_dark : list Swatch :=
  generateDarkModeScale diatonic_light (210, 60, 50)%Q defaultDarkOptions.

(** Componentwise numeric equality of two HSL values. *)
Definition hsl_eq (a b : HSL) : Prop :=
  (hsl_h a == hsl_h b /\ hsl_s a == hsl_s b /\ hsl_l a == hsl_l b)%Q.

Definition default_swatch : Swatch := colorObject 0 (0, 0, 0)%Q "" false None false.

End DarkExample.

Import DarkExample.

(** ** Lemmas on the numeric helpers *)

Module JsNumFacts.

Local Open Scope Q_scope.

Lemma qlt_true (a b : Q) : qlt a b = true <-> a < b.
Proof.
  unfold qlt. rewrite negb_true_iff. split; intro H.
  - apply Qnot_le_lt. intro H'. apply Qle_bool_iff in H'. congruence.
  - destruct (Qle_bool b a) eqn:E; [|reflexivity].
    apply Qle_bool_iff in E. exfalso. apply (Qlt_not_le _ _ H E).
Qed.

Lemma qlt_false (a b : Q) : qlt a b = false <-> b <= a.
Proof.
  unfold qlt. rewrite negb_false_iff. apply Qle_bool_iff.
Qed.

Ltac qconv :=
  repeat match goal with
  | H : qlt _ _ = true |- _ => apply qlt_true in H
  | H : qlt _ _ = false |- _ => apply qlt_false in H
  end.

Ltac qcase a b :=
  let E := fresh "E" in
  destruct (qlt a b) eqn:E;
  [apply qlt_true in E | apply qlt_false in E].

Lemma js_max_min_range (lo hi x : Q) :
  lo <= hi -> lo <= js_max lo (js_min hi x) <= hi.
Proof.
  intro H. unfold js_max, js_min.
  destruct (qlt x hi) eqn:E1; qconv;
    [destruct (qlt lo x) eqn:E2 | destruct (qlt lo hi) eqn:E2]; qconv;
    split; lra.
Qed.

Lemma js_max_ge (a b : Q) : a <= js_max a b /\ b <= js_max a b.
Proof. unfold js_max. qcase a b; lra. Qed.

Lemma js_min_le (a b : Q) : js_min a b <= a /\ js_min a b <= b.
Proof. unfold js_min. qcase b a; lra. Qed.

Lemma js_max_cases (a b : Q) : js_max a b = a \/ js_max a b = b.
Proof. unfold js_max. destruct (qlt a b); auto. Qed.

Lemma js_min_cases (a b : Q) : js_min a b = a \/ js_min a b = b.
Proof. unfold js_min. destruct (qlt b a); auto. Qed.

(** The remainder by 360 of a non-negative number is in [0, 360). *)
Lemma js_mod_360_nonneg (a : Q) : 0 <= a -> 0 <= js_mod a 360 < 360.
Proof.
  intro Ha. unfold js_mod, js_trunc.
  assert (Hd : 0 <= a / 360).
  { apply Qle_shift_div_l; lra. }
  apply Qle_bool_iff in Hd. rewrite Hd. apply Qle_bool_iff in Hd.
  pose proof (Qfloor_le (a / 360)) as F1.
  pose proof (Qlt_floor (a / 360)) as F2.
  rewrite inject_Z_plus in F2. change (inject_Z 1) with 1 in F2.
  assert (E : a == 360 * (a / 360)) by (field; discriminate).
  split; lra.
Qed.

(** The remainder by 360 of any number is in (-360, 360). *)
Lemma js_mod_360_bound (a : Q) : -360 < js_mod a 360 < 360.
Proof.
  destruct (Qle_bool 0 a) eqn:Ha.
  - apply Qle_bool_iff in Ha. pose proof (js_mod_360_nonneg a Ha). lra.
  - unfold js_mod, js_trunc.
    assert (Hn : a / 360 < 0).
    { apply Qnot_le_lt. intro H. apply Qle_bool_iff in H.
      assert (H0 : 0 <= a).
      { apply Qle_bool_iff in H.
        assert (E : a == 360 * (a / 360)) by (field; discriminate).
        rewrite E. apply Qmult_le_0_compat; [lra|exact H]. }
      apply Qle_bool_iff in H0. congruence. }
    assert (Hb : Qle_bool 0 (a / 360) = false).
    { destruct (Qle_bool 0 (a / 360)) eqn:X; [|reflexivity].
      apply Qle_bool_iff in X. lra. }
    rewrite Hb.
    pose proof (Qle_ceiling (a / 360)) as F1.
    assert (F2 : inject_Z (Qceiling (a / 360)) - 1 < a / 360).
    { pose proof (Qceiling_lt (a / 360)) as F.
      unfold Z.sub in F. rewrite inject_Z_plus in F.
      change (inject_Z (-1)) with (- (1)) in F. exact F. }
    assert (E : a == 360 * (a / 360)) by (field; discriminate).
    split; lra.
Qed.

Lemma js_round_bounds (lo hi : Z) (x : Q) :
  inject_Z lo <= x <= inject_Z hi -> (lo <= js_round x <= hi)%Z.
Proof.
  intros [H1 H2]. unfold js_round. split.
  - rewrite <- (Qfloor_Z lo). apply Qfloor_resp_le. lra.
  - pose proof (Qfloor_le (x + (1#2))) as F.
    assert (Hlt : inject_Z (Qfloor (x + (1#2))) < inject_Z (hi + 1)).
    { rewrite inject_Z_plus. change (inject_Z 1) with 1. lra. }
    rewrite <- Zlt_Qlt in Hlt. lia.
Qed.

End JsNumFacts.

(** ** Range facts for the generator *)

Module GeneratorFacts.

Import JsNumFacts ScaleGenerator.
Local Open Scope Q_scope.

Lemma clampHSL_in_range (c : HSL) : hsl_in_range (clampHSL c).
Proof.
  destruct c as [[h s] l]. unfold clampHSL, hsl_in_range, hsl_h, hsl_s, hsl_l; simpl.
  pose proof (js_mod_360_bound h) as Hb.
  split; [apply js_mod_360_nonneg; lra|].
  split; apply js_max_min_range; lra.
Qed.

Lemma inject_Z_range (lo hi : Z) (z : Z) :
  (lo <= z <= hi)%Z -> inject_Z lo <= inject_Z z <= inject_Z hi.
Proof. intros [H1 H2]. split; rewrite <- Zle_Qle; assumption. Qed.

Lemma calculateNeutralHSL_in_range (c : HSL) (lvl : Z) :
  hsl_in_range c -> hsl_in_range (calculateNeutralHSL c lvl).
Proof.
  destruct c as [[h s] l].
  unfold hsl_in_range, hsl_h, hsl_s, hsl_l; simpl. intros (Hh & Hs & Hl).
  split; [exact Hh|]. split.
  - destruct ((lvl <=? 100)%Z || (700 <=? lvl)%Z); [|exact Hs].
    pose proof (js_max_ge 0 (s - 2)) as G.
    destruct (js_max_cases 0 (s - 2)) as [E|E]; rewrite E in *; lra.
  - match goal with
    | |- context [js_round (js_max 28 (js_min 95 ?t))] =>
        pose proof (js_max_min_range 28 95 t) as R
    end.
    assert (Hr : (28 <= js_round (js_max 28 (js_min 95
                   (if (lvl <? 400)%Z
                    then l + (95 - l) * ((400 - inject_Z lvl) / 350)
                    else l - (l - 28) * ((inject_Z lvl - 400) / 400)))) <= 95)%Z).
    { apply js_round_bounds. apply R. lra. }
    apply inject_Z_range in Hr. change (inject_Z 28) with 28 in Hr.
    change (inject_Z 95) with 95 in Hr. lra.
Qed.

Lemma calculateNonNeutralHSL_in_range (c : HSL) (lvl : Z) :
  hsl_in_range (calculateNonNeutralHSL c lvl).
Proof.
  destruct c as [[h s] l]. unfold calculateNonNeutralHSL.
  destruct (lvl <? 400)%Z; destruct (getLevelAdjustments lvl);
    apply clampHSL_in_range.
Qed.

Lemma calculateHSL_in_range (c : HSL) (lvl : Z) :
  hsl_in_range c -> hsl_in_range (calculateHSL c lvl).
Proof.
  intro H. unfold calculateHSL.
  destruct (lvl =? 400)%Z; [exact H|].
  destruct (isNeutralColor c).
  - apply calculateNeutralHSL_in_range; exact H.
  - apply calculateNonNeutralHSL_in_range.
Qed.

Lemma lookup_config_cases (cfg : string) (levels : list Z) :
  lookup_config cfg SCALE_CONFIGURATIONS = Some levels ->
  levels = [300; 400; 600]%Z \/
  levels = [200; 300; 400; 500; 600]%Z \/
  levels = [100; 200; 300; 400; 500; 600; 700]%Z \/
  levels = [50; 100; 200; 300; 400; 500; 600; 700; 800]%Z.
Proof.
  unfold SCALE_CONFIGURATIONS, lookup_config.
  repeat (destruct (String.eqb _ cfg); [intro H; injection H as <-; tauto|]).
  discriminate.
Qed.

(** Every element of a scale produced from [levels] is the colour object
    of one of the levels. *)
Lemma in_scale_inv (c : HSL) (cfg : string) (levels : list Z)
    (scale : list Swatch) (sw : Swatch) :
  lookup_config cfg SCALE_CONFIGURATIONS = Some levels ->
  createColorScale c cfg = Some scale -> In sw scale ->
  exists lvl, In lvl levels /\ level sw = lvl /\
    hsl sw = levelHSL (clampHSL c) (getBaseLevelForConfiguration levels) lvl.
Proof.
  intros Hl Hc Hin. unfold createColorScale in Hc. rewrite Hl in Hc.
  injection Hc as <-. apply in_map_iff in Hin as [lvl [<- Hlvl]].
  exists lvl. split; [exact Hlvl|]. split; reflexivity.
Qed.

End GeneratorFacts.

(** ** Conversions: round-trip checks *)

Module ConversionFacts.

(** The per-channel distance between an RGB triple and its round trip
    through [rgbToHSL] and [hslToRgb]. *)
Definition roundtrip_within (k : Z) (c : RGB) : bool :=
  let '(r, g, b) := c in
  let '(r', g', b') := hslToRgb (rgbToHSL c) in
  (Z.abs (r' - r) <=? k) && (Z.abs (g' - g) <=? k) && (Z.abs (b' - b) <=? k).

Definition valid_rgb (c : RGB) : Prop :=
  let '(r, g, b) := c in
  0 <= r <= 255 /\ 0 <= g <= 255 /\ 0 <= b <= 255.

End ConversionFacts.

(** * Claims *)

Import ScaleGenerator GeneratorFacts ConversionFacts.

(** C1: the swatch [createColorScale] emits at the configuration's base
    level has exactly the HSL value [clampHSL] of the input colour, and
    such a swatch exists for every registered configuration. *)
Theorem createColorScale_base_swatch (c : HSL) (cfg : string)
    (levels : list Z) (scale : list Swatch) :
  lookup_config cfg SCALE_CONFIGURATIONS = Some levels ->
  createColorScale c cfg = Some scale ->
  (exists sw, In sw scale /\ level sw = getBaseLevelForConfiguration levels) /\
  (forall sw, In sw scale -> level sw = getBaseLevelForConfiguration levels ->
              hsl sw = clampHSL c).
Proof.
  intros Hl Hc. split.
  - pose proof Hc as Hc'. unfold createColorScale in Hc'. rewrite Hl in Hc'.
    injection Hc' as <-.
    set (base := getBaseLevelForConfiguration levels).
    assert (Hb : In base levels).
    { subst base. apply lookup_config_cases in Hl.
      repeat destruct Hl as [-> | Hl]; subst; simpl; tauto. }
    eexists. split; [apply in_map; exact Hb|]. reflexivity.
  - intros sw Hin Hlev.
    destruct (in_scale_inv c cfg levels scale sw Hl Hc Hin) as [lvl [_ [Hsl Hh]]].
    rewrite Hh. unfold levelHSL. rewrite <- Hsl, Hlev, Z.eqb_refl. reflexivity.
Qed.

Lemma createColorScale_base_swatch_witness :
  exists scale,
    lookup_config "diatonic" SCALE_CONFIGURATIONS =
      Some [100; 200; 300; 400; 500; 600; 700]%Z /\
    createColorScale (210, 60, 50)%Q "diatonic" = Some scale /\
    ((exists sw, In sw scale /\
        level sw = getBaseLevelForConfiguration [100; 200; 300; 400; 500; 600; 700]%Z) /\
     (forall sw, In sw scale ->
        level sw = getBaseLevelForConfiguration [100; 200; 300; 400; 500; 600; 700]%Z ->
        hsl sw = clampHSL (210, 60, 50)%Q)).
Proof.
  eexists. split; [reflexivity|]. split; [reflexivity|].
  apply (createColorScale_base_swatch (210, 60, 50)%Q "diatonic"); reflexivity.
Defined.

(** C10: [createColorScale] returns one swatch per configured level, in the
    configuration's order, and every swatch's HSL value is in range (hue in
    [0, 360), saturation and lightness in [0, 100]), the neutral branch
    included. *)
Theorem createColorScale_levels_in_range (c : HSL) (cfg : string)
    (levels : list Z) (scale : list Swatch) :
  lookup_config cfg SCALE_CONFIGURATIONS = Some levels ->
  createColorScale c cfg = Some scale ->
  map level scale = levels /\ Forall (fun sw => hsl_in_range (hsl sw)) scale.
Proof.
  intros Hl Hc. split.
  - unfold createColorScale in Hc. rewrite Hl in Hc. injection Hc as <-.
    rewrite map_map. simpl. apply map_id.
  - apply Forall_forall. intros sw Hin.
    destruct (in_scale_inv c cfg levels scale sw Hl Hc Hin) as [lvl [_ [_ Hh]]].
    rewrite Hh. unfold levelHSL.
    destruct (lvl =? getBaseLevelForConfiguration levels)%Z.
    + apply clampHSL_in_range.
    + apply calculateHSL_in_range, clampHSL_in_range.
Qed.

Lemma createColorScale_levels_in_range_witness :
  exists scale,
    lookup_config "chromatic" SCALE_CONFIGURATIONS =
      Some [50; 100; 200; 300; 400; 500; 600; 700; 800]%Z /\
    createColorScale (0, 5, 50)%Q "chromatic" = Some scale /\
    map level scale = [50; 100; 200; 300; 400; 500; 600; 700; 800]%Z /\
    Forall (fun sw => hsl_in_range (hsl sw)) scale.
Proof.
  eexists. split; [reflexivity|]. split; [reflexivity|].
  apply (createColorScale_levels_in_range (0, 5, 50)%Q "chromatic"); reflexivity.
Defined.

(** C5: the neutrality predicate that selects the generator's neutral
    branch holds exactly when the saturation is below 15. *)
Theorem isNeutralColor_iff (c : HSL) :
  isNeutralColor c = true <-> (hsl_s c < 15)%Q.
Proof. unfold isNeutralColor. apply JsNumFacts.qlt_true. Qed.

(** C4 (counterexample): rgb(0, 0, 80) goes to hsl(240, 100, 16) and back
    to rgb(0, 0, 82): the blue channel moves by 2. *)
Lemma rgb_hsl_roundtrip_counterexample :
  rgbToHSL (0, 0, 80) = (240, 100, 16)%Q /\
  hslToRgb (rgbToHSL (0, 0, 80)) = (0, 0, 82) /\
  ~ (forall c, valid_rgb c -> roundtrip_within 1 c = true).
Proof.
  split; [vm_compute; reflexivity|]. split; [vm_compute; reflexivity|].
  intro H. specialize (H (0, 0, 80)).
  assert (Hv : valid_rgb (0, 0, 80)) by (simpl; lia).
  specialize (H Hv). vm_compute in H. discriminate.
Qed.

(** ** Contrast facts *)

Module ContrastFacts.

Import Contrast.
Local Open Scope R_scope.

Definition valid_rgb (c : RGB) : Prop :=
  let '(r, g, b) := c in
  (0 <= r <= 255 /\ 0 <= g <= 255 /\ 0 <= b <= 255)%Z.

(** Decimal literals of [R] are [Q2R] constants; [field] wants them
    unfolded. *)
Ltac unfold_decimals := cbv [Q2R Qnum Qden] in *.

Lemma Rpower_unit_range (x y : R) :
  0 < x <= 1 -> 0 <= y -> 0 <= Rpower x y <= 1.
Proof.
  intros [H0 H1] Hy. unfold Rpower. split.
  - left. apply exp_pos.
  - assert (Hl : ln x <= 0).
    { destruct (Req_dec x 1) as [->|Hne]; [rewrite ln_1; lra|].
      rewrite <- ln_1. left. apply ln_increasing; lra. }
    assert (Ht : y * ln x <= 0) by nra.
    destruct (Req_dec (y * ln x) 0) as [E|Hne]; [rewrite E, exp_0; lra|].
    rewrite <- exp_0. left. apply exp_increasing. lra.
Qed.

Lemma channel_lin_range (v : Z) :
  (0 <= v <= 255)%Z -> 0 <= channel_lin v <= 1.
Proof.
  intros [H0 H1]. apply IZR_le in H0, H1.
  unfold channel_lin.
  destruct (Rle_dec (IZR v / 255) 0.03928).
  - split; unfold Rdiv in *; lra.
  - apply Rpower_unit_range; [|lra]. split; unfold Rdiv in *; lra.
Qed.

Lemma calculateLuminance_range (c : RGB) :
  valid_rgb c -> 0 <= calculateLuminance c <= 1.
Proof.
  destruct c as [[r g] b]. simpl. intros (Hr & Hg & Hb).
  apply channel_lin_range in Hr, Hg, Hb. lra.
Qed.

Lemma js_roundR_int (z : Z) : js_roundR (IZR z) = z.
Proof.
  unfold js_roundR. symmetry. apply Int_part_spec. lra.
Qed.

Lemma js_roundR_bounds (lo hi : Z) (x : R) :
  IZR lo <= x <= IZR hi -> (lo <= js_roundR x <= hi)%Z.
Proof.
  intros [H1 H2]. unfold js_roundR.
  destruct (base_Int_part (x + / 2)) as [B1 B2].
  split.
  - apply le_IZR. apply Rnot_lt_le. intro H.
    assert (IZR (Int_part (x + / 2)) <= IZR lo - 1).
    { rewrite <- minus_IZR. apply IZR_le.
      apply lt_IZR in H. lia. }
    lra.
  - apply le_IZR. apply Rnot_lt_le. intro H.
    assert (IZR hi + 1 <= IZR (Int_part (x + / 2))).
    { rewrite <- plus_IZR. apply IZR_le.
      apply lt_IZR in H. lia. }
    lra.
Qed.

Lemma channel_lin_0 : channel_lin 0 = 0.
Proof.
  unfold channel_lin. destruct (Rle_dec (IZR 0 / 255) 0.03928); [|lra].
  unfold Rdiv. ring.
Qed.

Lemma channel_lin_255 : channel_lin 255 = 1.
Proof.
  unfold channel_lin. destruct (Rle_dec (IZR 255 / 255) 0.03928) as [H|H].
  - exfalso. unfold Rdiv in H. lra.
  - replace ((IZR 255 / 255 + 0.055) / 1.055) with 1
      by (unfold_decimals; field).
    unfold Rpower. rewrite ln_1, Rmult_0_r. apply exp_0.
Qed.

Lemma luminance_black : calculateLuminance blackRgb = 0.
Proof. unfold calculateLuminance, blackRgb. rewrite channel_lin_0. lra. Qed.

Lemma luminance_white : calculateLuminance whiteRgb = 1.
Proof. unfold calculateLuminance, whiteRgb. rewrite channel_lin_255. lra. Qed.

(** Every contrast ratio of valid colours lies in [[1, 21]]. *)
Lemma getContrastRatio_range (a b : RGB) :
  valid_rgb a -> valid_rgb b -> 1 <= getContrastRatio a b <= 21.
Proof.
  intros Ha Hb.
  pose proof (calculateLuminance_range a Ha) as La.
  pose proof (calculateLuminance_range b Hb) as Lb.
  unfold getContrastRatio.
  set (mx := Rmax (calculateLuminance a) (calculateLuminance b)).
  set (mn := Rmin (calculateLuminance a) (calculateLuminance b)).
  assert (Hmx : (0 <= mx <= 1)%R) by (subst mx; apply Rmax_case; lra).
  assert (Hmn : (0 <= mn <= 1)%R) by (subst mn; apply Rmin_case; lra).
  assert (Hle : (mn <= mx)%R) by (subst mn mx; apply Rle_trans with (calculateLuminance a);
                                [apply Rmin_l | apply Rmax_l]).
  assert (Hq : (IZR 100 <= (mx + 0.05) / (mn + 0.05) * 100 <= IZR 2100)%R).
  { set (q := ((mx + 0.05) / (mn + 0.05))%R).
    assert (Eq : (q * (mn + 0.05) = mx + 0.05)%R)
      by (subst q; unfold_decimals; field; lra).
    split; nra. }
  apply js_roundR_bounds in Hq. destruct Hq as [H1 H2].
  apply IZR_le in H1, H2. split; unfold Rdiv; lra.
Qed.

End ContrastFacts.

Import Contrast ContrastFacts.

(** C6: the contrast ratio is symmetric, equals 1 for a colour against
    itself, equals 21 for black against white, and always lies in [1, 21]. *)
Theorem getContrastRatio_laws (a b x : RGB) :
  ContrastFacts.valid_rgb a -> ContrastFacts.valid_rgb b ->
  ContrastFacts.valid_rgb x ->
  getContrastRatio a b = getContrastRatio b a /\
  getContrastRatio x x = 1%R /\
  getContrastRatio blackRgb whiteRgb = 21%R /\
  (1 <= getContrastRatio a b <= 21)%R.
Proof.
  intros Ha Hb Hx.
  pose proof (calculateLuminance_range a Ha) as La.
  pose proof (calculateLuminance_range b Hb) as Lb.
  pose proof (calculateLuminance_range x Hx) as Lx.
  split; [|split; [|split]].
  - unfold getContrastRatio. rewrite Rmax_comm, Rmin_comm. reflexivity.
  - unfold getContrastRatio. rewrite Rmax_left, Rmin_left by lra.
    replace ((calculateLuminance x + 0.05) / (calculateLuminance x + 0.05) * 100)%R
      with (IZR 100) by (field; lra).
    rewrite js_roundR_int. lra.
  - unfold getContrastRatio. rewrite luminance_black, luminance_white.
    rewrite Rmax_right, Rmin_left by lra.
    replace ((1 + 0.05) / (0 + 0.05) * 100)%R with (IZR 2100)
      by (unfold_decimals; field).
    rewrite js_roundR_int. lra.
  - apply getContrastRatio_range; assumption.
Qed.

Lemma getContrastRatio_laws_witness :
  ContrastFacts.valid_rgb (55, 147, 200)%Z /\ ContrastFacts.valid_rgb (0, 0, 0)%Z /\
  ContrastFacts.valid_rgb (255, 255, 255)%Z /\
  (getContrastRatio (55, 147, 200)%Z (0, 0, 0)%Z = getContrastRatio (0, 0, 0)%Z (55, 147, 200)%Z /\
   getContrastRatio (255, 255, 255)%Z (255, 255, 255)%Z = 1%R /\
   getContrastRatio blackRgb whiteRgb = 21%R /\
   (1 <= getContrastRatio (55, 147, 200)%Z (0, 0, 0)%Z <= 21)%R).
Proof.
  split; [simpl; lia|]. split; [simpl; lia|]. split; [simpl; lia|].
  apply getContrastRatio_laws; simpl; lia.
Defined.

(** ** Dark mode *)

Import DarkMode.

(** C7: for a scale over the diatonic levels 100..700 (base 400) the
    dark-mode mapping is exactly 100->700, 200->600, 300->500, 400->400,
    500->300, 600->200, 700->100, and mapping twice gives back every level. *)
Theorem createDarkModeLevelMapping_diatonic (light : list Swatch) :
  map level light = [100; 200; 300; 400; 500; 600; 700] ->
  createDarkModeLevelMapping light = diatonic_mirror /\
  (forall x, In x [100; 200; 300; 400; 500; 600; 700] ->
     match obj_get (createDarkModeLevelMapping light) x with
     | Some y => obj_get (createDarkModeLevelMapping light) y = Some x
     | None => False
     end).
Proof.
  intro H.
  assert (Hm : createDarkModeLevelMapping light = diatonic_mirror).
  { unfold createDarkModeLevelMapping. rewrite H. vm_compute. reflexivity. }
  split; [exact Hm|]. rewrite Hm.
  intros x Hx. simpl in Hx.
  repeat (destruct Hx as [<- | Hx]; [vm_compute; reflexivity|]).
  contradiction.
Qed.

Lemma createDarkModeLevelMapping_diatonic_witness :
  map level diatonic_light = [100; 200; 300; 400; 500; 600; 700] /\
  createDarkModeLevelMapping diatonic_light = diatonic_mirror.
Proof.
  assert (H : map level diatonic_light = [100; 200; 300; 400; 500; 600; 700])
    by (lazy; reflexivity).
  split; [exact H|]. exact (proj1 (createDarkModeLevelMapping_diatonic diatonic_light H)).
Defined.

(** Evaluated facts on the worked example. *)
Lemma diatonic_dark_first_in : In (nth 0 diatonic_dark default_swatch) diatonic_dark.
Proof.
  apply nth_In. unfold diatonic_dark, generateDarkModeScale.
  rewrite length_map. lazy. lia.
Qed.

Lemma diatonic_dark_first_level : level (nth 0 diatonic_dark default_swatch) = 100.
Proof. lazy; reflexivity. Qed.

Lemma diatonic_dark_first_lightness :
  (hsl_l (hsl (nth 0 diatonic_dark default_swatch)) == 143 # 2)%Q.
Proof. lazy; reflexivity. Qed.

Lemma diatonic_light_700_lightness :
  match find (fun c => level c =? 700) diatonic_light with
  | Some c => Qeq_bool (hsl_l (hsl c)) (61 # 2)
  | None => false
  end = true.
Proof. lazy; reflexivity. Qed.

Lemma diatonic_mapping_100 :
  obj_get (createDarkModeLevelMapping diatonic_light) 100 = Some 700.
Proof. lazy; reflexivity. Qed.

(** C3 (counterexample): with the default options, the dark swatch of level
    100 built from the diatonic scale of hsl(210, 60, 50) has lightness 71.5,
    while the light swatch at the mapped level 700 has lightness 30.5: the
    copied value is adjusted, not mirrored unchanged. *)
Lemma dark_mirror_counterexample :
  ~ (forall dc, In dc diatonic_dark ->
       level dc <> 400 ->
       forall t tc,
         obj_get (createDarkModeLevelMapping diatonic_light) (level dc) = Some t ->
         find (fun c => level c =? t) diatonic_light = Some tc ->
         hsl_eq (hsl dc) (hsl tc)).
Proof.
  intro H. specialize (H _ diatonic_dark_first_in). rewrite diatonic_dark_first_level in H.
  pose proof diatonic_light_700_lightness as Ef.
  destruct (find (fun c => level c =? 700) diatonic_light) as [tc|] eqn:Efind;
    [|discriminate].
  apply Qeq_bool_iff in Ef.
  specialize (H ltac:(discriminate) 700 tc diatonic_mapping_100 Efind).
  destruct H as (_ & _ & Hl).
  rewrite diatonic_dark_first_lightness, Ef in Hl.
  lazy in Hl. discriminate.
Qed.

(** C3 (amended): every swatch of the dark scale keeps the level of the light
    swatch at the same position; at level 400 its HSL is the dark base colour
    itself; at every other level whose mapped level is [t], its HSL is
    [applyDarkModeAdjustments] applied to the HSL of the light swatch at
    level [t] (or, when the light scale has none, to the HSL the generator
    recomputes from the dark base at [t]), so the copied value is adjusted
    for dark mode and not mirrored unchanged. *)
Theorem generateDarkModeScale_values (light : list Swatch) (baseHSL : HSL)
    (o : DarkOptions) (i : nat) (lc : Swatch) :
  nth_error light i = Some lc ->
  exists dc, nth_error (generateDarkModeScale light baseHSL o) i = Some dc /\
    level dc = level lc /\ isDarkMode dc = true /\
    (level lc = 400 -> hsl dc = darkModeBaseHSL baseHSL o) /\
    (forall t, level lc <> 400 ->
       obj_get (createDarkModeLevelMapping light) (level lc) = Some t ->
       hsl dc = applyDarkModeAdjustments
                  (match find (fun c => level c =? t) light with
                   | Some tc => hsl tc
                   | None => calculateDarkModeHSL (darkModeBaseHSL baseHSL o) t (level lc)
                   end) (level lc) (saturationBoost o) (contrastAdjustment o)).
Proof.
  intro Hi. unfold generateDarkModeScale.
  rewrite nth_error_map, Hi. simpl.
  eexists. split; [reflexivity|]. simpl.
  split; [reflexivity|]. split; [reflexivity|]. split.
  - intro H4. unfold darkHSL. rewrite H4. reflexivity.
  - intros t H4 Ht. unfold darkHSL. rewrite Ht.
    destruct (level lc =? 400) eqn:E; [apply Z.eqb_eq in E; contradiction|].
    reflexivity.
Qed.

Lemma generateDarkModeScale_values_witness :
  nth_error diatonic_light 0 = Some (nth 0 diatonic_light default_swatch) /\
  exists dc, nth_error diatonic_dark 0 = Some dc /\
    level dc = level (nth 0 diatonic_light default_swatch) /\ isDarkMode dc = true /\
    (level (nth 0 diatonic_light default_swatch) = 400 ->
       hsl dc = darkModeBaseHSL (210, 60, 50)%Q defaultDarkOptions) /\
    (forall t, level (nth 0 diatonic_light default_swatch) <> 400 ->
       obj_get (createDarkModeLevelMapping diatonic_light)
         (level (nth 0 diatonic_light default_swatch)) = Some t ->
       hsl dc = applyDarkModeAdjustments
                  (match find (fun c => level c =? t) diatonic_light with
                   | Some tc => hsl tc
                   | None => calculateDarkModeHSL
                               (darkModeBaseHSL (210, 60, 50)%Q defaultDarkOptions) t
                               (level (nth 0 diatonic_light default_swatch))
                   end) (level (nth 0 diatonic_light default_swatch))
                  (saturationBoost defaultDarkOptions)
                  (contrastAdjustment defaultDarkOptions)).
Proof.
  assert (H : nth_error diatonic_light 0 = Some (nth 0 diatonic_light default_swatch))
    by reflexivity.
  split; [exact H|].
  exact (generateDarkModeScale_values diatonic_light (210, 60, 50)%Q defaultDarkOptions
           0 (nth 0 diatonic_light default_swatch) H).
Defined.

(** ** Lemmas on the accessible-colour searches *)

Module AccessibilityFacts.

Import Contrast ContrastFacts Accessibility.

Local Open Scope R_scope.

Lemma Rgeb_true (a b : R) : b <= a -> Rgeb a b = true.
Proof. intro H. unfold Rgeb. destruct (Rle_dec b a); [reflexivity | contradiction]. Qed.

Lemma Rgeb_false (a b : R) : a < b -> Rgeb a b = false.
Proof. intro H. unfold Rgeb. destruct (Rle_dec b a); [lra | reflexivity]. Qed.

Lemma Rgeb_true_iff (a b : R) : Rgeb a b = true <-> b <= a.
Proof. unfold Rgeb. destruct (Rle_dec b a); split; intro; auto; discriminate. Qed.

Lemma Rltb_true_iff (a b : R) : Rltb a b = true <-> a < b.
Proof. unfold Rltb. destruct (Rlt_dec a b); split; intro; auto; discriminate. Qed.

(** A luminance of at least 0.19 passes 4.5 against black and fails it
    against white. *)
Lemma flags_of_luminance (c : RGB) :
  valid_rgb c -> 0.19 <= calculateLuminance c ->
  Rgeb (getContrastRatio c blackRgb) 4.5 = true /\
  Rgeb (getContrastRatio c whiteRgb) 4.5 = false.
Proof.
  intros Hv HL. pose proof (calculateLuminance_range c Hv) as R.
  set (L := calculateLuminance c) in *.
  split.
  - apply Rgeb_true. unfold getContrastRatio. fold L.
    rewrite luminance_black, Rmax_left, Rmin_right by lra.
    set (x := (L + 0.05) / (0 + 0.05) * 100).
    assert (Hx : x = (L + 0.05) * 2000) by (unfold x; unfold_decimals; field).
    assert (B : (480 <= js_roundR x <= 2100)%Z)
      by (apply js_roundR_bounds; rewrite Hx; lra).
    destruct B as [B _]. apply IZR_le in B. lra.
  - apply Rgeb_false. unfold getContrastRatio. fold L.
    rewrite luminance_white, Rmax_right, Rmin_left by lra.
    set (x := (1 + 0.05) / (L + 0.05) * 100).
    assert (Hx : x = 105 * / (L + 0.05)) by (unfold x; unfold_decimals; field; lra).
    assert (Hi : / (L + 0.05) <= / 0.24) by (apply Rinv_le_contravar; lra).
    assert (Hp : 0 < / (L + 0.05)) by (apply Rinv_0_lt_compat; lra).
    assert (H24 : / 0.24 = 25 / 6) by (unfold_decimals; field).
    assert (B : (0 <= js_roundR x <= 438)%Z)
      by (apply js_roundR_bounds; rewrite Hx; split; [lra|]; rewrite H24 in Hi; lra).
    destruct B as [_ B]. apply IZR_le in B. lra.
Qed.

Lemma luminance_red : calculateLuminance (255, 0, 0)%Z = 0.2126.
Proof. unfold calculateLuminance. rewrite channel_lin_255, channel_lin_0. lra. Qed.

Lemma hslToRgb_red_360 : hslToRgb (360, 100, 50)%Q = (255, 0, 0)%Z.
Proof. vm_compute. reflexivity. Qed.

(** With text colour ['both'] the score is the better of the two ratios. *)
Lemma score_both_black (c : HSL) :
  Rgeb (getContrastRatio (hslToRgb c) blackRgb) 4.5 = true ->
  Rgeb (calculateAccessibilityScore c "both") 4.5 = true.
Proof.
  rewrite !Rgeb_true_iff. intro H. unfold calculateAccessibilityScore. simpl.
  eapply Rle_trans; [exact H | apply Rmax_l].
Qed.

(** The early return of [findAccessibleColor]. *)
Lemma findAccessibleColor_early (c : HSL) (o : FindOptions) :
  Rgeb (calculateAccessibilityScore c (textColor o)) (targetRatio o) = true ->
  findAccessibleColor c o = c.
Proof.
  destruct c as [[h s] l]. intro H. unfold findAccessibleColor. rewrite H. reflexivity.
Qed.

(** The non-early result of [findAccessibleColor]. *)
Lemma findAccessibleColor_late (c : HSL) (o : FindOptions) :
  Rgeb (calculateAccessibilityScore c (textColor o)) (targetRatio o) = false ->
  exists b, findAccessibleColor c o = clampHSL b.
Proof.
  destruct c as [[h s] l]. intro H. unfold findAccessibleColor. rewrite H.
  eexists. reflexivity.
Qed.

Section Invariant.

Variable o : FindOptions.
Variable originalHSL : HSL.

(** A candidate fails the target. *)
Definition fails (x : HSL) : Prop :=
  calculateAccessibilityScore x (textColor o) < targetRatio o.

Definition best_fails (st : SearchState) : Prop := bestScore st < targetRatio o.

(** Every candidate of [cands] that the iteration cap lets the search
    evaluate, the [i]-th counted from [n], fails the target. *)
Definition capped_fail (cands : list HSL) (n : Z) : Prop :=
  forall i x, nth_error cands i = Some x ->
    IZR (n + Z.of_nat i) <= maxIterations o -> fails x.

(** Nothing accessible found yet, and none of the candidates still to be
    evaluated is accessible. *)
Definition no_hit (cands : list HSL) (st : SearchState) : Prop :=
  foundAccessible st = false /\ best_fails st /\ capped_fail cands (iterations st).

Lemma capped_fail_skip cands n :
  maxIterations o < IZR n -> capped_fail cands (n + 1).
Proof.
  intros H i x _ Hi. exfalso. apply (Rlt_not_le _ _ H).
  eapply Rle_trans; [|exact Hi]. apply IZR_le. lia.
Qed.

Lemma capped_fail_tail x cands n :
  capped_fail (x :: cands) n -> capped_fail cands (n + 1).
Proof.
  intros H i y Hy Hi. apply (H (S i) y Hy).
  replace (n + Z.of_nat (S i))%Z with (n + 1 + Z.of_nat i)%Z by lia. exact Hi.
Qed.

Lemma saturationLoop_no_hit h l ss later st :
  no_hit (map (fun s => (h, s, l)) ss ++ later) st ->
  no_hit later (saturationLoop o originalHSL h l ss st).
Proof.
  revert st. induction ss as [|s rest IH]; intros st (Hf & Hb & Hc); simpl; [split; auto|].
  destruct (Rltb (maxIterations o) (IZR (iterations st))) eqn:Cap.
  - apply Rltb_true_iff in Cap. split; [exact Hf|]. split; [exact Hb|].
    apply capped_fail_skip. exact Cap.
  - assert (Hs : fails (h, s, l)).
    { apply (Hc 0%nat); [reflexivity|]. rewrite Z.add_0_r.
      unfold Rltb in Cap. destruct (Rlt_dec _ _); [discriminate|lra]. }
    assert (Ha : Rgeb (calculateAccessibilityScore (h, s, l) (textColor o))
                   (targetRatio o) = false)
      by (apply Rgeb_false; exact Hs).
    rewrite Ha. simpl in Hc. apply capped_fail_tail in Hc.
    destruct (evaluateColorCandidate _ _ _ _ _ _ _ _ _); apply IH;
      (split; [exact Hf|split; [|exact Hc]]); [exact Hs|exact Hb].
Qed.

Lemma closeEnough_no_hit cands st : no_hit cands st -> closeEnough st = false.
Proof. intros (Hf & _). unfold closeEnough. rewrite Hf. reflexivity. Qed.

Lemma lightnessLoop_no_hit h ls ss later st :
  no_hit (flat_map (fun l => map (fun s => (h, s, l)) ss) ls ++ later) st ->
  no_hit later (lightnessLoop o originalHSL h ls ss st).
Proof.
  revert st. induction ls as [|l rest IH]; intros st H; simpl; [exact H|].
  simpl in H. rewrite <- app_assoc in H. apply saturationLoop_no_hit in H.
  rewrite (closeEnough_no_hit _ _ H). apply IH. exact H.
Qed.

Lemma hueLoop_no_hit hs ls ss later st :
  no_hit (flat_map (fun h => flat_map (fun l => map (fun s => (h, s, l)) ss) ls) hs
          ++ later) st ->
  no_hit later (hueLoop o originalHSL hs ls ss st).
Proof.
  revert st. induction hs as [|h rest IH]; intros st H; simpl; [exact H|].
  simpl in H. rewrite <- app_assoc in H. apply lightnessLoop_no_hit in H.
  rewrite (closeEnough_no_hit _ _ H). apply IH. exact H.
Qed.

(** When every candidate within the iteration cap fails, so does the best
    colour of the staged search. *)
Lemma stageLoop_no_hit stages st :
  no_hit (SearchCandidates.stage_candidates stages) st ->
  best_fails (stageLoop o originalHSL stages st).
Proof.
  revert st. induction stages as [|stage rest IH]; intros st H; simpl.
  - destruct H as (_ & Hb & _). exact Hb.
  - pose proof H as (Hf & _). rewrite Hf. apply IH.
    unfold SearchCandidates.stage_candidates in H. simpl in H.
    apply hueLoop_no_hit in H. exact H.
Qed.

Lemma fallbackLoop_fails fbs st :
  (forall x, In x fbs -> fails x) -> fallbackLoop o originalHSL fbs st = st.
Proof.
  induction fbs as [|f rest IH]; intros Hc; simpl; [reflexivity|].
  assert (Hf : fails f) by (apply Hc; left; reflexivity).
  unfold fails in Hf. rewrite (Rgeb_false _ _ Hf). simpl.
  apply IH. intros x Hx. apply Hc. right. exact Hx.
Qed.

End Invariant.

Lemma valid_rgb_b_spec (c : RGB) :
  SearchCandidates.valid_rgb_b c = true -> valid_rgb c.
Proof.
  destruct c as [[r g] b]. unfold SearchCandidates.valid_rgb_b, valid_rgb.
  rewrite !andb_true_iff, !Z.leb_le. tauto.
Qed.

Lemma valid_black : valid_rgb blackRgb.
Proof. unfold valid_rgb, blackRgb. lia. Qed.

Lemma valid_white : valid_rgb whiteRgb.
Proof. unfold valid_rgb, whiteRgb. lia. Qed.

(** Scores of colours with valid RGB are at most 21. *)
Lemma score_le_21 (c : HSL) (tc : string) :
  valid_rgb (hslToRgb c) -> calculateAccessibilityScore c tc <= 21.
Proof.
  intro Hv. unfold calculateAccessibilityScore.
  pose proof (getContrastRatio_range _ _ Hv valid_black) as Hb.
  pose proof (getContrastRatio_range _ _ Hv valid_white) as Hw.
  destruct (String.eqb tc "black"); [lra|].
  destruct (String.eqb tc "white"); [lra|].
  apply Rmax_case; lra.
Qed.

End AccessibilityFacts.

Module UiSearchFacts.

Import Contrast UiSearch.

(** The four flags of a candidate. *)
Lemma full_mode_flags (c : HSL) :
  isColorAccessibleByMode (colorDataOf c) "full" = true <->
  passesNormal (black (getContrastInfo (hslToRgb c))) = true /\
  passesLarge (black (getContrastInfo (hslToRgb c))) = true /\
  passesNormal (white (getContrastInfo (hslToRgb c))) = true /\
  passesLarge (white (getContrastInfo (hslToRgb c))) = true.
Proof.
  unfold isColorAccessibleByMode, colorDataOf. simpl.
  rewrite !andb_true_iff. tauto.
Qed.

(** The loops only ever store a candidate that is accessible in the mode. *)
Definition ui_inv (mode : string) (st : UiState) : Prop :=
  match fst st with
  | Some c => isColorAccessibleByMode (colorDataOf c) mode = true
  | None => True
  end.

Lemma saturationLoop_inv dist orig mode h l ss st :
  ui_inv mode st -> ui_inv mode (saturationLoop dist orig mode h l ss st).
Proof.
  revert st. induction ss as [|s rest IH]; intros st H; simpl; [exact H|].
  destruct (isColorAccessibleByMode (colorDataOf (h, s, l)) mode) eqn:E;
    [|apply IH; exact H].
  destruct (Accessibility.ext_lt _ _); [|apply IH; exact H].
  destruct (Accessibility.Rltb _ _); [exact E|apply IH; exact E].
Qed.

Lemma lightnessLoop_inv dist orig mode h ls ss st :
  ui_inv mode st -> ui_inv mode (lightnessLoop dist orig mode h ls ss st).
Proof.
  revert st. induction ls as [|l rest IH]; intros st H; simpl; [exact H|].
  pose proof (saturationLoop_inv dist orig mode h l ss st H) as H1.
  destruct (closeEnough _); [exact H1|apply IH; exact H1].
Qed.

Lemma hueLoop_inv dist orig mode hs ls ss st :
  ui_inv mode st -> ui_inv mode (hueLoop dist orig mode hs ls ss st).
Proof.
  revert st. induction hs as [|h rest IH]; intros st H; simpl; [exact H|].
  pose proof (lightnessLoop_inv dist orig mode h ls ss st H) as H1.
  destruct (closeEnough _); [exact H1|apply IH; exact H1].
Qed.

End UiSearchFacts.

(** ** Success of the interface search on the colour of scenario A *)

Module UiSearchSuccess.

Import Contrast ContrastFacts AccessibilityFacts UiSearch UiSearchFacts.

Local Open Scope R_scope.

(** [q ^ n] over [Q]. *)
Fixpoint qpow (q : Q) (n : nat) : Q :=
  match n with O => 1%Q | S k => (q * qpow q k)%Q end.

Lemma Q2R_qpow (q : Q) (n : nat) : Q2R (qpow q n) = Q2R q ^ n.
Proof.
  induction n as [|n IH]; simpl.
  - unfold Q2R. simpl. field.
  - rewrite Q2R_mult, IH. reflexivity.
Qed.

Lemma Rpower_24_pow5 (y : R) : 0 < y -> Rpower y 2.4 ^ 5 = y ^ 12.
Proof.
  intro Hy.
  rewrite <- Rpower_pow by (unfold Rpower; apply exp_pos).
  rewrite Rpower_mult, <- Rpower_pow by exact Hy.
  f_equal. simpl. unfold_decimals. lra.
Qed.

Lemma Rpower_24_bounds (y : R) (a b : Q) :
  0 < y -> 0 <= Q2R a -> 0 <= Q2R b ->
  Q2R (qpow a 5) < y ^ 12 < Q2R (qpow b 5) ->
  Q2R a < Rpower y 2.4 < Q2R b.
Proof.
  intros Hy Ha Hb. rewrite !Q2R_qpow, <- (Rpower_24_pow5 y Hy). intros [H1 H2].
  assert (Hp : 0 < Rpower y 2.4) by (unfold Rpower; apply exp_pos).
  split.
  - destruct (Rlt_or_le (Q2R a) (Rpower y 2.4)) as [H|H]; [exact H|].
    exfalso. pose proof (pow_incr _ _ 5 (conj (Rlt_le _ _ Hp) H)). lra.
  - destruct (Rlt_or_le (Rpower y 2.4) (Q2R b)) as [H|H]; [exact H|].
    exfalso. pose proof (pow_incr _ _ 5 (conj Hb H)). lra.
Qed.

(** The argument of the power in [channel_lin v]. *)
Definition lin_base (v : Z) : Q := ((1000 * v + 14025) # 269025)%Q.

Lemma channel_lin_bounds (v : Z) (a b : Q) :
  (11 <= v)%Z -> (0 <= a)%Q -> (0 <= b)%Q ->
  (qpow a 5 < qpow (lin_base v) 12)%Q -> (qpow (lin_base v) 12 < qpow b 5)%Q ->
  Q2R a < channel_lin v < Q2R b.
Proof.
  intros Hv Ha Hb H1 H2. apply Qle_Rle in Ha, Hb. apply Qlt_Rlt in H1, H2.
  apply IZR_le in Hv.
  unfold channel_lin.
  destruct (Rle_dec (IZR v / 255) 0.03928) as [H|_].
  { exfalso. unfold_decimals. unfold Rdiv in H. lra. }
  assert (E : (IZR v / 255 + 0.055) / 1.055 = Q2R (lin_base v)).
  { unfold lin_base, Q2R. cbn [Qnum Qden]. rewrite plus_IZR, mult_IZR. unfold_decimals. field. }
  rewrite E. replace (Q2R 0) with 0 in Ha, Hb by (unfold Q2R; simpl; ring).
  apply Rpower_24_bounds; [| exact Ha | exact Hb | ].
  - rewrite <- E. unfold_decimals. unfold Rdiv. lra.
  - rewrite <- !Q2R_qpow. split; assumption.
Qed.

Lemma Rgeb_of_round (x : R) (lo : Z) (t : R) :
  IZR lo - / 2 <= x -> t <= IZR lo / 100 -> Rgeb (IZR (js_roundR x) / 100) t = true.
Proof.
  intros Hx Ht. apply Rgeb_true.
  assert (Hr : (lo <= js_roundR x)%Z).
  { unfold js_roundR. destruct (base_Int_part (x + / 2)) as [B1 B2].
    apply Z.nlt_ge. intro H. apply Zlt_le_succ in H. apply IZR_le in H.
    rewrite succ_IZR in H. lra. }
  apply IZR_le in Hr. unfold Rdiv in *. lra.
Qed.

(** A luminance in [[0.17475, 0.1835]] passes all four flags. *)
Lemma flags_of_band (c : RGB) :
  0.17475 <= calculateLuminance c <= 0.1835 ->
  passesNormal (black (getContrastInfo c)) = true /\
  passesLarge (black (getContrastInfo c)) = true /\
  passesNormal (white (getContrastInfo c)) = true /\
  passesLarge (white (getContrastInfo c)) = true.
Proof.
  intros HL. cbn [getContrastInfo side_of passesNormal passesLarge black white].
  unfold getContrastRatio.
  set (L := calculateLuminance c) in *.
  rewrite luminance_black, Rmax_left, Rmin_right by lra.
  rewrite luminance_white, Rmax_right, Rmin_left by lra.
  assert (EB : (L + 0.05) / (0 + 0.05) * 100 = (L + 0.05) * 2000)
    by (unfold_decimals; field).
  assert (Hp : 0 < L + 0.05) by (unfold_decimals; lra).
  assert (EW : (1 + 0.05) / (L + 0.05) * 100 = 105 * / (L + 0.05))
    by (unfold_decimals; field; lra).
  assert (W : 450 - / 2 <= 105 * / (L + 0.05)).
  { apply (Rmult_le_reg_r (L + 0.05)); [exact Hp|].
    rewrite Rmult_assoc, Rinv_l by lra. unfold_decimals. lra. }
  rewrite EB, EW.
  repeat split; apply (Rgeb_of_round _ 450); unfold_decimals; lra.
Qed.

Ltac lin_bound v a b :=
  let H := fresh "B" in
  assert (H : Q2R a < channel_lin v < Q2R b)
    by (apply channel_lin_bounds; vm_compute; first [reflexivity | intro; discriminate]);
  unfold Q2R in H; cbn [Qnum Qden] in H.

Lemma luminance_light_candidate : 0.17475 <= calculateLuminance (23, 123, 181)%Z <= 0.1835.
Proof.
  unfold calculateLuminance.
  lin_bound 23%Z (85680 # 10000000) (85683 # 10000000).
  lin_bound 123%Z (1980692 # 10000000) (1980695 # 10000000).
  lin_bound 181%Z (4620768 # 10000000) (4620771 # 10000000).
  unfold_decimals. lra.
Qed.

Lemma luminance_dark_candidate : 0.17475 <= calculateLuminance (116, 105, 201)%Z <= 0.1835.
Proof.
  unfold calculateLuminance.
  lin_bound 116%Z (1746473 # 10000000) (1746476 # 10000000).
  lin_bound 105%Z (1412631 # 10000000) (1412634 # 10000000).
  lin_bound 201%Z (5840783 # 10000000) (5840786 # 10000000).
  unfold_decimals. lra.
Qed.

Section Found.

Variable dist : HSL -> HSL -> R.
Variable orig : HSL.
Variable mode : string.

(** No distance is recorded before a colour is. *)
Definition ui_pos (st : UiState) : Prop := fst st = None -> snd st = None.

Lemma saturationLoop_some h l ss st :
  fst st <> None -> fst (saturationLoop dist orig mode h l ss st) <> None.
Proof.
  revert st. induction ss as [|s rest IH]; intros st H; simpl; [exact H|].
  destruct (isColorAccessibleByMode _ _); [|apply IH; exact H].
  destruct (Accessibility.ext_lt _ _); [|apply IH; exact H].
  destruct (Accessibility.Rltb _ _); [discriminate|apply IH; discriminate].
Qed.

Lemma saturationLoop_pos h l ss st :
  ui_pos st -> ui_pos (saturationLoop dist orig mode h l ss st).
Proof.
  revert st. induction ss as [|s rest IH]; intros st H; simpl; [exact H|].
  destruct (isColorAccessibleByMode _ _); [|apply IH; exact H].
  destruct (Accessibility.ext_lt _ _); [|apply IH; exact H].
  destruct (Accessibility.Rltb _ _); [discriminate|apply IH; discriminate].
Qed.

Lemma saturationLoop_found h l ss st s :
  ui_pos st -> In s ss -> isColorAccessibleByMode (colorDataOf (h, s, l)) mode = true ->
  fst (saturationLoop dist orig mode h l ss st) <> None.
Proof.
  revert st. induction ss as [|s0 rest IH]; intros st Hp Hin Ha; [destruct Hin|].
  simpl. destruct Hin as [<-|Hin].
  - rewrite Ha. destruct (Accessibility.ext_lt _ _) eqn:E.
    + destruct (Accessibility.Rltb _ _); [discriminate|apply saturationLoop_some; discriminate].
    + apply saturationLoop_some. intro Hn. apply Hp in Hn. rewrite Hn in E. discriminate.
  - destruct (isColorAccessibleByMode (colorDataOf (h, s0, l)) mode);
      [|apply IH; assumption].
    destruct (Accessibility.ext_lt _ _); [|apply IH; assumption].
    destruct (Accessibility.Rltb _ _); [discriminate|apply IH; [discriminate|assumption..]].
Qed.

Lemma closeEnough_some st : closeEnough st = true -> fst st <> None.
Proof. unfold closeEnough. destruct (fst st); [discriminate|intro; discriminate]. Qed.

Lemma lightnessLoop_some h ls ss st :
  fst st <> None -> fst (lightnessLoop dist orig mode h ls ss st) <> None.
Proof.
  revert st. induction ls as [|l rest IH]; intros st H; simpl; [exact H|].
  pose proof (saturationLoop_some h l ss st H) as H1.
  destruct (closeEnough _); [exact H1|apply IH; exact H1].
Qed.

Lemma lightnessLoop_pos h ls ss st :
  ui_pos st -> ui_pos (lightnessLoop dist orig mode h ls ss st).
Proof.
  revert st. induction ls as [|l rest IH]; intros st H; simpl; [exact H|].
  pose proof (saturationLoop_pos h l ss st H) as H1.
  destruct (closeEnough _); [exact H1|apply IH; exact H1].
Qed.

Lemma lightnessLoop_found h ls ss st l s :
  ui_pos st -> In l ls -> In s ss ->
  isColorAccessibleByMode (colorDataOf (h, s, l)) mode = true ->
  fst (lightnessLoop dist orig mode h ls ss st) <> None.
Proof.
  revert st. induction ls as [|l0 rest IH]; intros st Hp Hl Hs Ha; [destruct Hl|].
  simpl. destruct (closeEnough _) eqn:C; [apply closeEnough_some; exact C|].
  destruct Hl as [<-|Hl].
  - apply lightnessLoop_some. eapply saturationLoop_found; eassumption.
  - apply IH; [apply saturationLoop_pos; exact Hp|assumption..].
Qed.

Lemma hueLoop_found hs ls ss st h l s :
  ui_pos st -> In h hs -> In l ls -> In s ss ->
  isColorAccessibleByMode (colorDataOf (h, s, l)) mode = true ->
  fst (hueLoop dist orig mode hs ls ss st) <> None.
Proof.
  revert st. induction hs as [|h0 rest IH]; intros st Hp Hh Hl Hs Ha; [destruct Hh|].
  simpl. destruct (closeEnough _) eqn:C; [apply closeEnough_some; exact C|].
  destruct Hh as [E|Hh].
  - subst h0. assert (H1 : fst (lightnessLoop dist orig mode h ls ss st) <> None)
      by (eapply lightnessLoop_found; eassumption).
    clear IH. revert H1. generalize (lightnessLoop dist orig mode h ls ss st). intros st' H1.
    clear C. revert st' H1. induction rest as [|h1 r IH]; intros st' H1; simpl; [exact H1|].
    pose proof (lightnessLoop_some h1 ls ss st' H1) as H2.
    destruct (closeEnough _); [exact H2|apply IH; exact H2].
  - apply IH; [apply lightnessLoop_pos; exact Hp|assumption..].
Qed.

End Found.

Lemma rgbToHSL_scenario_A : rgbToHSL (55, 145, 198)%Z = (202, 57, 50)%Q.
Proof. vm_compute. reflexivity. Qed.

Lemma findFullyAccessibleColor_scenario_A (d : HSL -> HSL -> R) (m : SearchMode) :
  findFullyAccessibleColor d (rgbToHSL (55, 145, 198)%Z) m "full" <> None.
Proof.
  rewrite rgbToHSL_scenario_A. unfold findFullyAccessibleColor.
  destruct m.
  - apply (hueLoop_found _ _ _ _ _ _ _ 202%Q 40%Q 77%Q).
    + intro; reflexivity.
    + vm_compute. left. reflexivity.
    + vm_compute. repeat (first [left; reflexivity | right]).
    + vm_compute. repeat (first [left; reflexivity | right]).
    + apply full_mode_flags.
      replace (hslToRgb (202, 77, 40)%Q) with (23, 123, 181)%Z by (vm_compute; reflexivity).
      apply flags_of_band, luminance_light_candidate.
  - apply (hueLoop_found _ _ _ _ _ _ _ 247%Q 60%Q 47%Q).
    + intro; reflexivity.
    + vm_compute. repeat (first [left; reflexivity | right]).
    + vm_compute. repeat (first [left; reflexivity | right]).
    + vm_compute. repeat (first [left; reflexivity | right]).
    + apply full_mode_flags.
      replace (hslToRgb (247, 47, 60)%Q) with (116, 105, 201)%Z by (vm_compute; reflexivity).
      apply flags_of_band, luminance_dark_candidate.
Qed.

End UiSearchSuccess.

(** ** Accessible-colour searches *)

Import Accessibility AccessibilityFacts UiSearchFacts.

(** C2: whenever the accessible-alternative search of the interface,
    [findFullyAccessibleColor] in the ['full'] accessibility mode, returns
    a colour (not [null]), for any input colour, any colour distance and
    either search mode, that colour passes all four flags: normal and large
    text against black and against white.  On the colour of scenario A,
    rgb(55, 145, 198), that is hsl(202, 57, 50), the search succeeds in
    both modes and for every colour distance: it returns such a colour. *)
Theorem findFullyAccessibleColor_full_flags :
  (forall (calculateColorDistance : HSL -> HSL -> R) (c : HSL) (mode : UiSearch.SearchMode),
     match UiSearch.findFullyAccessibleColor calculateColorDistance c mode "full" with
     | Some r =>
         passesNormal (black (getContrastInfo (hslToRgb r))) = true /\
         passesLarge (black (getContrastInfo (hslToRgb r))) = true /\
         passesNormal (white (getContrastInfo (hslToRgb r))) = true /\
         passesLarge (white (getContrastInfo (hslToRgb r))) = true
     | None => True
     end) /\
  (forall (calculateColorDistance : HSL -> HSL -> R) (mode : UiSearch.SearchMode),
     exists r,
       UiSearch.findFullyAccessibleColor calculateColorDistance
         (rgbToHSL (55, 145, 198)%Z) mode "full" = Some r /\
       passesNormal (black (getContrastInfo (hslToRgb r))) = true /\
       passesLarge (black (getContrastInfo (hslToRgb r))) = true /\
       passesNormal (white (getContrastInfo (hslToRgb r))) = true /\
       passesLarge (white (getContrastInfo (hslToRgb r))) = true).
Proof.
  assert (G : forall (d : HSL -> HSL -> R) (c : HSL) (mode : UiSearch.SearchMode),
     match UiSearch.findFullyAccessibleColor d c mode "full" with
     | Some r =>
         passesNormal (black (getContrastInfo (hslToRgb r))) = true /\
         passesLarge (black (getContrastInfo (hslToRgb r))) = true /\
         passesNormal (white (getContrastInfo (hslToRgb r))) = true /\
         passesLarge (white (getContrastInfo (hslToRgb r))) = true
     | None => True
     end).
  { intros d c mode. unfold UiSearch.findFullyAccessibleColor.
    match goal with
    | |- context [UiSearch.hueLoop ?d ?o ?m ?hs ?ls ?ss ?st] =>
        pose proof (hueLoop_inv d o m hs ls ss st I) as Hinv
    end.
    unfold ui_inv in Hinv.
    destruct (fst _) as [r|]; [|exact I].
    apply full_mode_flags. exact Hinv. }
  split; [exact G|].
  intros d mode.
  pose proof (UiSearchSuccess.findFullyAccessibleColor_scenario_A d mode) as Hs.
  pose proof (G d (rgbToHSL (55, 145, 198)%Z) mode) as Hg.
  destruct (UiSearch.findFullyAccessibleColor d (rgbToHSL (55, 145, 198)%Z) mode "full")
    as [r|]; [|contradiction].
  exists r. split; [reflexivity|exact Hg].
Qed.

Lemma findFullyAccessibleColor_full_flags_witness :
  exists r,
    UiSearch.findFullyAccessibleColor ColorUtilsMore.calculateColorDistance
      (rgbToHSL (55, 145, 198)%Z) UiSearch.light "full" = Some r /\
    passesNormal (black (getContrastInfo (hslToRgb r))) = true /\
    passesLarge (black (getContrastInfo (hslToRgb r))) = true /\
    passesNormal (white (getContrastInfo (hslToRgb r))) = true /\
    passesLarge (white (getContrastInfo (hslToRgb r))) = true.
Proof.
  exact (proj2 findFullyAccessibleColor_full_flags
           ColorUtilsMore.calculateColorDistance UiSearch.light).
Defined.

(** C9 (counterexample): [findAccessibleColor] does not always clamp its
    result: hsl(360, 100, 50) is rgb(255, 0, 0), of luminance 0.2126 and
    black-text ratio 5.25, so it is returned unchanged with hue 360. *)
Lemma findAccessibleColor_range_counterexample :
  ~ (forall (c : HSL) (o : FindOptions), hsl_in_range (findAccessibleColor c o)).
Proof.
  intro H. specialize (H (360, 100, 50)%Q defaultFindOptions).
  rewrite findAccessibleColor_early in H.
  - unfold hsl_in_range, hsl_h in H. simpl in H. destruct H as [[_ H] _].
    apply Qlt_irrefl in H. exact H.
  - apply score_both_black. rewrite hslToRgb_red_360.
    apply (flags_of_luminance (255, 0, 0)%Z); [simpl; lia|].
    rewrite luminance_red. lra.
Qed.

(** C9 (amended): [findAccessibleColor] always returns an HSL triple.  When
    the colour already meets the target ratio it is returned unchanged
    (possibly out of range); otherwise the result is clamped into range,
    and when the staged search fails, that is every candidate it evaluates
    misses the target (the candidates of the three stages in search order,
    the [i]-th evaluated only while [i <= maxIterations], so at most 151
    with the default options), and every hue-preserving fallback misses
    too, the result is the clamped accessible colour of the hue family of
    the original hue. *)
Theorem findAccessibleColor_result (c : HSL) (o : FindOptions) :
  ((targetRatio o <= calculateAccessibilityScore c (textColor o))%R /\
   findAccessibleColor c o = c) \/
  ((calculateAccessibilityScore c (textColor o) < targetRatio o)%R /\
   hsl_in_range (findAccessibleColor c o) /\
   ((forall i x, nth_error (SearchCandidates.stage_candidates (searchStages c o)) i = Some x ->
       (IZR (Z.of_nat i) <= maxIterations o)%R ->
       (calculateAccessibilityScore x (textColor o) < targetRatio o)%R) ->
    (forall x, In x (generateHuePreservingFallbacks (hsl_h c) (hsl_s c)) ->
       (calculateAccessibilityScore x (textColor o) < targetRatio o)%R) ->
    findAccessibleColor c o =
      clampHSL (getAccessibleColorForHueFamily (getHueFamily (hsl_h c))))).
Proof.
  destruct (Rgeb (calculateAccessibilityScore c (textColor o)) (targetRatio o)) eqn:E.
  - left. split; [apply Rgeb_true_iff; exact E | apply findAccessibleColor_early; exact E].
  - right.
    assert (Hlt : (calculateAccessibilityScore c (textColor o) < targetRatio o)%R).
    { unfold Rgeb in E. destruct (Rle_dec _ _); [discriminate | lra]. }
    split; [exact Hlt|]. split.
    + destruct (findAccessibleColor_late c o E) as [b Hb]. rewrite Hb.
      apply GeneratorFacts.clampHSL_in_range.
    + intros Hcap Hfb.
      destruct c as [[h s] l]. unfold findAccessibleColor. rewrite E.
      set (st1 := stageLoop o (h, s, l) (searchStages (h, s, l) o)
                    (mkState (h, s, l) (calculateAccessibilityScore (h, s, l) (textColor o))
                       None 0 false)).
      assert (B1 : best_fails o st1).
      { apply stageLoop_no_hit. split; [reflexivity|]. split; [exact Hlt|].
        intros i x Hi Hx. apply (Hcap i x Hi). exact Hx. }
      unfold best_fails in B1.
      assert (R1 : Rltb (bestScore st1) (targetRatio o) = true)
        by (apply Rltb_true_iff; exact B1).
      rewrite R1. rewrite fallbackLoop_fails.
      * rewrite R1. reflexivity.
      * exact Hfb.
Qed.

Lemma findAccessibleColor_result_witness :
  (forall i x, nth_error (SearchCandidates.stage_candidates
                  (searchStages (210, 60, 50)%Q SearchCandidates.unreachableOptions)) i = Some x ->
     (IZR (Z.of_nat i) <= maxIterations SearchCandidates.unreachableOptions)%R ->
     (calculateAccessibilityScore x "both" < 22)%R) /\
  (forall x, In x (generateHuePreservingFallbacks 210 60) ->
     (calculateAccessibilityScore x "both" < 22)%R) /\
  findAccessibleColor (210, 60, 50)%Q SearchCandidates.unreachableOptions =
    clampHSL (getAccessibleColorForHueFamily (getHueFamily 210%Q)).
Proof.
  assert (Hall : forall x, In x (SearchCandidates.all_candidates (210, 60, 50)%Q
                                   SearchCandidates.unreachableOptions) ->
                   (calculateAccessibilityScore x "both" < 22)%R).
  { assert (H7 : Rgeb (targetRatio SearchCandidates.unreachableOptions) 7.0 = true)
      by (apply Rgeb_true; simpl; lra).
    assert (Hb : forallb (fun x => SearchCandidates.valid_rgb_b (hslToRgb x))
                   (SearchCandidates.all_candidates (210, 60, 50)%Q
                      SearchCandidates.unreachableOptions) = true).
    { unfold SearchCandidates.all_candidates, searchStages. rewrite H7.
      vm_compute. reflexivity. }
    rewrite forallb_forall in Hb.
    intros x Hx. apply Hb, valid_rgb_b_spec, (score_le_21 x "both") in Hx. lra. }
  unfold SearchCandidates.all_candidates in Hall.
  assert (Hcap : forall i x, nth_error (SearchCandidates.stage_candidates
                   (searchStages (210, 60, 50)%Q SearchCandidates.unreachableOptions)) i = Some x ->
                   (IZR (Z.of_nat i) <= maxIterations SearchCandidates.unreachableOptions)%R ->
                   (calculateAccessibilityScore x "both" < 22)%R).
  { intros i x Hi _. apply Hall. apply in_or_app. left. eapply nth_error_In. exact Hi. }
  assert (Hfb : forall x, In x (generateHuePreservingFallbacks 210 60) ->
                  (calculateAccessibilityScore x "both" < 22)%R).
  { intros x Hx. apply Hall. apply in_or_app. right. exact Hx. }
  split; [exact Hcap|]. split; [exact Hfb|].
  destruct (findAccessibleColor_result (210, 60, 50)%Q SearchCandidates.unreachableOptions)
    as [[H _] | (_ & _ & Himp)].
  - exfalso.
    assert (Hv : ContrastFacts.valid_rgb (hslToRgb (210, 60, 50)%Q))
      by (apply valid_rgb_b_spec; vm_compute; reflexivity).
    apply (score_le_21 _ "both") in Hv. simpl in H. lra.
  - apply Himp; [exact Hcap | exact Hfb].
Defined.

(** ** Lemmas on the CIEDE2000 distance *)

Module DeltaEFacts.

Import DeltaE.

Local Open Scope R_scope.

Lemma factor_sqrt_lt_1 (m : R) :
  0 <= m -> 0 <= sqrt (m ^ 7 / (m ^ 7 + 25 ^ 7)) < 1.
Proof.
  intro Hm. pose proof (pow_le m 7 Hm) as H7.
  assert (H25 : 0 < 25 ^ 7) by (apply pow_lt; lra).
  split; [apply sqrt_pos|].
  rewrite <- sqrt_1. apply sqrt_lt_1_alt. split.
  - unfold Rdiv; apply Rmult_le_pos; [lra|left; apply Rinv_0_lt_compat; lra].
  - apply Rmult_lt_reg_r with (m ^ 7 + 25 ^ 7); [lra|].
    unfold Rdiv. rewrite Rmult_assoc, Rinv_l, Rmult_1_r by lra. lra.
Qed.

(** The weights of [deltaE_radicand]: [SL], [SC], [SH] are at least 1 and
    [RT] lies strictly between -2 and 2. *)
Lemma radicand_weights (meanLp meanCp meanHp : R) :
  0 <= meanCp ->
  let T := 1 - 0.17 * cos ((meanHp - 30) * PI / 180) +
           0.24 * cos (2 * meanHp * PI / 180) +
           0.32 * cos ((3 * meanHp + 6) * PI / 180) -
           0.20 * cos ((4 * meanHp - 63) * PI / 180) in
  let SL := 1 + (0.015 * (meanLp - 50) ^ 2) / sqrt (20 + (meanLp - 50) ^ 2) in
  let SC := 1 + 0.045 * meanCp in
  let SH := 1 + 0.015 * meanCp * T in
  let RT := -2 * sqrt (meanCp ^ 7 / (meanCp ^ 7 + 25 ^ 7)) *
            sin (60 * exp (- ((meanHp - 275) / 25) ^ 2) * PI / 180) in
  1 <= SL /\ 1 <= SC /\ 1 <= SH /\ -2 < RT < 2.
Proof.
  intros Hc T SL SC SH RT.
  assert (HT : 0 <= T).
  { unfold T.
    pose proof (COS_bound ((meanHp - 30) * PI / 180)).
    pose proof (COS_bound (2 * meanHp * PI / 180)).
    pose proof (COS_bound ((3 * meanHp + 6) * PI / 180)).
    pose proof (COS_bound ((4 * meanHp - 63) * PI / 180)).
    lra. }
  split; [|split; [|split]].
  - unfold SL.
    assert (Hs : 0 < sqrt (20 + (meanLp - 50) ^ 2))
      by (apply sqrt_lt_R0; pose proof (pow2_ge_0 (meanLp - 50)); lra).
    assert (0 <= 0.015 * (meanLp - 50) ^ 2 / sqrt (20 + (meanLp - 50) ^ 2)).
    { unfold Rdiv; apply Rmult_le_pos; [|left; apply Rinv_0_lt_compat; exact Hs].
      pose proof (pow2_ge_0 (meanLp - 50)). lra. }
    lra.
  - unfold SC. lra.
  - unfold SH. assert (0 <= meanCp * T) by (apply Rmult_le_pos; lra). lra.
  - unfold RT.
    destruct (factor_sqrt_lt_1 meanCp Hc) as [Q0 Q1].
    pose proof (SIN_bound (60 * exp (- ((meanHp - 275) / 25) ^ 2) * PI / 180)) as [S0 S1].
    set (q := sqrt (meanCp ^ 7 / (meanCp ^ 7 + 25 ^ 7))) in *.
    set (sn := sin (60 * exp (- ((meanHp - 275) / 25) ^ 2) * PI / 180)) in *.
    split; nra.
Qed.

(** [p^2 + q^2 + r^2 + RT q r] with [|RT| < 2] is a positive definite form. *)
Lemma quad_form_nonneg (p q r RT : R) :
  -2 < RT < 2 -> 0 <= p ^ 2 + q ^ 2 + r ^ 2 + RT * q * r.
Proof.
  intros [H1 H2].
  assert (E : p ^ 2 + q ^ 2 + r ^ 2 + RT * q * r =
              p ^ 2 + (q + RT * r / 2) ^ 2 + (1 - RT * RT / 4) * r ^ 2) by field.
  rewrite E.
  assert (0 <= 1 - RT * RT / 4) by nra.
  pose proof (pow2_ge_0 p). pose proof (pow2_ge_0 (q + RT * r / 2)).
  pose proof (pow2_ge_0 r). nra.
Qed.

Lemma sq_zero (x : R) : x ^ 2 = 0 -> x = 0.
Proof.
  intro H. simpl in H. rewrite Rmult_1_r in H.
  destruct (Rmult_integral _ _ H); assumption.
Qed.

Lemma quad_form_zero (p q r RT : R) :
  -2 < RT < 2 -> p ^ 2 + q ^ 2 + r ^ 2 + RT * q * r = 0 -> p = 0 /\ q = 0 /\ r = 0.
Proof.
  intros [H1 H2] H.
  assert (E : p ^ 2 + q ^ 2 + r ^ 2 + RT * q * r =
              p ^ 2 + (q + RT * r / 2) ^ 2 + (1 - RT * RT / 4) * r ^ 2) by field.
  rewrite E in H.
  assert (Hk : 0 < 1 - RT * RT / 4) by nra.
  pose proof (pow2_ge_0 p). pose proof (pow2_ge_0 (q + RT * r / 2)).
  pose proof (pow2_ge_0 r).
  assert (Hr2 : r ^ 2 = 0) by nra.
  assert (Hp2 : p ^ 2 = 0) by nra.
  assert (Hr : r = 0) by (apply sq_zero; exact Hr2).
  subst r.
  assert (Hq2 : (q + RT * 0 / 2) ^ 2 = 0) by nra.
  replace (q + RT * 0 / 2) with q in Hq2 by field.
  split; [|split; [|reflexivity]].
  - apply sq_zero. exact Hp2.
  - apply sq_zero. exact Hq2.
Qed.

Lemma deltaE_radicand_nonneg (dL dC dH mL mC mH : R) :
  0 <= mC -> 0 <= deltaE_radicand dL dC dH mL mC mH.
Proof.
  intro Hc. pose proof (radicand_weights mL mC mH Hc) as W. cbv zeta in W.
  destruct W as (_ & _ & _ & W).
  unfold deltaE_radicand. cbv zeta. apply quad_form_nonneg. exact W.
Qed.

Lemma div_zero (x y : R) : 1 <= y -> x / y = 0 -> x = 0.
Proof.
  intros Hy H. replace x with (x / y * y) by (field; lra). rewrite H. ring.
Qed.

Lemma deltaE_radicand_zero_inv (dL dC dH mL mC mH : R) :
  0 <= mC -> deltaE_radicand dL dC dH mL mC mH = 0 ->
  dL = 0 /\ dC = 0 /\ dH = 0.
Proof.
  intros Hc H. pose proof (radicand_weights mL mC mH Hc) as W. cbv zeta in W.
  destruct W as (W1 & W2 & W3 & W4).
  unfold deltaE_radicand in H. cbv zeta in H.
  destruct (quad_form_zero _ _ _ _ W4 H) as (Z1 & Z2 & Z3).
  apply div_zero in Z1; [|lra]. apply div_zero in Z2; [|lra].
  apply div_zero in Z3; [|lra].
  auto.
Qed.

Lemma deltaE_radicand_opp (dL dC dH mL mC mH : R) :
  deltaE_radicand (- dL) (- dC) (- dH) mL mC mH = deltaE_radicand dL dC dH mL mC mH.
Proof. unfold deltaE_radicand. cbv zeta. unfold Rdiv. ring. Qed.

Lemma deltaE_radicand_0 (mL mC mH : R) : deltaE_radicand 0 0 0 mL mC mH = 0.
Proof. unfold deltaE_radicand. cbv zeta. unfold Rdiv. ring. Qed.

Lemma delta_hue_antisym (h1 h2 : R) : delta_hue h2 h1 = - delta_hue h1 h2.
Proof.
  unfold delta_hue. cbv zeta. rewrite (Rabs_minus_sym h1 h2).
  destruct (Rle_or_lt h1 h2).
  - rewrite (Rabs_right (h2 - h1)) by lra.
    repeat destruct (Rlt_dec _ _); lra.
  - rewrite (Rabs_left1 (h2 - h1)) by lra.
    repeat destruct (Rlt_dec _ _); lra.
Qed.

Lemma mean_hue_sym (h1 h2 : R) : mean_hue h2 h1 = mean_hue h1 h2.
Proof.
  unfold mean_hue. cbv zeta.
  rewrite <- (Rabs_Ropp (h1 - h2)). replace (- (h1 - h2)) with (h2 - h1) by ring.
  rewrite (Rplus_comm h2 h1). reflexivity.
Qed.

Lemma delta_hue_bound (h1 h2 : R) :
  0 <= h1 < 360 -> 0 <= h2 < 360 -> -180 <= delta_hue h1 h2 <= 180.
Proof.
  intros H1 H2. unfold delta_hue. cbv zeta.
  destruct (Rlt_dec 180 (Rabs (h2 - h1))) as [Ha|Ha].
  - destruct (Rlt_dec h1 h2).
    + rewrite Rabs_right in Ha by lra. lra.
    + rewrite Rabs_left1 in Ha by lra. lra.
  - destruct (Rle_or_lt h1 h2).
    + rewrite Rabs_right in Ha by lra. lra.
    + rewrite Rabs_left1 in Ha by lra. lra.
Qed.

Lemma delta_hue_zero (h1 h2 : R) :
  0 <= h1 < 360 -> 0 <= h2 < 360 -> delta_hue h1 h2 = 0 -> h1 = h2.
Proof.
  intros H1 H2. unfold delta_hue. cbv zeta.
  destruct (Rlt_dec 180 (Rabs (h2 - h1))); [destruct (Rlt_dec h1 h2)|]; lra.
Qed.

Lemma delta_hue_refl (h : R) : delta_hue h h = 0.
Proof.
  unfold delta_hue. cbv zeta. rewrite Rminus_diag, Rabs_R0.
  destruct (Rlt_dec 180 0); [lra|reflexivity].
Qed.

(** A sine of an angle in [[-PI/2, PI/2]] vanishes only at 0. *)
Lemma sin_zero_small (x : R) : - (PI / 2) <= x <= PI / 2 -> sin x = 0 -> x = 0.
Proof.
  intros [Hx1 Hx2] Hs. pose proof PI_RGT_0.
  destruct (Rtotal_order x 0) as [Hn|[He|Hp]]; [|exact He|].
  - assert (sin x < 0) by (apply sin_lt_0_var; lra). lra.
  - assert (0 < sin x) by (apply sin_gt_0; lra). lra.
Qed.

Lemma chroma_nonneg (x y : R) : 0 <= chroma x y.
Proof. apply sqrt_pos. Qed.

Lemma chroma_ratio (x y : R) :
  x <> 0 -> chroma x y = Rabs x * sqrt (1 + (y / x)²).
Proof.
  intro Hx. unfold chroma.
  replace (x * x + y * y) with (x² * (1 + (y / x)²)) by (unfold Rsqr; field; exact Hx).
  rewrite sqrt_mult; [|apply Rle_0_sqr|pose proof (Rle_0_sqr (y / x)); lra].
  rewrite sqrt_Rsqr_abs. reflexivity.
Qed.

(** [(x, y)] is recovered from its chroma and its [atan2] angle. *)
Lemma atan2_polar (x y : R) :
  x = chroma x y * cos (atan2 y x) /\ y = chroma x y * sin (atan2 y x).
Proof.
  unfold atan2.
  destruct (Rlt_dec 0 x) as [Hx|Hx].
  - rewrite chroma_ratio by lra. rewrite Rabs_right by lra.
    rewrite cos_atan, sin_atan.
    assert (0 < sqrt (1 + (y / x)²))
      by (apply sqrt_lt_R0; pose proof (Rle_0_sqr (y / x)); lra).
    split; field; lra.
  - destruct (Rlt_dec x 0) as [Hx'|Hx'].
    + rewrite chroma_ratio by lra. rewrite Rabs_left by lra.
      assert (0 < sqrt (1 + (y / x)²))
        by (apply sqrt_lt_R0; pose proof (Rle_0_sqr (y / x)); lra).
      destruct (Rle_dec 0 y).
      * rewrite cos_plus, sin_plus, cos_PI, sin_PI, cos_atan, sin_atan.
        split; field; lra.
      * rewrite cos_minus, sin_minus, cos_PI, sin_PI, cos_atan, sin_atan.
        split; field; lra.
    + assert (x = 0) by lra. subst x. unfold chroma.
      replace (0 * 0 + y * y) with (y * y) by ring.
      destruct (Rlt_dec 0 y).
      * rewrite sqrt_square by lra. rewrite cos_PI2, sin_PI2. split; ring.
      * destruct (Rlt_dec y 0).
        -- replace (y * y) with (- y * - y) by ring.
           rewrite sqrt_square by lra. rewrite cos_neg, sin_neg, cos_PI2, sin_PI2.
           split; ring.
        -- assert (y = 0) by lra. subst y. rewrite Rmult_0_l, sqrt_0. split; ring.
Qed.

(** [atan2] lies in [(-PI, PI]]. *)
Lemma atan2_bound (y x : R) : - PI < atan2 y x <= PI.
Proof.
  pose proof PI_RGT_0. unfold atan2.
  destruct (Rlt_dec 0 x).
  - pose proof (atan_bound (y / x)). lra.
  - destruct (Rlt_dec x 0).
    + pose proof (atan_bound (y / x)).
      destruct (Rle_dec 0 y).
      * assert (atan (y / x) <= 0).
        { rewrite <- atan_0. destruct (Req_dec y 0) as [->|Hy].
          - unfold Rdiv. rewrite Rmult_0_l. lra.
          - left. apply atan_increasing.
            assert (0 < y / - x) by (apply Rdiv_lt_0_compat; lra).
            replace (y / x) with (- (y / - x)) by (field; lra). lra. }
        lra.
      * assert (0 < atan (y / x)).
        { rewrite <- atan_0. apply atan_increasing.
          replace (y / x) with (- y / - x) by (field; lra).
          apply Rdiv_lt_0_compat; lra. }
        lra.
    + repeat destruct (Rlt_dec _ _); lra.
Qed.

Lemma hue_deg_range (b ap : R) : 0 <= hue_deg b ap < 360.
Proof.
  pose proof PI_RGT_0. pose proof (atan2_bound b ap) as [H1 H2].
  assert (-180 < atan2 b ap * 180 / PI <= 180).
  { split.
    - apply Rmult_lt_reg_r with (/ 180 * PI); [apply Rmult_lt_0_compat; lra|].
      replace (atan2 b ap * 180 / PI * (/ 180 * PI)) with (atan2 b ap) by (field; lra).
      lra.
    - apply Rmult_le_reg_r with (/ 180 * PI); [apply Rmult_lt_0_compat; lra|].
      replace (atan2 b ap * 180 / PI * (/ 180 * PI)) with (atan2 b ap) by (field; lra).
      lra. }
  unfold hue_deg. cbv zeta. destruct (Rlt_dec _ 0); lra.
Qed.

(** Equal [hue_deg] angles come from equal [atan2] angles. *)
Lemma hue_deg_inj (b1 a1 b2 a2 : R) :
  hue_deg b1 a1 = hue_deg b2 a2 -> atan2 b1 a1 = atan2 b2 a2.
Proof.
  pose proof PI_RGT_0.
  assert (B : forall b a, -180 < atan2 b a * 180 / PI <= 180).
  { intros b a. pose proof (atan2_bound b a) as [H1 H2]. split.
    - apply Rmult_lt_reg_r with (/ 180 * PI); [apply Rmult_lt_0_compat; lra|].
      replace (atan2 b a * 180 / PI * (/ 180 * PI)) with (atan2 b a) by (field; lra).
      lra.
    - apply Rmult_le_reg_r with (/ 180 * PI); [apply Rmult_lt_0_compat; lra|].
      replace (atan2 b a * 180 / PI * (/ 180 * PI)) with (atan2 b a) by (field; lra).
      lra. }
  pose proof (B b1 a1). pose proof (B b2 a2).
  unfold hue_deg. cbv zeta. intro E.
  assert (E' : atan2 b1 a1 * 180 / PI = atan2 b2 a2 * 180 / PI)
    by (repeat destruct (Rlt_dec _ 0); lra).
  replace (atan2 b1 a1) with (atan2 b1 a1 * 180 / PI * (PI / 180)) by (field; lra).
  rewrite E'. field. lra.
Qed.

Lemma factorG_nonneg (m : R) : 0 <= m -> 0 <= factorG m.
Proof.
  intro Hm. destruct (factor_sqrt_lt_1 m Hm). unfold factorG. lra.
Qed.

Lemma calculateDeltaE_radicand_nonneg (lab1 lab2 : LAB) :
  0 <= calculateDeltaE_radicand lab1 lab2.
Proof.
  destruct lab1 as [[L1 a1] b1], lab2 as [[L2 a2] b2].
  cbv beta iota zeta delta [calculateDeltaE_radicand].
  apply deltaE_radicand_nonneg.
  pose proof (chroma_nonneg (a1 * (1 + factorG ((chroma a1 b1 + chroma a2 b2) / 2))) b1).
  pose proof (chroma_nonneg (a2 * (1 + factorG ((chroma a1 b1 + chroma a2 b2) / 2))) b2).
  lra.
Qed.

Lemma calculateDeltaE_radicand_sym (lab1 lab2 : LAB) :
  calculateDeltaE_radicand lab2 lab1 = calculateDeltaE_radicand lab1 lab2.
Proof.
  destruct lab1 as [[L1 a1] b1], lab2 as [[L2 a2] b2].
  cbv beta iota zeta delta [calculateDeltaE_radicand].
  rewrite (Rplus_comm (chroma a2 b2) (chroma a1 b1)).
  set (G := factorG ((chroma a1 b1 + chroma a2 b2) / 2)).
  set (C1p := chroma (a1 * (1 + G)) b1).
  set (C2p := chroma (a2 * (1 + G)) b2).
  set (h1p := hue_deg b1 (a1 * (1 + G))).
  set (h2p := hue_deg b2 (a2 * (1 + G))).
  rewrite delta_hue_antisym, mean_hue_sym, (Rplus_comm L2 L1), (Rplus_comm C2p C1p),
    (Rmult_comm C2p C1p).
  replace (L1 - L2) with (- (L2 - L1)) by ring.
  replace (C1p - C2p) with (- (C2p - C1p)) by ring.
  replace (2 * sqrt (C1p * C2p) * sin (- delta_hue h1p h2p * PI / 360))
    with (- (2 * sqrt (C1p * C2p) * sin (delta_hue h1p h2p * PI / 360))).
  2: { replace (- delta_hue h1p h2p * PI / 360) with (- (delta_hue h1p h2p * PI / 360))
         by field.
       rewrite sin_neg. ring. }
  apply deltaE_radicand_opp.
Qed.

Lemma calculateDeltaE_radicand_refl (lab : LAB) : calculateDeltaE_radicand lab lab = 0.
Proof.
  destruct lab as [[L a] b].
  cbv beta iota zeta delta [calculateDeltaE_radicand].
  rewrite !Rminus_diag, delta_hue_refl.
  replace (0 * PI / 360) with 0 by field. rewrite sin_0, Rmult_0_r.
  apply deltaE_radicand_0.
Qed.

Lemma calculateDeltaE_radicand_zero (lab1 lab2 : LAB) :
  calculateDeltaE_radicand lab1 lab2 = 0 -> lab1 = lab2.
Proof.
  destruct lab1 as [[L1 a1] b1], lab2 as [[L2 a2] b2].
  cbv beta iota zeta delta [calculateDeltaE_radicand].
  set (G := factorG ((chroma a1 b1 + chroma a2 b2) / 2)).
  assert (HG : 0 <= G).
  { apply factorG_nonneg. pose proof (chroma_nonneg a1 b1).
    pose proof (chroma_nonneg a2 b2). lra. }
  pose proof (atan2_polar (a1 * (1 + G)) b1) as [P1 Q1].
  pose proof (atan2_polar (a2 * (1 + G)) b2) as [P2 Q2].
  pose proof (hue_deg_range b1 (a1 * (1 + G))) as R1.
  pose proof (hue_deg_range b2 (a2 * (1 + G))) as R2.
  pose proof (chroma_nonneg (a1 * (1 + G)) b1) as N1.
  pose proof (chroma_nonneg (a2 * (1 + G)) b2) as N2.
  set (C1p := chroma (a1 * (1 + G)) b1) in *.
  set (C2p := chroma (a2 * (1 + G)) b2) in *.
  set (h1p := hue_deg b1 (a1 * (1 + G))) in *.
  set (h2p := hue_deg b2 (a2 * (1 + G))) in *.
  intro H. apply deltaE_radicand_zero_inv in H; [|lra].
  destruct H as (HL & HC & HH).
  assert (EC : C2p = C1p) by lra. rewrite EC in HH, P2, Q2.
  rewrite sqrt_square in HH by exact N1.
  assert (E : a1 * (1 + G) = a2 * (1 + G) /\ b1 = b2).
  { destruct (Rmult_integral _ _ HH) as [H0|H0].
    - assert (Z1 : C1p = 0) by lra.
      split; [rewrite P1, P2 | rewrite Q1, Q2]; rewrite Z1; ring.
    - pose proof (delta_hue_bound h1p h2p R1 R2) as D. pose proof PI_RGT_0.
      apply sin_zero_small in H0.
      2: { assert (0 <= (delta_hue h1p h2p + 180) * PI / 360)
             by (unfold Rdiv; apply Rmult_le_pos; [apply Rmult_le_pos|]; lra).
           assert (0 <= (180 - delta_hue h1p h2p) * PI / 360)
             by (unfold Rdiv; apply Rmult_le_pos; [apply Rmult_le_pos|]; lra).
           lra. }
      assert (Hd : delta_hue h1p h2p = 0).
      { replace (delta_hue h1p h2p) with (delta_hue h1p h2p * PI / 360 * (360 / PI))
          by (field; lra).
        rewrite H0. ring. }
      apply delta_hue_zero in Hd; [|exact R1|exact R2].
      apply hue_deg_inj in Hd.
      split; [rewrite P1, P2 | rewrite Q1, Q2]; rewrite Hd; reflexivity. }
  destruct E as [Ea Eb].
  apply Rmult_eq_reg_r in Ea; [|lra].
  replace L2 with L1 by lra. rewrite Ea, Eb. reflexivity.
Qed.

End DeltaEFacts.

(** ** The CIEDE2000 distance (C8) *)

Import DeltaE DeltaEFacts.

(** C8: for all LAB values [lab1] and [lab2], [calculateDeltaE lab1 lab2]
    is non-negative, symmetric in its two arguments, and zero exactly when
    [lab1 = lab2]; in particular [calculateDeltaE lab lab = 0]. *)
Theorem calculateDeltaE_metric_laws (lab1 lab2 : LAB) :
  (0 <= calculateDeltaE lab1 lab2)%R /\
  calculateDeltaE lab1 lab2 = calculateDeltaE lab2 lab1 /\
  (calculateDeltaE lab1 lab2 = 0%R <-> lab1 = lab2) /\
  calculateDeltaE lab1 lab1 = 0%R.
Proof.
  unfold calculateDeltaE.
  split; [apply sqrt_pos|].
  split; [rewrite (calculateDeltaE_radicand_sym lab1 lab2); reflexivity|].
  split; [split|].
  - intro H. apply calculateDeltaE_radicand_zero.
    apply sqrt_eq_0; [apply calculateDeltaE_radicand_nonneg | exact H].
  - intros <-. rewrite calculateDeltaE_radicand_refl. apply sqrt_0.
  - rewrite calculateDeltaE_radicand_refl. apply sqrt_0.
Qed.

(** ** Further properties of the colour utilities and the WCAG checks *)

Module RgbRangeFacts.

Import JsNumFacts.
Local Open Scope Q_scope.

Ltac qsplit_ifs :=
  repeat match goal with
  | |- context [qlt ?a ?b] =>
      let E := fresh "E" in destruct (qlt a b) eqn:E; qconv
  end.

(** [hue2rgb] stays in [[0, 1]] for [p], [q] in [[0, 1]] and an offset
    within one period of [[0, 1]]. *)
Lemma hue2rgb_unit (p q t0 : Q) :
  0 <= p <= 1 -> 0 <= q <= 1 -> -1 <= t0 <= 2 -> 0 <= hue2rgb p q t0 <= 1.
Proof.
  intros Hp Hq Ht. unfold hue2rgb. cbv zeta. qsplit_ifs; nra.
Qed.

Lemma js_round_255 (x : Q) : 0 <= x <= 1 -> (0 <= js_round (x * 255) <= 255)%Z.
Proof.
  intros [H0 H1]. apply js_round_bounds. change (inject_Z 0) with 0.
  change (inject_Z 255) with 255. split; nra.
Qed.

(** In-range HSL colours convert to valid RGB triples. *)
Lemma hslToRgb_valid (h s l : Q) :
  0 <= h <= 360 -> 0 <= s <= 100 -> 0 <= l <= 100 ->
  ContrastFacts.valid_rgb (hslToRgb (h, s, l)).
Proof.
  intros Hh Hs Hl. unfold hslToRgb.
  assert (Hh' : 0 <= h / 360 <= 1).
  { split; [apply Qle_shift_div_l; lra | apply Qle_shift_div_r; lra]. }
  assert (Hs' : 0 <= s / 100 <= 1).
  { split; [apply Qle_shift_div_l; lra | apply Qle_shift_div_r; lra]. }
  assert (Hl' : 0 <= l / 100 <= 1).
  { split; [apply Qle_shift_div_l; lra | apply Qle_shift_div_r; lra]. }
  set (h1 := h / 360) in *. set (s1 := s / 100) in *. set (l1 := l / 100) in *.
  destruct (qeq s1 0).
  - simpl. pose proof (js_round_255 l1 Hl'). lia.
  - assert (Hpq : 0 <= (if qlt l1 (1 # 2) then l1 * (1 + s1) else l1 + s1 - l1 * s1) <= 1 /\
                  0 <= 2 * l1 - (if qlt l1 (1 # 2) then l1 * (1 + s1) else l1 + s1 - l1 * s1) <= 1).
    { qsplit_ifs; split; nra. }
    set (q := if qlt l1 (1 # 2) then l1 * (1 + s1) else l1 + s1 - l1 * s1) in *.
    destruct Hpq as [Hq Hp].
    simpl. split; [|split]; apply js_round_255; apply hue2rgb_unit; auto; lra.
Qed.

End RgbRangeFacts.

Module WcagFacts.

Import Contrast ContrastFacts WcagChecks.
Local Open Scope R_scope.

Lemma le_div (a b y : R) : 0 < y -> a * y <= b -> a <= b / y.
Proof.
  intros Hy H. apply Rmult_le_reg_r with y; [exact Hy|].
  unfold Rdiv. rewrite Rmult_assoc, Rinv_l, Rmult_1_r by lra. exact H.
Qed.

Lemma div_le (a b y : R) : 0 < y -> b <= a * y -> b / y <= a.
Proof.
  intros Hy H. apply Rmult_le_reg_r with y; [exact Hy|].
  unfold Rdiv. rewrite Rmult_assoc, Rinv_l, Rmult_1_r by lra. exact H.
Qed.

Lemma ratio_round_ge (x : R) : 450 <= x <= 2100 -> 4.5 <= IZR (js_roundR x) / 100.
Proof.
  intro H. assert (B : (450 <= js_roundR x <= 2100)%Z) by (apply js_roundR_bounds; exact H).
  destruct B as [B _]. apply IZR_le in B. unfold_decimals. lra.
Qed.

(** Against black or against white, every valid colour reaches 4.5. *)
Lemma black_or_white_45 (c : RGB) :
  valid_rgb c -> 4.5 <= getContrastRatio c blackRgb \/ 4.5 <= getContrastRatio c whiteRgb.
Proof.
  intro Hc. pose proof (calculateLuminance_range c Hc) as [L0 L1].
  unfold getContrastRatio. cbv zeta. rewrite luminance_black, luminance_white.
  set (L := calculateLuminance c) in *.
  destruct (Rle_dec 0.175 L) as [H|H].
  - left. rewrite Rmax_left, Rmin_right by lra. apply ratio_round_ge.
    replace ((L + 0.05) / (0 + 0.05) * 100) with ((L + 0.05) * 2000)
      by (unfold_decimals; field). unfold_decimals. lra.
  - right. rewrite Rmax_right, Rmin_left by lra. apply ratio_round_ge.
    assert (Hy : 0 < L + 0.05) by (unfold_decimals; lra).
    replace ((1 + 0.05) / (L + 0.05) * 100) with (105 / (L + 0.05)) by (unfold_decimals; field; lra).
    split; [apply le_div | apply div_le]; unfold_decimals; lra.
Qed.

Lemma one_side_passes (c : RGB) :
  valid_rgb c ->
  passesNormal (black (getContrastInfo c)) = true \/
  passesNormal (white (getContrastInfo c)) = true.
Proof.
  intro Hc. unfold getContrastInfo, side_of. cbn [passesNormal black white].
  destruct (black_or_white_45 c Hc) as [H|H]; [left|right];
    unfold Rgeb; destruct (Rle_dec _ _); auto; contradiction.
Qed.

Lemma channel_lin_pos (v : Z) : (0 < v <= 255)%Z -> 0 < channel_lin v.
Proof.
  intros [H0 H1]. apply IZR_lt in H0. unfold channel_lin.
  destruct (Rle_dec _ _).
  - unfold Rdiv. apply Rmult_lt_0_compat; [apply Rmult_lt_0_compat|]; 
      try lra; apply Rinv_0_lt_compat; unfold_decimals; lra.
  - unfold Rpower. apply exp_pos.
Qed.

(** A valid colour has luminance 0 only when it is black. *)
Lemma luminance_zero (c : RGB) : valid_rgb c -> calculateLuminance c = 0 -> c = blackRgb.
Proof.
  destruct c as [[r g] b0]. simpl. intros (Hr & Hg & Hb) H.
  assert (Z : forall v, (0 <= v <= 255)%Z -> 0 <= channel_lin v /\ (channel_lin v = 0 -> v = 0%Z)).
  { intros v Hv. split; [apply channel_lin_range; exact Hv|].
    intro E. destruct (Z.eq_dec v 0) as [->|Hn]; [reflexivity|].
    assert (0 < channel_lin v) by (apply channel_lin_pos; lia). lra. }
  destruct (Z r Hr) as [Pr Er]. destruct (Z g Hg) as [Pg Eg]. destruct (Z b0 Hb) as [Pb Eb].
  unfold_decimals.
  assert (channel_lin r = 0) by lra. assert (channel_lin g = 0) by lra.
  assert (channel_lin b0 = 0) by lra.
  unfold blackRgb. rewrite Er, Eg, Eb by assumption. reflexivity.
Qed.

End WcagFacts.

(** ** Properties of the colour conversions and the WCAG helpers *)

Import Contrast ContrastFacts WcagChecks WcagFacts RgbRangeFacts.

(** [hslToRgb] maps every colour with hue in [[0, 360]] and saturation
    and lightness in [[0, 100]] to RGB channels in [[0, 255]]. *)
Theorem hslToRgb_channels_in_range (h s l : Q) :
  (0 <= h <= 360)%Q -> (0 <= s <= 100)%Q -> (0 <= l <= 100)%Q ->
  valid_rgb (hslToRgb (h, s, l)).
Proof. intros Hh Hs Hl. apply hslToRgb_valid; assumption. Qed.

Lemma hslToRgb_channels_in_range_witness :
  valid_rgb (hslToRgb (360, 100, 100)%Q).
Proof. apply hslToRgb_channels_in_range; lra. Defined.

(** For every valid background, the text colour [getContrastInfo]
    prefers passes the AA normal-text threshold 4.5. *)
Theorem getContrastInfo_preferred_passes (c : RGB) :
  valid_rgb c ->
  passesNormal (if String.eqb (preferredText (getContrastInfo c)) "#000000"
                then black (getContrastInfo c) else white (getContrastInfo c)) = true.
Proof.
  intro Hc. pose proof (black_or_white_45 c Hc) as H.
  unfold getContrastInfo, side_of. cbn [preferredText black white passesNormal].
  destruct (Rlt_dec _ _) as [Hlt|Hge]; simpl; apply Rgeb_true; destruct H; lra.
Qed.

Lemma getContrastInfo_preferred_passes_witness :
  passesNormal (if String.eqb (preferredText (getContrastInfo (55, 147, 200)%Z)) "#000000"
                then black (getContrastInfo (55, 147, 200)%Z)
                else white (getContrastInfo (55, 147, 200)%Z)) = true.
Proof. apply getContrastInfo_preferred_passes. simpl. lia. Defined.

(** With text colour ['both'] and a target ratio of at most 4.5 (the
    defaults), [findAccessibleColor] returns every in-range colour
    unchanged: the better of its black and white ratios is always 4.5 or
    more. *)
Theorem findAccessibleColor_in_range_unchanged (h s l : Q) (o : FindOptions) :
  (0 <= h <= 360)%Q -> (0 <= s <= 100)%Q -> (0 <= l <= 100)%Q ->
  textColor o = "both"%string -> (targetRatio o <= 4.5)%R ->
  findAccessibleColor (h, s, l) o = (h, s, l).
Proof.
  intros Hh Hs Hl Ht Hr. apply findAccessibleColor_early.
  rewrite Ht. unfold calculateAccessibilityScore. cbn zeta. simpl String.eqb. cbv iota.
  pose proof (black_or_white_45 _ (hslToRgb_valid h s l Hh Hs Hl)) as H.
  apply Rgeb_true.
  destruct H as [H|H]; eapply Rle_trans; try exact Hr;
    eapply Rle_trans; try exact H; [apply Rmax_l | apply Rmax_r].
Qed.

Lemma findAccessibleColor_in_range_unchanged_witness :
  findAccessibleColor (202, 57, 50)%Q defaultFindOptions = (202, 57, 50)%Q.
Proof.
  apply findAccessibleColor_in_range_unchanged; try lra; reflexivity.
Defined.

(** [validateColorScaleAccessibility] never reports a problem for a scale
    whose RGB values are valid: every such colour passes AA normal text
    against black or against white, so the scale is [overallAccessible]
    with no problematic colours and no recommendations. *)
Theorem validateColorScaleAccessibility_valid_scale (colorScale : list Swatch) :
  Forall (fun sw => valid_rgb (Swatch.rgb sw)) colorScale ->
  validateColorScaleAccessibility colorScale = mkAccessibilityValidation true [] [].
Proof.
  intro Hall. unfold validateColorScaleAccessibility.
  match goal with |- context [fold_left ?f _ _] => set (step := f) end.
  assert (E : fold_left step colorScale (true, []) = (true, [])).
  { induction Hall as [|sw rest Hsw Hrest IH]; [reflexivity|].
    cbn [fold_left].
    assert (S : step (true, []) sw = (true, [])).
    { unfold step. destruct (one_side_passes _ Hsw) as [P|P]; rewrite P;
        [reflexivity | rewrite andb_false_r; reflexivity]. }
    rewrite S. exact IH. }
  rewrite E. reflexivity.
Qed.

Lemma validateColorScaleAccessibility_valid_scale_witness :
  validateColorScaleAccessibility
    [colorObject 400 (210, 60, 50)%Q "" true None false] =
  mkAccessibilityValidation true [] [].
Proof.
  apply validateColorScaleAccessibility_valid_scale.
  constructor; [|constructor].
  lazy [Swatch.rgb colorObject]. apply hslToRgb_valid; lra.
Defined.

(** The WCAG checks are ordered: passing AAA implies passing AA for the
    same text size, and passing a check for normal text implies passing
    it for large text. *)
Theorem passesContrastCheck_order (bgRgb textRgb : RGB) (isLargeText : bool) :
  (passesContrastCheckAAA bgRgb textRgb isLargeText = true ->
   passesContrastCheck bgRgb textRgb isLargeText = true) /\
  (passesContrastCheck bgRgb textRgb false = true ->
   passesContrastCheck bgRgb textRgb true = true) /\
  (passesContrastCheckAAA bgRgb textRgb false = true ->
   passesContrastCheckAAA bgRgb textRgb true = true).
Proof.
  unfold passesContrastCheck, passesContrastCheckAAA. cbv zeta.
  rewrite !Rgeb_true_iff.
  split; [|split]; [destruct isLargeText|..]; intro H; unfold_decimals; lra.
Qed.

(** [getAccessibilityLevel] of a contrast ratio agrees with the checks on
    that ratio: it is ['Fail'] exactly when the large-text AA check
    fails, ['AA'] or ['AAA'] exactly when the normal-text AA check passes,
    and ['AAA'] exactly when the normal-text AAA check passes. *)
Theorem getAccessibilityLevel_checks (bgRgb textRgb : RGB) :
  let lvl := levelName (getAccessibilityLevel (getContrastRatio bgRgb textRgb)) in
  (lvl = "Fail"%string <-> passesContrastCheck bgRgb textRgb true = false) /\
  ((lvl = "AA"%string \/ lvl = "AAA"%string) <->
     passesContrastCheck bgRgb textRgb false = true) /\
  (lvl = "AAA"%string <-> passesContrastCheckAAA bgRgb textRgb false = true).
Proof.
  unfold getAccessibilityLevel, passesContrastCheck, passesContrastCheckAAA. cbv zeta.
  set (r := getContrastRatio bgRgb textRgb).
  unfold Rgeb.
  destruct (Rle_dec 7.0 r); [|destruct (Rle_dec 4.5 r); [|destruct (Rle_dec 3.0 r)]];
    cbn [levelName];
    repeat destruct (Rle_dec _ _); unfold_decimals;
    repeat split; intro H; try discriminate; try lra;
    try (destruct H as [H|H]; discriminate); auto.
Qed.

Lemma apca_ratio_bounds (M m : R) :
  (0 < M -> 0 <= m <= M -> 0 <= (M - m) / M * 100 <= 100)%R.
Proof.
  intros HM Hm. set (x := ((M - m) / M)%R).
  assert (E : (x * M = M - m)%R) by (unfold x; field; lra).
  split; nra.
Qed.

(** For valid RGB values, [calculateAPCAContrast] is non-finite exactly
    when both colours are black, and otherwise an integer in [0, 100]. *)
Theorem calculateAPCAContrast_valid (bgRgb textRgb : RGB) :
  valid_rgb bgRgb -> valid_rgb textRgb ->
  (calculateAPCAContrast bgRgb textRgb = None <->
     bgRgb = blackRgb /\ textRgb = blackRgb) /\
  (forall z, calculateAPCAContrast bgRgb textRgb = Some z -> (0 <= z <= 100)%Z).
Proof.
  intros Hb Ht.
  pose proof (calculateLuminance_range _ Hb) as Rb.
  pose proof (calculateLuminance_range _ Ht) as Rt.
  unfold calculateAPCAContrast. cbv zeta.
  set (L1 := calculateLuminance bgRgb) in *.
  set (L2 := calculateLuminance textRgb) in *.
  pose proof (Rmax_l L1 L2). pose proof (Rmax_r L1 L2).
  pose proof (Rmin_l L1 L2). pose proof (Rmin_r L1 L2).
  assert (Hmin : (0 <= Rmin L1 L2)%R) by (apply Rmin_glb; lra).
  destruct (Req_EM_T (Rmax L1 L2) 0) as [E|E].
  - split; [|intros z Hz; discriminate]. split; [intros _|intros; reflexivity].
    split; [apply luminance_zero; [exact Hb|] | apply luminance_zero; [exact Ht|]];
      unfold L1, L2 in *; lra.
  - split.
    + split; [intro Hn; discriminate|]. intros [-> ->].
      exfalso. apply E. unfold L1, L2. rewrite luminance_black. apply Rmax_left. lra.
    + intros z Hz. injection Hz as <-. apply js_roundR_bounds.
      apply apca_ratio_bounds; lra.
Qed.

Lemma calculateAPCAContrast_valid_witness :
  valid_rgb (0, 0, 0) /\ valid_rgb (255, 255, 255) /\
  (calculateAPCAContrast (0, 0, 0) (255, 255, 255) = None <->
     (0, 0, 0) = blackRgb /\ (255, 255, 255) = blackRgb) /\
  (forall z, calculateAPCAContrast (0, 0, 0) (255, 255, 255) = Some z ->
     (0 <= z <= 100)%Z).
Proof.
  assert (V1 : valid_rgb (0, 0, 0)) by (simpl; lia).
  assert (V2 : valid_rgb (255, 255, 255)) by (simpl; lia).
  split; [exact V1|]. split; [exact V2|].
  apply calculateAPCAContrast_valid; assumption.
Defined.

Lemma hueDiff_range (h1 h2 : Q) :
  (0 <= h1 <= 360)%Q -> (0 <= h2 <= 360)%Q ->
  (0 <= (if qlt 180 (Qabs (h1 - h2)) then 360 - Qabs (h1 - h2) else Qabs (h1 - h2)) <= 180)%Q.
Proof.
  intros H1 H2.
  assert (A : (0 <= Qabs (h1 - h2) <= 360)%Q)
    by (apply Qabs_case; intros; split; lra).
  set (d := Qabs (h1 - h2)) in *. qsplit_ifs; split; lra.
Qed.

(** The weighted distance of js/accessibility.js is symmetric, and for two
    colours in the HSL ranges it lies in [0, 100]: the hue term is at most
    60, the saturation term at most 25 and the lightness term at most 15. *)
Theorem accessibility_calculateColorDistance_props (c1 c2 : HSL) :
  (WcagChecks.calculateColorDistance c1 c2 == WcagChecks.calculateColorDistance c2 c1)%Q /\
  (hsl_in_range c1 -> hsl_in_range c2 ->
   0 <= WcagChecks.calculateColorDistance c1 c2 <= 100)%Q.
Proof.
  destruct c1 as [[h1 s1] l1], c2 as [[h2 s2] l2].
  unfold WcagChecks.calculateColorDistance. split.
  - rewrite (Qabs_Qminus h1 h2), (Qabs_Qminus s1 s2), (Qabs_Qminus l1 l2).
    reflexivity.
  - unfold hsl_in_range. intros (Hh1 & Hs1 & Hl1) (Hh2 & Hs2 & Hl2).
    unfold hsl_h, hsl_s, hsl_l in *; cbn [fst snd] in *.
    pose proof (hueDiff_range h1 h2 ltac:(split; lra) ltac:(split; lra)) as HD.
    assert (S : (0 <= Qabs (s1 - s2) <= 100)%Q)
      by (apply Qabs_case; intros; split; lra).
    assert (L : (0 <= Qabs (l1 - l2) <= 100)%Q)
      by (apply Qabs_case; intros; split; lra).
    set (hd := if qlt 180 (Qabs (h1 - h2)) then _ else _) in *.
    set (sd := Qabs (s1 - s2)) in *. set (ld := Qabs (l1 - l2)) in *.
    unfold Qdiv. change (/ 180)%Q with (1 # 180)%Q. change (/ 100)%Q with (1 # 100)%Q.
    split; lra.
Qed.

Lemma accessibility_calculateColorDistance_props_witness :
  hsl_in_range (10, 20, 30)%Q /\ hsl_in_range (350, 90, 80)%Q /\
  (0 <= WcagChecks.calculateColorDistance (10, 20, 30) (350, 90, 80) <= 100)%Q.
Proof.
  assert (A : hsl_in_range (10, 20, 30)%Q) by (unfold hsl_in_range, hsl_h, hsl_s, hsl_l; cbn [fst snd]; repeat split; lra).
  assert (B : hsl_in_range (350, 90, 80)%Q) by (unfold hsl_in_range, hsl_h, hsl_s, hsl_l; cbn [fst snd]; repeat split; lra).
  split; [exact A|]. split; [exact B|].
  apply (accessibility_calculateColorDistance_props _ _); assumption.
Defined.

Module HexFacts.

Import HexParse.

Lemma hex_value_range (c : ascii) : 0 <= hex_value c <= 15.
Proof.
  unfold hex_value.
  destruct ((48 <=? nat_of_ascii c) && (nat_of_ascii c <=? 57))%nat eqn:E1;
    [apply andb_true_iff in E1; rewrite !Nat.leb_le in E1; lia|].
  destruct ((65 <=? nat_of_ascii c) && (nat_of_ascii c <=? 70))%nat eqn:E2;
    [apply andb_true_iff in E2; rewrite !Nat.leb_le in E2; lia|].
  destruct ((97 <=? nat_of_ascii c) && (nat_of_ascii c <=? 102))%nat eqn:E3;
    [apply andb_true_iff in E3; rewrite !Nat.leb_le in E3; lia|].
  lia.
Qed.

Lemma parse_pair_range (a b : ascii) : 0 <= parse_pair a b <= 255.
Proof.
  unfold parse_pair. pose proof (hex_value_range a). pose proof (hex_value_range b). lia.
Qed.

(** The two characters [toHex] prints for a channel, checked on all 256
    channel values. *)
Definition toHex_ok (v : Z) : bool :=
  match toHex v with
  | String a1 (String a2 EmptyString) =>
      is_hex_digit (ascii_toUpper a1) && is_hex_digit (ascii_toUpper a2) &&
      (parse_pair (ascii_toUpper a1) (ascii_toUpper a2) =? v)
  | _ => false
  end.

Lemma toHex_ok_all : forallb toHex_ok (map Z.of_nat (seq 0 256)) = true.
Proof. vm_compute. reflexivity. Qed.

Lemma toHex_chars (v : Z) :
  0 <= v <= 255 ->
  exists a1 a2, toHex v = String a1 (String a2 EmptyString) /\
    is_hex_digit (ascii_toUpper a1) = true /\
    is_hex_digit (ascii_toUpper a2) = true /\
    parse_pair (ascii_toUpper a1) (ascii_toUpper a2) = v.
Proof.
  intro H.
  assert (T : toHex_ok v = true).
  { pose proof toHex_ok_all as A. rewrite forallb_forall in A. apply A.
    apply in_map_iff. exists (Z.to_nat v). split; [lia|].
    apply in_seq. lia. }
  unfold toHex_ok in T.
  destruct (toHex v) as [|a1 [|a2 [|a3 r]]]; try discriminate.
  exists a1, a2. rewrite !andb_true_iff, Z.eqb_eq in T. tauto.
Qed.

Lemma length_toUpperCase (s : string) : String.length (toUpperCase s) = String.length s.
Proof. induction s; simpl; congruence. Qed.

Lemma length_double_chars (s : string) :
  String.length (double_chars s) = (2 * String.length s)%nat.
Proof. induction s; simpl; [reflexivity|]. rewrite IHs. lia. Qed.

Lemma ascii_toUpper_idem (c : ascii) : ascii_toUpper (ascii_toUpper c) = ascii_toUpper c.
Proof. destruct c as [[] [] [] [] [] [] [] []]; reflexivity. Qed.

Lemma toUpperCase_idem (s : string) : toUpperCase (toUpperCase s) = toUpperCase s.
Proof. induction s; simpl; [reflexivity|]. rewrite ascii_toUpper_idem, IHs. reflexivity. Qed.

Lemma normalizeHex_nonempty (s : string) :
  s <> EmptyString ->
  normalizeHex s =
  String "#"%char (toUpperCase
    (if (String.length (replace_first_hash s) =? 3)%nat
     then double_chars (replace_first_hash s) else replace_first_hash s)).
Proof. destruct s; [congruence|reflexivity]. Qed.

(** Whatever [normalizeHex] returns is empty or [#] followed by a body
    whose length is not 3. *)
Lemma normalizeHex_shape (s : string) :
  normalizeHex s = EmptyString \/
  exists t, normalizeHex s = String "#"%char t /\ String.length t <> 3%nat.
Proof.
  destruct s as [|c r]; [left; reflexivity|right].
  rewrite normalizeHex_nonempty by discriminate.
  eexists; split; [reflexivity|]. rewrite length_toUpperCase.
  destruct (String.length (replace_first_hash (String c r)) =? 3)%nat eqn:E.
  - rewrite length_double_chars. apply Nat.eqb_eq in E. lia.
  - apply Nat.eqb_neq in E. exact E.
Qed.

Lemma isValidHex_hash_body (t : string) :
  String.length t <> 3%nat -> isValidHex (String "#"%char t) = true ->
  String.length t = 6%nat /\ all_hex t = true.
Proof.
  intros L V. unfold isValidHex in V. simpl in V.
  apply andb_true_iff in V as [V1 V2]. apply orb_true_iff in V1.
  rewrite !Nat.eqb_eq in V1. split; [|exact V2]. destruct V1; [assumption|contradiction].
Qed.

Definition no_hash (s : string) : Prop := ~ In "#"%char (list_ascii_of_string s).

Lemma replace_first_hash_none (s : string) : no_hash s -> replace_first_hash s = s.
Proof.
  unfold no_hash. induction s as [|c r IH]; simpl; intro H; [reflexivity|].
  destruct (Ascii.eqb_spec c "#"%char) as [E|E]; [exfalso; apply H; left; auto|].
  rewrite IH by tauto. reflexivity.
Qed.

Lemma replace_first_hash_split (s1 s2 : string) :
  no_hash s1 -> replace_first_hash (s1 ++ String "#"%char s2)%string = (s1 ++ s2)%string.
Proof.
  unfold no_hash. induction s1 as [|c r IH]; simpl; intro H; [reflexivity|].
  destruct (Ascii.eqb_spec c "#"%char) as [E|E]; [exfalso; apply H; left; auto|].
  rewrite IH by tauto. reflexivity.
Qed.

Lemma no_hash_app (s1 s2 : string) : no_hash (s1 ++ s2)%string -> no_hash s1 /\ no_hash s2.
Proof.
  unfold no_hash.
  assert (A : list_ascii_of_string (s1 ++ s2) =
              (list_ascii_of_string s1 ++ list_ascii_of_string s2)%list)
    by (induction s1; simpl; congruence).
  rewrite A. intro H.
  split; intro I; apply H; apply in_or_app; auto.
Qed.

Lemma hexToRgb_valid (hex : string) (c : RGB) :
  hexToRgb hex = Some c -> ContrastFacts.valid_rgb c.
Proof.
  intro H. unfold hexToRgb in H.
  destruct (negb _); [discriminate|].
  destruct (strip_hash (normalizeHex hex))
    as [|a1 [|a2 [|a3 [|a4 [|a5 [|a6 [|a7 t]]]]]]]; try discriminate.
  destruct (all_hex _); [|discriminate].
  injection H as <-. simpl.
  pose proof (parse_pair_range a1 a2). pose proof (parse_pair_range a3 a4).
  pose proof (parse_pair_range a5 a6). lia.
Qed.

End HexFacts.

Import HexParse HexFacts.

(** [hexToRgb] inverts [rgbToHex] on valid RGB values: the lower-case
    [#rrggbb] code that [rgbToHex] prints parses back to the same three
    channels. *)
Theorem hexToRgb_rgbToHex (c : RGB) :
  valid_rgb c -> hexToRgb (rgbToHex c) = Some c.
Proof.
  destruct c as [[r g] b]. intros (Hr & Hg & Hb).
  destruct (toHex_chars r Hr) as (r1 & r2 & Er & Pr1 & Pr2 & Vr).
  destruct (toHex_chars g Hg) as (g1 & g2 & Eg & Pg1 & Pg2 & Vg).
  destruct (toHex_chars b Hb) as (b1 & b2 & Eb & Pb1 & Pb2 & Vb).
  change (rgbToHex (r, g, b)) with ("#" ++ toHex r ++ toHex g ++ toHex b)%string.
  rewrite Er, Eg, Eb.
  unfold hexToRgb. cbn -[ascii_toUpper is_hex_digit parse_pair].
  rewrite Pr1, Pr2, Pg1, Pg2, Pb1, Pb2. cbn -[parse_pair].
  rewrite Vr, Vg, Vb. reflexivity.
Qed.

Lemma hexToRgb_rgbToHex_witness :
  hexToRgb (rgbToHex (59, 130, 246)) = Some (59, 130, 246).
Proof. apply hexToRgb_rgbToHex. simpl; lia. Defined.

(** [hexToRgb] returns [null] exactly when the normalised code fails
    [isValidHex] (its own regular expression never rejects a normalised
    code that [isValidHex] accepts), and every colour it returns has
    channels in [0, 255]. *)
Theorem hexToRgb_result (hex : string) :
  (hexToRgb hex = None <-> isValidHex (normalizeHex hex) = false) /\
  (forall c, hexToRgb hex = Some c -> valid_rgb c).
Proof.
  split.
  - unfold hexToRgb.
    destruct (isValidHex (normalizeHex hex)) eqn:V; cbn [negb];
      [|split; reflexivity].
    split; [|discriminate]. intro N. exfalso.
    destruct (normalizeHex_shape hex) as [E|(t & E & L)];
      rewrite E in V, N; [discriminate|].
    destruct (isValidHex_hash_body t L V) as [L6 A].
    cbn [strip_hash] in N. rewrite (proj2 (Ascii.eqb_eq _ _) eq_refl) in N.
    destruct t as [|a1 [|a2 [|a3 [|a4 [|a5 [|a6 [|a7 t]]]]]]];
      simpl in L6; try discriminate.
    rewrite A in N. discriminate.
  - intros c H. unfold hexToRgb in H.
    destruct (negb _); [discriminate|].
    destruct (strip_hash (normalizeHex hex))
      as [|a1 [|a2 [|a3 [|a4 [|a5 [|a6 [|a7 t]]]]]]]; try discriminate.
    destruct (all_hex _); [|discriminate].
    injection H as <-. simpl.
    pose proof (parse_pair_range a1 a2). pose proof (parse_pair_range a3 a4).
    pose proof (parse_pair_range a5 a6). lia.
Qed.

Lemma replace_first_hash_lead (s : string) : replace_first_hash (String "#"%char s) = s.
Proof. reflexivity. Qed.

(** [hexToRgb] accepts one [#] at any position, not only in front: with
    no other [#] in the code, inserting it anywhere leaves the result
    unchanged ([hex.replace('#', '')] removes it wherever it stands). *)
Theorem hexToRgb_hash_anywhere (s1 s2 : string) :
  no_hash (s1 ++ s2)%string ->
  hexToRgb (s1 ++ String "#"%char s2)%string = hexToRgb (s1 ++ s2)%string.
Proof.
  intro H. destruct (no_hash_app _ _ H) as [N1 N2].
  destruct (string_dec (s1 ++ s2)%string EmptyString) as [E|E].
  - destruct s1; [|discriminate]. simpl in E. subst s2. reflexivity.
  - unfold hexToRgb.
    rewrite (normalizeHex_nonempty (s1 ++ String "#"%char s2)%string)
      by (destruct s1; discriminate).
    rewrite (normalizeHex_nonempty (s1 ++ s2)%string) by exact E.
    rewrite replace_first_hash_split by exact N1.
    rewrite (replace_first_hash_none (s1 ++ s2)%string) by exact H.
    reflexivity.
Qed.

Lemma hexToRgb_hash_anywhere_witness :
  no_hash ("ab" ++ "cdef")%string /\
  hexToRgb ("ab" ++ String "#"%char "cdef")%string = hexToRgb ("ab" ++ "cdef")%string.
Proof.
  assert (N : no_hash ("ab" ++ "cdef")%string)
    by (unfold no_hash; simpl; intro I; repeat (destruct I as [I|I]; [discriminate|]); exact I).
  split; [exact N|]. apply hexToRgb_hash_anywhere. exact N.
Defined.

(** [normalizeHex] is idempotent on codes of 7-bit characters (where
    [toUpperCase] maps exactly [a]-[z] and keeps the length): its result
    is [#] followed by a body whose length is never 3, so normalising
    again neither doubles the digits nor changes their case. *)
Theorem normalizeHex_idempotent (hex : string) :
  Forall (fun c => (nat_of_ascii c < 128)%nat) (list_ascii_of_string hex) ->
  normalizeHex (normalizeHex hex) = normalizeHex hex.
Proof.
  intros _. destruct (normalizeHex_shape hex) as [E|(t & E & L)]; rewrite E;
    [reflexivity|].
  rewrite normalizeHex_nonempty by discriminate.
  rewrite replace_first_hash_lead.
  apply Nat.eqb_neq in L. rewrite L.
  assert (U : t = toUpperCase t).
  { destruct hex as [|c r]; [discriminate|].
    rewrite normalizeHex_nonempty in E by discriminate.
    injection E as <-. symmetry. apply toUpperCase_idem. }
  rewrite <- U. reflexivity.
Qed.

Lemma normalizeHex_idempotent_witness :
  normalizeHex (normalizeHex "aB3"%string) = normalizeHex "aB3"%string.
Proof.
  apply normalizeHex_idempotent.
  repeat constructor; cbn; lia.
Defined.

Module RgbHslFacts.

Import JsNumFacts.
Local Open Scope Q_scope.

Lemma ratio_unit (x d : Q) : 0 < d -> - d <= x <= d -> -1 <= x / d <= 1.
Proof.
  intros Hd [H1 H2]. split.
  - apply Qle_shift_div_l; [exact Hd|]. lra.
  - apply Qle_shift_div_r; [exact Hd|]. lra.
Qed.

Lemma ratio_unit_pos (x d : Q) : 0 < d -> 0 <= x <= d -> 0 <= x / d <= 1.
Proof.
  intros Hd [H1 H2]. split.
  - apply Qle_shift_div_l; [exact Hd|]. lra.
  - apply Qle_shift_div_r; [exact Hd|]. lra.
Qed.

Lemma channel_unit (v : Z) : (0 <= v <= 255)%Z -> 0 <= inject_Z v / 255 <= 1.
Proof.
  intros [H1 H2]. apply ratio_unit_pos; [reflexivity|].
  split; [change 0 with (inject_Z 0) | change 255 with (inject_Z 255)];
    rewrite <- Zle_Qle; lia.
Qed.

(** The unrounded hue (in turns) and saturation of [rgbToHSL] lie in
    [[0, 1]]. *)
Lemma rgbToHSL_hs_unit (r g b : Q) :
  0 <= r <= 1 -> 0 <= g <= 1 -> 0 <= b <= 1 ->
  let mx := js_max r (js_max g b) in
  let mn := js_min r (js_min g b) in
  let diff := mx - mn in
  let l := (mx + mn) / 2 in
  forall h s,
  (if qeq diff 0 then (0, 0)
   else
     let s := if qlt (1#2) l then diff / (2 - mx - mn) else diff / (mx + mn) in
     let h :=
       if qeq mx r then (g - b) / diff + (if qlt g b then 6 else 0)
       else if qeq mx g then (b - r) / diff + 2
       else if qeq mx b then (r - g) / diff + 4
       else 0 in
     (h / 6, s)) = (h, s) ->
  0 <= h <= 1 /\ 0 <= s <= 1.
Proof.
  intros Hr Hg Hb mx mn diff l h s E.
  destruct (js_max_ge g b) as [M1 M2]. destruct (js_max_ge r (js_max g b)) as [M3 M4].
  destruct (js_min_le g b) as [N1 N2]. destruct (js_min_le r (js_min g b)) as [N3 N4].
  assert (MX : mx <= 1).
  { unfold mx. destruct (js_max_cases r (js_max g b)) as [-> | ->]; [lra|].
    destruct (js_max_cases g b) as [-> | ->]; lra. }
  assert (MN : 0 <= mn).
  { unfold mn. destruct (js_min_cases r (js_min g b)) as [-> | ->]; [lra|].
    destruct (js_min_cases g b) as [-> | ->]; lra. }
  fold mx mn in M3, M4, N3, N4.
  destruct (qeq diff 0) eqn:D.
  - injection E as <- <-. split; lra.
  - apply Qeq_bool_neq in D.
    assert (Dp : 0 < diff).
    { unfold diff. destruct (Qlt_le_dec mn mx) as [L|L]; [lra|].
      exfalso. apply D. unfold diff. lra. }
    cbv zeta in E. injection E as <- <-.
    assert (Ugb := ratio_unit (g - b) diff Dp ltac:(unfold diff; split; lra)).
    assert (Ubr := ratio_unit (b - r) diff Dp ltac:(unfold diff; split; lra)).
    assert (Urg := ratio_unit (r - g) diff Dp ltac:(unfold diff; split; lra)).
    split.
    + assert (H6 : 0 <= (if qeq mx r then (g - b) / diff + (if qlt g b then 6 else 0)
                         else if qeq mx g then (b - r) / diff + 2
                         else if qeq mx b then (r - g) / diff + 4 else 0) <= 6).
      { destruct (qeq mx r); [|destruct (qeq mx g); [|destruct (qeq mx b)]];
          [qcase g b|..]; try (split; lra).
        - assert ((g - b) / diff < 0).
          { apply Qlt_shift_div_r; [exact Dp|]. lra. }
          split; lra.
        - assert (0 <= (g - b) / diff).
          { apply Qle_shift_div_l; [exact Dp|]. lra. }
          split; lra. }
      set (hh := if qeq mx r then _ else _) in *.
      unfold Qdiv. change (/ 6) with (1 # 6). split; lra.
    + qcase (1#2) l.
      * apply ratio_unit_pos; [|split]; unfold diff, l in *; lra.
      * apply ratio_unit_pos; [|split]; unfold diff in *; lra.
Qed.

End RgbHslFacts.

(** [rgbToHSL] of a valid RGB colour returns whole numbers with hue in
    [[0, 360]], saturation and lightness in [[0, 100]]; the hue 360 does
    occur (a red with a trace of blue rounds up to it), so its result can
    lie outside the hue range [[0, 360)]. *)
Theorem rgbToHSL_range :
  (forall c : RGB, valid_rgb c ->
   exists h s l : Z, rgbToHSL c = (inject_Z h, inject_Z s, inject_Z l) /\
     0 <= h <= 360 /\ 0 <= s <= 100 /\ 0 <= l <= 100) /\
  rgbToHSL (255, 0, 1) = (360, 100, 50)%Q.
Proof.
  split; [|reflexivity].
  intros [[r0 g0] b0] (Hr & Hg & Hb).
  pose proof (RgbHslFacts.channel_unit r0 Hr) as Ur.
  pose proof (RgbHslFacts.channel_unit g0 Hg) as Ug.
  pose proof (RgbHslFacts.channel_unit b0 Hb) as Ub.
  unfold rgbToHSL.
  set (r := (inject_Z r0 / 255)%Q) in *. set (g := (inject_Z g0 / 255)%Q) in *.
  set (b := (inject_Z b0 / 255)%Q) in *.
  pose proof (RgbHslFacts.rgbToHSL_hs_unit r g b Ur Ug Ub) as HS. cbv zeta in HS.
  destruct (JsNumFacts.js_max_ge g b) as [M1 M2].
  destruct (JsNumFacts.js_max_ge r (js_max g b)) as [M3 M4].
  destruct (JsNumFacts.js_min_le g b) as [N1 N2].
  destruct (JsNumFacts.js_min_le r (js_min g b)) as [N3 N4].
  set (mx := js_max r (js_max g b)) in *. set (mn := js_min r (js_min g b)) in *.
  assert (MX : (mx <= 1)%Q).
  { unfold mx. destruct (JsNumFacts.js_max_cases r (js_max g b)) as [-> | ->]; [lra|].
    destruct (JsNumFacts.js_max_cases g b) as [-> | ->]; lra. }
  assert (MN : (0 <= mn)%Q).
  { unfold mn. destruct (JsNumFacts.js_min_cases r (js_min g b)) as [-> | ->]; [lra|].
    destruct (JsNumFacts.js_min_cases g b) as [-> | ->]; lra. }
  destruct (if qeq (mx - mn) 0 then _ else _) as [h s] eqn:E.
  destruct (HS h s eq_refl) as [Hh Hs].
  exists (js_round (h * 360)), (js_round (s * 100)), (js_round ((mx + mn) / 2 * 100)%Q).
  split; [reflexivity|].
  split; [|split]; apply JsNumFacts.js_round_bounds; change (inject_Z 0) with 0%Q.
  - change (inject_Z 360) with 360%Q. split; lra.
  - change (inject_Z 100) with 100%Q. split; lra.
  - change (inject_Z 100) with 100%Q. unfold Qdiv. change (/ 2)%Q with (1 # 2)%Q.
    split; lra.
Qed.

Lemma rgbToHSL_range_witness :
  valid_rgb (255, 0, 1) /\
  exists h s l : Z, rgbToHSL (255, 0, 1) = (inject_Z h, inject_Z s, inject_Z l) /\
    0 <= h <= 360 /\ 0 <= s <= 100 /\ 0 <= l <= 100.
Proof.
  assert (V : valid_rgb (255, 0, 1)) by (simpl; lia).
  split; [exact V|]. exact (proj1 rgbToHSL_range _ V).
Defined.

Module RangeFacts.

Import JsNumFacts Accessibility.
Local Open Scope Q_scope.

Lemma insert_by_dist_perm (c x : Q) (l : list Q) :
  Permutation (insert_by_dist c x l) (x :: l).
Proof.
  induction l as [|y r IH]; simpl; [reflexivity|].
  destruct (qlt _ _); [reflexivity|].
  rewrite IH. apply perm_swap.
Qed.

Lemma sort_by_dist_perm (c : Q) (l : list Q) : Permutation (sort_by_dist c l) l.
Proof.
  unfold sort_by_dist.
  assert (G : forall acc, Permutation
            (fold_left (fun acc x => insert_by_dist c x acc) l acc) (l ++ acc)).
  { induction l as [|x r IH]; intro acc; simpl; [reflexivity|].
    rewrite IH, insert_by_dist_perm. symmetry. apply Permutation_middle. }
  rewrite G, app_nil_r. reflexivity.
Qed.

Lemma sort_by_dist_in (c x : Q) (l : list Q) : In x (sort_by_dist c l) <-> In x l.
Proof.
  split; apply Permutation_in; [|symmetry]; apply sort_by_dist_perm.
Qed.

(** The centre, being at distance 0, stays in front. *)
Lemma insert_by_dist_center (c x : Q) (t : list Q) :
  insert_by_dist c x (c :: t) = c :: insert_by_dist c x t.
Proof.
  cbn [insert_by_dist]. qcase (Qabs (x - c)) (Qabs (c - c)); [|reflexivity].
  exfalso. assert (Z : Qabs (c - c) == 0) by (apply Qabs_case; intros; lra).
  pose proof (Qabs_nonneg (x - c)). lra.
Qed.

Lemma sort_by_dist_head (c : Q) (l : list Q) :
  exists t, sort_by_dist c (c :: l) = c :: t.
Proof.
  unfold sort_by_dist. cbn [fold_left insert_by_dist].
  assert (G : forall t, exists t',
            fold_left (fun acc x => insert_by_dist c x acc) l (c :: t) = c :: t').
  { induction l as [|x r IH]; intro t; cbn [fold_left]; [eauto|].
    rewrite insert_by_dist_center. apply IH. }
  apply G.
Qed.

Definition dedup_step (acc : list Q) (x : Q) : list Q :=
  if includes acc x then acc else acc ++ [x].

Lemma dedup_in (x : Q) (l : list Q) : In x (dedup l) -> In x l.
Proof.
  unfold dedup. fold dedup_step.
  assert (G : forall acc, In x (fold_left dedup_step l acc) -> In x acc \/ In x l).
  { induction l as [|y r IH]; intros acc H; simpl in *; [auto|].
    apply IH in H. destruct H as [H|H]; [|auto].
    unfold dedup_step in H. destruct (includes acc y); [auto|].
    apply in_app_or in H. destruct H as [H|[H|[]]]; auto. }
  intro H. apply G in H. destruct H as [[]|H]; exact H.
Qed.

Lemma dedup_head (c : Q) (l : list Q) : exists t, dedup (c :: l) = c :: t.
Proof.
  unfold dedup. fold dedup_step. simpl.
  assert (G : forall t, exists t', fold_left dedup_step l (c :: t) = c :: t').
  { induction l as [|y r IH]; intro t; simpl; [eauto|].
    unfold dedup_step at 2. destruct (includes (c :: t) y); [apply IH|].
    apply (IH (t ++ [y])). }
  apply G.
Qed.

Lemma includes_in (l : list Q) (x : Q) : includes l x = true <-> exists y, In y l /\ x == y.
Proof.
  unfold includes. rewrite existsb_exists. split; intros (y & H1 & H2); exists y;
    split; try exact H1; [apply Qeq_bool_iff | apply Qeq_bool_iff]; assumption.
Qed.

Lemma count_up_bounds (fuel : nat) (i step bound x : Q) :
  0 <= step -> In x (count_up fuel i step bound) -> i <= x <= bound.
Proof.
  intro Hs. revert i. induction fuel as [|f IH]; intros i H; simpl in H; [contradiction|].
  unfold qle in H. destruct (Qle_bool i bound) eqn:E; [|contradiction].
  apply Qle_bool_iff in E. destruct H as [<-|H]; [split; lra|].
  apply IH in H. split; lra.
Qed.

Lemma count_down10_bounds (fuel : nat) (l bound x : Q) :
  In x (count_down10 fuel l bound) -> bound <= x <= l.
Proof.
  revert l. induction fuel as [|f IH]; intros l H; simpl in H; [contradiction|].
  unfold qle in H. destruct (Qle_bool bound l) eqn:E; [|contradiction].
  apply Qle_bool_iff in E. destruct H as [<-|H]; [split; lra|].
  apply IH in H. split; lra.
Qed.

Lemma js_max_lo_range (lo hi x : Q) : lo <= hi -> x <= hi -> lo <= js_max lo x <= hi.
Proof. intros H1 H2. unfold js_max. qcase lo x; split; lra. Qed.

Lemma js_min_hi_range (lo hi x : Q) : lo <= hi -> lo <= x -> lo <= js_min hi x <= hi.
Proof. intros H1 H2. unfold js_min. qcase x hi; split; lra. Qed.

Lemma qle_true (a b : Q) : qle a b = true <-> a <= b.
Proof. apply Qle_bool_iff. Qed.

Lemma qle_false (a b : Q) : qle a b = false <-> b < a.
Proof.
  unfold qle. split; intro H.
  - apply Qnot_le_lt. intro H'. apply Qle_bool_iff in H'. congruence.
  - destruct (Qle_bool a b) eqn:E; [|reflexivity].
    apply Qle_bool_iff in E. lra.
Qed.

(** Whatever a range generator then sorts keeps the bounds of its
    elements. *)
Lemma sort_dedup_forall (P : Q -> Prop) (c : Q) (l : list Q) :
  Forall P l -> Forall P (sort_by_dist c (dedup l)).
Proof.
  rewrite !Forall_forall. intros H x Hx.
  apply sort_by_dist_in, dedup_in in Hx. auto.
Qed.

End RangeFacts.

Import RangeFacts.

Ltac range_split :=
  repeat match goal with
  | |- _ /\ _ => split
  | |- context [js_mod ?a 360] =>
      let M := fresh "M" in
      assert (M := JsNumFacts.js_mod_360_nonneg a ltac:(lra));
      set (js_mod a 360) in *
  | |- (_ <= js_max ?a ?b)%Q =>
      let M := fresh "M" in pose proof (JsNumFacts.js_max_ge a b) as M; lra
  | |- (js_max ?a ?b <= _)%Q =>
      let M := fresh "M" in
      destruct (JsNumFacts.js_max_cases a b) as [M|M]; rewrite M; lra
  | |- (js_min ?a ?b <= _)%Q =>
      let M := fresh "M" in pose proof (JsNumFacts.js_min_le a b) as M; lra
  | |- (_ <= js_min ?a ?b)%Q =>
      let M := fresh "M" in
      destruct (JsNumFacts.js_min_cases a b) as [M|M]; rewrite M; lra
  end; try lra.

(** For a colour in the HSL ranges, all eight fallbacks of
    [generateHuePreservingFallbacks] are in the HSL ranges too (hue in
    [[0, 360)], saturation and lightness in [[0, 100]]). *)
Theorem generateHuePreservingFallbacks_in_range (originalH originalS : Q) :
  (0 <= originalH < 360)%Q -> (0 <= originalS <= 100)%Q ->
  Forall hsl_in_range (generateHuePreservingFallbacks originalH originalS).
Proof.
  intros Hh Hs. unfold generateHuePreservingFallbacks.
  repeat constructor; unfold hsl_in_range, hsl_h, hsl_s, hsl_l; cbn [fst snd];
    range_split.
Qed.

Lemma generateHuePreservingFallbacks_in_range_witness :
  Forall hsl_in_range (generateHuePreservingFallbacks 350 10).
Proof. apply generateHuePreservingFallbacks_in_range; split; lra. Defined.

(** For a centre hue in [[0, 360)] and a tolerance in [[0, 360]],
    [generateHueRange] starts with the centre and produces only hues in
    [[0, 360)]. *)
Theorem generateHueRange_in_circle (centerHue tolerance : Q) :
  (0 <= centerHue < 360)%Q -> (0 <= tolerance <= 360)%Q ->
  (exists t, generateHueRange centerHue tolerance = centerHue :: t) /\
  (forall x, In x (generateHueRange centerHue tolerance) -> 0 <= x < 360)%Q.
Proof.
  intros Hc Ht. unfold generateHueRange.
  destruct (qeq tolerance 0); [split; [eauto | intros x [<-|[]]; lra]|].
  split; [eauto|].
  set (step := js_min 15 (tolerance / 3)).
  assert (Hs : (0 <= step)%Q).
  { unfold step. apply js_min_hi_range; [lra|].
    apply Qle_shift_div_l; [reflexivity|lra]. }
  intros x [<-|Hx]; [lra|].
  apply in_flat_map in Hx as (i & Hi & Hx).
  apply count_up_bounds in Hi; [|exact Hs].
  destruct Hx as [<-|[<-|[]]]; apply JsNumFacts.js_mod_360_nonneg; lra.
Qed.

Lemma generateHueRange_in_circle_witness :
  (exists t, generateHueRange 350 30 = 350%Q :: t) /\
  (forall x, In x (generateHueRange 350 30) -> 0 <= x < 360)%Q.
Proof. apply generateHueRange_in_circle; split; lra. Defined.

(** For [min <= center <= max] and a positive step, [generateSearchRange]
    starts with the centre, contains [min] and [max], and produces only
    values in [[min, max]]. *)
Theorem generateSearchRange_props (center min max step : Q) :
  (min <= center <= max)%Q -> (0 < step)%Q ->
  let range := generateSearchRange center min max step in
  (exists t, range = center :: t) /\
  includes range min = true /\ includes range max = true /\
  (forall x, In x range -> min <= x <= max)%Q.
Proof.
  intros Hc Hs range. unfold range, generateSearchRange.
  set (bound := js_max (center - min) (max - center)).
  set (r1 := center :: flat_map _ _).
  set (r2 := if includes r1 min then r1 else r1 ++ [min]).
  set (r3 := if includes r2 max then r2 else r2 ++ [max]).
  assert (In1 : forall x, In x r1 -> (min <= x <= max)%Q).
  { intros x [<-|Hx]; [lra|].
    apply in_flat_map in Hx as (i & Hi & Hx).
    apply count_up_bounds in Hi; [|lra].
    apply in_app_or in Hx.
    destruct Hx as [Hx|Hx]; [destruct (qle min (center - i)) eqn:E
                           | destruct (qle (center + i) max) eqn:E];
      try contradiction; apply qle_true in E; destruct Hx as [<-|[]]; split; lra. }
  assert (In3 : forall x, In x r3 -> (min <= x <= max)%Q).
  { intros x Hx. unfold r3, r2 in Hx.
    destruct (includes r1 min), (includes _ max);
      repeat (apply in_app_or in Hx; destruct Hx as [Hx|[<-|[]]]);
      try (apply In1; exact Hx); split; lra. }
  assert (Inc : forall y, includes r3 y = true ->
                  includes (sort_by_dist center r3) y = true).
  { intros y H. apply includes_in in H as (z & Hz & E).
    apply includes_in. exists z. split; [apply sort_by_dist_in|]; assumption. }
  split; [|split; [|split]].
  - assert (H3 : exists t, r3 = center :: t).
    { unfold r3, r2, r1. destruct (includes _ min), (includes _ max); eexists; reflexivity. }
    destruct H3 as [t ->]. apply sort_by_dist_head.
  - apply Inc. apply includes_in.
    assert (I2 : exists z, In z r2 /\ (min == z)%Q).
    { unfold r2. destruct (includes r1 min) eqn:E.
      + apply includes_in in E. exact E.
      + exists min. split; [apply in_or_app; right; left; reflexivity | reflexivity]. }
    destruct I2 as (z & Hz & Ez). exists z. split; [|exact Ez].
    unfold r3. destruct (includes r2 max); [exact Hz | apply in_or_app; left; exact Hz].
  - apply Inc. unfold r3. destruct (includes r2 max) eqn:E; [exact E|].
    apply includes_in. exists max. split; [|reflexivity].
    apply in_or_app. right. left. reflexivity.
  - intros x Hx. apply sort_by_dist_in in Hx. apply In3, Hx.
Qed.

Lemma generateSearchRange_props_witness :
  let range := generateSearchRange 40 0 100 5 in
  (exists t, range = 40%Q :: t) /\
  includes range 0 = true /\ includes range 100 = true /\
  (forall x, In x range -> 0 <= x <= 100)%Q.
Proof. apply generateSearchRange_props; [split|]; lra. Defined.

Ltac forall_range :=
  repeat first
    [ rewrite Forall_app
    | match goal with
      | |- _ /\ _ => split
      | |- context [if qle ?a ?b then _ else _] =>
          let E := fresh "E" in
          destruct (qle a b) eqn:E; [apply qle_true in E | apply qle_false in E]
      | |- Forall _ (_ :: _) => constructor
      | |- Forall _ [] => constructor
      end ];
  try range_split.

(** For a saturation in [[0, 100]], [generateSmartSaturationRange] starts
    with the original saturation and produces only saturations in
    [[0, 100]]. *)
Theorem generateSmartSaturationRange_props (originalS originalL : Q) :
  (0 <= originalS <= 100)%Q ->
  (exists t, generateSmartSaturationRange originalS originalL = originalS :: t) /\
  Forall (fun x => 0 <= x <= 100)%Q (generateSmartSaturationRange originalS originalL).
Proof.
  intro Hs. unfold generateSmartSaturationRange. cbv zeta.
  destruct (qlt 80 originalL || qlt originalL 20), (qlt originalS 70),
    (qlt 20 originalS), (qlt originalS 80); cbn [flat_map app];
  (split;
   [ match goal with |- context [dedup (?c :: ?l)] =>
       destruct (dedup_head c l) as [t ->] end; apply sort_by_dist_head
   | apply sort_dedup_forall; forall_range ]).
Qed.

Lemma generateSmartSaturationRange_props_witness :
  (exists t, generateSmartSaturationRange 90 10 = 90%Q :: t) /\
  Forall (fun x => 0 <= x <= 100)%Q (generateSmartSaturationRange 90 10).
Proof. apply generateSmartSaturationRange_props; split; lra. Defined.

(** For a lightness in [[0, 100]], [generateSmartLightnessRange] starts
    with the original lightness and produces only lightnesses in
    [[0, 100]], whatever the target ratio. *)
Theorem generateSmartLightnessRange_props (originalL : Q) (targetAtLeast7 : bool) :
  (0 <= originalL <= 100)%Q ->
  (exists t, generateSmartLightnessRange originalL targetAtLeast7 = originalL :: t) /\
  Forall (fun x => 0 <= x <= 100)%Q (generateSmartLightnessRange originalL targetAtLeast7).
Proof.
  intro Hl. unfold generateSmartLightnessRange. cbv zeta.
  set (darkTarget := (if targetAtLeast7 then 25 else 35)%Q).
  set (lightTarget := (if targetAtLeast7 then 75 else 65)%Q).
  assert (D : (25 <= darkTarget)%Q) by (unfold darkTarget; destruct targetAtLeast7; lra).
  assert (U : (lightTarget <= 75)%Q) by (unfold lightTarget; destruct targetAtLeast7; lra).
  set (down := count_down10 _ _ darkTarget).
  set (up := count_up _ _ 10 lightTarget).
  assert (Fd : Forall (fun x => 0 <= x <= 100)%Q down).
  { apply Forall_forall. intros x Hx. apply count_down10_bounds in Hx. split; lra. }
  assert (Fu : Forall (fun x => 0 <= x <= 100)%Q up).
  { apply Forall_forall. intros x Hx. apply count_up_bounds in Hx; [split; lra | lra]. }
  cbn [app]. split.
  - match goal with |- context [dedup (?c :: ?l)] =>
      destruct (dedup_head c l) as [t ->] end; apply sort_by_dist_head.
  - apply sort_dedup_forall. constructor; [split; lra|].
    rewrite Forall_app. split; [destruct (qlt 50 originalL); rewrite Forall_app; auto|].
    repeat constructor; lra.
Qed.

Lemma generateSmartLightnessRange_props_witness :
  (exists t, generateSmartLightnessRange 60 true = 60%Q :: t) /\
  Forall (fun x => 0 <= x <= 100)%Q (generateSmartLightnessRange 60 true).
Proof. apply generateSmartLightnessRange_props; split; lra. Defined.

Import LabColor Easing DarkModeMore.

Lemma srgb_channel_range (v : R) : (0 <= srgb_channel v <= 255)%R.
Proof.
  unfold srgb_channel.
  set (w := if Rlt_dec _ v then _ else _).
  pose proof (Rmin_l 1 w). pose proof (Rmax_l 0 (Rmin 1 w)).
  assert (Rmax 0 (Rmin 1 w) <= 1)%R.
  { apply Rmax_lub; lra. }
  split; nra.
Qed.

(** [labToRgb] always returns channels in [[0, 255]], whatever the LAB
    values, and so does [lchToRgb]: each channel is clamped to [[0, 1]]
    before it is scaled and rounded. *)
Theorem labToRgb_lchToRgb_valid :
  (forall lab, valid_rgb (labToRgb lab)) /\ (forall lch, valid_rgb (lchToRgb lch)).
Proof.
  assert (V : forall lab, valid_rgb (labToRgb lab)).
  { intros [[L a] b]. unfold labToRgb. cbv zeta.
    split; [|split]; apply js_roundR_bounds; apply srgb_channel_range. }
  split; [exact V|]. intros [[L C] H]. apply V.
Qed.

(** [rgbToLch] returns a non-negative chroma and a hue in [[0, 360)]. *)
Theorem rgbToLch_ranges (rgb : RGB) :
  let '(_, C, H) := rgbToLch rgb in (0 <= C)%R /\ (0 <= H < 360)%R.
Proof.
  unfold rgbToLch. destruct (rgbToLab rgb) as [[L a] b].
  split; [apply DeltaEFacts.chroma_nonneg | apply DeltaEFacts.hue_deg_range].
Qed.

(** [bezierEasing] maps [[0, 1]] onto itself, fixing 0 and 1; it is
    increasing there, and symmetric: the easing of [1 - t] is [1] minus
    the easing of [t]. *)
Theorem bezierEasing_props :
  (bezierEasing 0 == 0 /\ bezierEasing 1 == 1 /\
   (forall t : Q, 0 <= t <= 1 -> 0 <= bezierEasing t <= 1) /\
   (forall t : Q, bezierEasing (1 - t) == 1 - bezierEasing t) /\
   (forall t1 t2 : Q, 0 <= t1 -> t1 <= t2 -> t2 <= 1 ->
      bezierEasing t1 <= bezierEasing t2))%Q.
Proof.
  unfold bezierEasing. split; [reflexivity|]. split; [reflexivity|].
  split; [|split].
  - intros t [H0 H1]. split.
    + apply Qmult_le_0_compat; [apply Qmult_le_0_compat|]; lra.
    + assert (E : (1 - t * t * (3 - 2 * t) == (1 - t) * (1 - t) * (1 + 2 * t))%Q)
        by ring.
      assert (0 <= (1 - t) * (1 - t) * (1 + 2 * t))%Q
        by (apply Qmult_le_0_compat; [apply Qmult_le_0_compat|]; lra).
      lra.
  - intro t. ring.
  - intros t1 t2 H0 H1 H2.
    assert (E : (t2 * t2 * (3 - 2 * t2) - t1 * t1 * (3 - 2 * t1) ==
                (t2 - t1) * (3 * (t1 + t2) - 2 * (t1 * t1 + t1 * t2 + t2 * t2)))%Q)
      by ring.
    assert (0 <= 3 * (t1 + t2) - 2 * (t1 * t1 + t1 * t2 + t2 * t2))%Q by nra.
    nra.
Qed.

Lemma darkL_range (l : Q) :
  (0 <= l <= 100 ->
   35 <= (if qlt 70 l then js_max 35 (l - 35)
          else if qlt l 30 then js_min 65 (l + 35)
          else if qlt 50 l then js_max 40 (l - 15) else js_min 60 (l + 15)) <= 65)%Q.
Proof.
  intro Hl. unfold js_max, js_min.
  JsNumFacts.qcase 70%Q l; [JsNumFacts.qcase 35%Q (l - 35)%Q|JsNumFacts.qcase l 30%Q;
    [JsNumFacts.qcase (l + 35)%Q 65%Q|JsNumFacts.qcase 50%Q l;
    [JsNumFacts.qcase 40%Q (l - 15)%Q|JsNumFacts.qcase (l + 15)%Q 60%Q]]]; split; lra.
Qed.

(** For a lightness in [[0, 100]], [generateOptimalDarkModeBase] returns
    a colour in the HSL ranges whose lightness lies in [[35, 65]]. *)
Theorem generateOptimalDarkModeBase_range (lightBaseHSL : HSL) :
  (0 <= hsl_l lightBaseHSL <= 100)%Q ->
  hsl_in_range (generateOptimalDarkModeBase lightBaseHSL) /\
  (35 <= hsl_l (generateOptimalDarkModeBase lightBaseHSL) <= 65)%Q.
Proof.
  intro Hl. split; [destruct lightBaseHSL as [[h s] l]; apply GeneratorFacts.clampHSL_in_range|].
  destruct lightBaseHSL as [[h s] l].
  unfold hsl_l in Hl. cbn [snd] in Hl.
  pose proof (darkL_range l Hl) as D.
  unfold generateOptimalDarkModeBase. cbv zeta.
  revert D. generalize (if qlt 70 l then js_max 35 (l - 35)
          else if qlt l 30 then js_min 65 (l + 35)
          else if qlt 50 l then js_max 40 (l - 15) else js_min 60 (l + 15)).
  intros x D. unfold clampHSL, hsl_l. cbn [snd].
  assert (E1 : js_min 100 x = x)
    by (unfold js_min; JsNumFacts.qcase x 100%Q; [reflexivity|lra]).
  assert (E2 : js_max 0 x = x)
    by (unfold js_max; JsNumFacts.qcase 0%Q x; [reflexivity|lra]).
  rewrite E1, E2. exact D.
Qed.

Lemma generateOptimalDarkModeBase_range_witness :
  (0 <= hsl_l (210, 60, 85)%Q <= 100)%Q /\
  hsl_in_range (generateOptimalDarkModeBase (210, 60, 85)%Q) /\
  (35 <= hsl_l (generateOptimalDarkModeBase (210, 60, 85)%Q) <= 65)%Q.
Proof.
  assert (H : (0 <= hsl_l (210, 60, 85)%Q <= 100)%Q)
    by (unfold hsl_l; cbn [snd]; split; lra).
  split; [exact H|]. apply generateOptimalDarkModeBase_range. exact H.
Defined.

(** ** Mixing two HSL colours *)

Module MixFacts.

Import JsNumFacts.
Local Open Scope Q_scope.

Lemma js_round_inject (z : Z) : js_round (inject_Z z) = z.
Proof.
  pose proof (js_round_bounds z z (inject_Z z)) as H.
  assert (inject_Z z <= inject_Z z <= inject_Z z) as I by lra.
  specialize (H I). lia.
Qed.

Lemma js_round_comp (x y : Q) : x == y -> js_round x = js_round y.
Proof. intro H. unfold js_round. apply Qfloor_comp. rewrite H. reflexivity. Qed.

Lemma clamp_id (x : Q) : 0 <= x <= 100 -> js_max 0 (js_min 100 x) == x.
Proof.
  intro H. unfold js_max, js_min.
  qcase x 100; cbv iota; [qcase 0 x|qcase 0 100]; cbv iota; lra.
Qed.

Lemma Qfloor_eq (x : Q) (n : Z) : inject_Z n <= x < inject_Z n + 1 -> Qfloor x = n.
Proof.
  intros [H1 H2]. pose proof (Qfloor_le x) as F.
  assert (A : (n <= Qfloor x)%Z).
  { rewrite <- (Qfloor_Z n). apply Qfloor_resp_le. exact H1. }
  assert (B : inject_Z (Qfloor x) < inject_Z (n + 1)).
  { rewrite inject_Z_plus. change (inject_Z 1) with 1. lra. }
  rewrite <- Zlt_Qlt in B. lia.
Qed.

Lemma Qceiling_eq (x : Q) (n : Z) : inject_Z n - 1 < x <= inject_Z n -> Qceiling x = n.
Proof.
  intros [H1 H2]. pose proof (Qle_ceiling x) as F.
  assert (A : (Qceiling x <= n)%Z).
  { rewrite <- (Qceiling_Z n). apply Qceiling_resp_le. exact H2. }
  assert (B : inject_Z (n - 1) < inject_Z (Qceiling x)).
  { unfold Z.sub. rewrite inject_Z_plus. change (inject_Z (Z.opp 1)) with (- (1)). lra. }
  rewrite <- Zlt_Qlt in B. lia.
Qed.

Lemma js_mod_360_id (x : Q) : 0 <= x < 360 -> js_mod x 360 == x.
Proof.
  intro H. unfold js_mod, js_trunc.
  assert (D : 0 <= x / 360 < 1).
  { split; [apply Qle_shift_div_l; lra|apply Qlt_shift_div_r; lra]. }
  assert (B : Qle_bool 0 (x / 360) = true) by (apply Qle_bool_iff; lra).
  rewrite B. rewrite (Qfloor_eq (x / 360) 0) by (change (inject_Z 0) with 0; lra).
  change (inject_Z 0) with 0. ring.
Qed.

Lemma js_mod_360_sub (x : Q) : 360 <= x < 720 -> js_mod x 360 == x - 360.
Proof.
  intro H. unfold js_mod, js_trunc.
  assert (D : 1 <= x / 360 < 2).
  { split; [apply Qle_shift_div_l; lra|apply Qlt_shift_div_r; lra]. }
  assert (B : Qle_bool 0 (x / 360) = true) by (apply Qle_bool_iff; lra).
  rewrite B. rewrite (Qfloor_eq (x / 360) 1) by (change (inject_Z 1) with 1; lra).
  change (inject_Z 1) with 1. ring.
Qed.

Lemma js_mod_360_neg (x : Q) : -360 < x < 0 -> js_mod x 360 == x.
Proof.
  intro H. unfold js_mod, js_trunc.
  assert (D : -1 < x / 360 < 0).
  { split; [apply Qlt_shift_div_l; lra|apply Qlt_shift_div_r; lra]. }
  assert (B : Qle_bool 0 (x / 360) = false).
  { destruct (Qle_bool 0 (x / 360)) eqn:X; [|reflexivity].
    apply Qle_bool_iff in X. lra. }
  rewrite B. rewrite (Qceiling_eq (x / 360) 0) by (change (inject_Z 0) with 0; lra).
  change (inject_Z 0) with 0. ring.
Qed.

Lemma Qsq_nonneg (x : Q) : 0 <= x * x.
Proof.
  destruct (Qlt_le_dec x 0) as [H|H].
  - setoid_replace (x * x) with ((- x) * (- x)) by ring.
    apply Qmult_le_0_compat; lra.
  - apply Qmult_le_0_compat; lra.
Qed.

Lemma Qsq_sum_zero (x y z : Q) : x * x + y * y + z * z == 0 -> x == 0 /\ y == 0 /\ z == 0.
Proof.
  intro H. pose proof (Qsq_nonneg x). pose proof (Qsq_nonneg y). pose proof (Qsq_nonneg z).
  assert (X : x * x == 0) by lra. assert (Y : y * y == 0) by lra.
  assert (Z : z * z == 0) by lra.
  apply Qmult_integral in X, Y, Z. intuition.
Qed.

Lemma inject_range (lo hi z : Z) :
  (lo <= z <= hi)%Z -> inject_Z lo <= inject_Z z <= inject_Z hi.
Proof. intros [H1 H2]. rewrite <- !Zle_Qle. split; assumption. Qed.

Lemma inject_range_lt (lo hi z : Z) :
  (lo <= z < hi)%Z -> inject_Z lo <= inject_Z z < inject_Z hi.
Proof. intros [H1 H2]. rewrite <- Zle_Qle, <- Zlt_Qlt. split; assumption. Qed.

Lemma wrap_id (x : Q) : 0 <= x < 360 ->
  (if qlt (js_mod x 360) 0 then js_mod x 360 + 360 else js_mod x 360) == x.
Proof.
  intro H. pose proof (js_mod_360_id x H) as M.
  qcase (js_mod x 360) 0; cbv iota; lra.
Qed.

Lemma wrap_sub (x : Q) : 360 <= x < 720 ->
  (if qlt (js_mod x 360) 0 then js_mod x 360 + 360 else js_mod x 360) == x - 360.
Proof.
  intro H. pose proof (js_mod_360_sub x H) as M.
  qcase (js_mod x 360) 0; cbv iota; lra.
Qed.

Lemma wrap_neg (x : Q) : -360 < x < 0 ->
  (if qlt (js_mod x 360) 0 then js_mod x 360 + 360 else js_mod x 360) == x + 360.
Proof.
  intro H. pose proof (js_mod_360_neg x H) as M.
  qcase (js_mod x 360) 0; cbv iota; lra.
Qed.

End MixFacts.

Import MixFacts.

(** ** Conversions: the round trip [rgbToHSL] then [hslToRgb] in general *)

(** The proof: [hslToRgb] computes, per channel, [l + s * mid l * (2F - 1)]
    with [F] the hue shape of [hue2rgb]; at the exact hue, saturation and
    lightness this gives back the channel, and rounding them to whole
    numbers moves it by at most 1/200 + 3/400 + 1/120 = 1/48, that is
    5.3125 on the 0..255 scale, so at most 5 once rounded. *)
Module RoundTripFacts.

Import JsNumFacts RgbHslFacts.
Local Open Scope Q_scope.

(** The hue shape of [hue2rgb]: [t] brought into [[0, 1]] by one turn. *)
Definition wrap1 (t0 : Q) : Q :=
  let t1 := if qlt t0 0 then t0 + 1 else t0 in
  if qlt 1 t1 then t1 - 1 else t1.

Definition hat (t : Q) : Q :=
  if qlt t (1#6) then 6 * t
  else if qlt t (1#2) then 1
  else if qlt t (2#3) then ((2#3) - t) * 6
  else 0.

(** [min(l, 1 - l)], as the two branches of [q] give it. *)
Definition mid (l : Q) : Q := if qlt l (1#2) then l else 1 - l.

(** A channel of [hslToRgb] before rounding: [l + s * mid l * (2 * hat - 1)]. *)
Definition channel_of (l s t : Q) : Q := l + s * mid l * (2 * hat (wrap1 t) - 1).

Lemma hue2rgb_channel (l s t : Q) :
  hue2rgb (2 * l - (if qlt l (1#2) then l * (1 + s) else l + s - l * s))
    (if qlt l (1#2) then l * (1 + s) else l + s - l * s) t == channel_of l s t.
Proof.
  unfold hue2rgb, channel_of, hat, wrap1, mid. cbv zeta.
  repeat match goal with |- context [qlt ?a ?b] => destruct (qlt a b) end; ring.
Qed.

Lemma hslToRgb_channels (h0 s0 l0 : Q) :
  hslToRgb (h0, s0, l0) =
  (js_round (channel_of (l0 / 100) (s0 / 100) (h0 / 360 + (1#3)) * 255),
   js_round (channel_of (l0 / 100) (s0 / 100) (h0 / 360) * 255),
   js_round (channel_of (l0 / 100) (s0 / 100) (h0 / 360 - (1#3)) * 255))%Z.
Proof.
  unfold hslToRgb. cbv zeta. destruct (qeq (s0 / 100) 0) eqn:E.
  - apply Qeq_bool_eq in E.
    assert (G : forall t, channel_of (l0 / 100) (s0 / 100) t * 255 == l0 / 100 * 255)
      by (intro t; unfold channel_of; rewrite E; ring).
    rewrite !(MixFacts.js_round_comp _ _ (G _)). reflexivity.
  - f_equal; [f_equal|]; apply MixFacts.js_round_comp; rewrite hue2rgb_channel; reflexivity.
Qed.

Ltac qcases :=
  repeat match goal with
  | |- context [qlt ?a ?b] => qcase a b; cbv iota
  end.

Ltac pick7 :=
  first [ exfalso; lra
        | left; split; [lra | ring]
        | right; pick7
        | split; [lra | ring] ].

Lemma F_spec (u : Q) : -(1#3) <= u <= (4#3) ->
  (u < 0 /\ hat (wrap1 u) == 0) \/
  (0 <= u < (1#6) /\ hat (wrap1 u) == 6 * u) \/
  ((1#6) <= u < (1#2) /\ hat (wrap1 u) == 1) \/
  ((1#2) <= u < (2#3) /\ hat (wrap1 u) == ((2#3) - u) * 6) \/
  ((2#3) <= u <= 1 /\ hat (wrap1 u) == 0) \/
  (1 < u < (7#6) /\ hat (wrap1 u) == 6 * (u - 1)) \/
  ((7#6) <= u /\ hat (wrap1 u) == 1).
Proof.
  intro Hu. unfold hat, wrap1. cbv zeta.
  qcase u 0; cbv iota; [qcase 1 (u + 1) | qcase 1 u]; cbv iota; qcases;
    first [ exfalso; lra | idtac ].
  all: pick7.
Qed.

Lemma F_range (u : Q) : -(1#3) <= u <= (4#3) -> 0 <= hat (wrap1 u) <= 1.
Proof.
  intro Hu.
  destruct (F_spec u Hu) as [[B E]|[[B E]|[[B E]|[[B E]|[[B E]|[[B E]|[B E]]]]]]];
    rewrite E; lra.
Qed.

(** The hue shape is 6-Lipschitz. *)
Lemma F_lip (u v : Q) : -(1#3) <= u <= (4#3) -> -(1#3) <= v <= (4#3) ->
  Qabs (hat (wrap1 v) - hat (wrap1 u)) <= 6 * Qabs (v - u).
Proof.
  intros Hu Hv.
  pose proof (Qle_Qabs (v - u)) as A1. pose proof (Qle_Qabs (- (v - u))) as A2.
  rewrite Qabs_opp in A2. apply Qabs_Qle_condition.
  destruct (F_spec u Hu) as [[B E]|[[B E]|[[B E]|[[B E]|[[B E]|[[B E]|[B E]]]]]]];
    rewrite E;
  destruct (F_spec v Hv) as [[C F]|[[C F]|[[C F]|[[C F]|[[C F]|[[C F]|[C F]]]]]]];
    rewrite F; split; lra.
Qed.

Lemma mid_range (l : Q) : 0 <= l <= 1 -> 0 <= mid l <= (1#2).
Proof. intro H. unfold mid. qcase l (1#2); lra. Qed.

Lemma mid_lip (l m : Q) : Qabs (mid m - mid l) <= Qabs (m - l).
Proof.
  pose proof (Qle_Qabs (m - l)) as A1. pose proof (Qle_Qabs (- (m - l))) as A2.
  rewrite Qabs_opp in A2. apply Qabs_Qle_condition.
  unfold mid. qcase l (1#2); qcase m (1#2); split; lra.
Qed.

(** Moving [l], [s] and the hue by at most 1/200, 1/200 and 1/720 moves
    a channel by at most 1/48. *)
Lemma channel_of_close (L S T l s t : Q) :
  0 <= L <= 1 -> 0 <= l <= 1 -> 0 <= S <= 1 -> 0 <= s <= 1 ->
  -(1#3) <= T <= (4#3) -> -(1#3) <= t <= (4#3) ->
  Qabs (l - L) <= (1#200) -> Qabs (s - S) <= (1#200) -> Qabs (t - T) <= (1#720) ->
  Qabs (channel_of l s t - channel_of L S T) <= (1#48).
Proof.
  intros HL Hl HS Hs Hu Hv EL ES EH.
  pose proof (F_range _ Hu) as FU. pose proof (F_range _ Hv) as FV.
  pose proof (F_lip _ _ Hu Hv) as FL.
  pose proof (mid_range _ HL) as ML. pose proof (mid_range _ Hl) as Ml.
  pose proof (mid_lip L l) as MD.
  set (F := hat (wrap1 T)) in *. set (F' := hat (wrap1 t)) in *.
  set (m := mid L) in *. set (m' := mid l) in *.
  assert (E : channel_of l s t - channel_of L S T ==
              (l - L) + ((s - S) * m' + S * (m' - m)) * (2 * F' - 1) + 2 * (S * m) * (F' - F))
    by (unfold channel_of; fold F F' m m'; ring).
  rewrite E.
  assert (B1 : Qabs ((s - S) * m') <= (1#200) * (1#2)).
  { rewrite Qabs_Qmult, (Qabs_pos m') by lra.
    apply Qmult_le_compat_nonneg; [split; [apply Qabs_nonneg|exact ES]|lra]. }
  assert (B2 : Qabs (S * (m' - m)) <= 1 * (1#200)).
  { rewrite Qabs_Qmult, (Qabs_pos S) by lra.
    apply Qmult_le_compat_nonneg; [lra|split; [apply Qabs_nonneg|]].
    eapply Qle_trans; [exact MD|]. exact EL. }
  assert (B3 : Qabs ((s - S) * m' + S * (m' - m)) <= (3#400)).
  { eapply Qle_trans; [apply Qabs_triangle|]. lra. }
  assert (B4 : Qabs (((s - S) * m' + S * (m' - m)) * (2 * F' - 1)) <= (3#400) * 1).
  { rewrite Qabs_Qmult.
    apply Qmult_le_compat_nonneg; [split; [apply Qabs_nonneg|exact B3]|].
    split; [apply Qabs_nonneg|]. apply Qabs_Qle_condition. lra. }
  assert (B5 : 0 <= S * m <= 1 * (1#2)).
  { split; [apply Qmult_le_0_compat; lra|apply Qmult_le_compat_nonneg; lra]. }
  assert (B6 : Qabs (F' - F) <= (1#120)).
  { eapply Qle_trans; [exact FL|]. lra. }
  assert (B7 : Qabs (2 * (S * m) * (F' - F)) <= (2 * (1#2)) * (1#120)).
  { rewrite Qabs_Qmult.
    apply Qmult_le_compat_nonneg; [|split; [apply Qabs_nonneg|exact B6]].
    split; [apply Qabs_nonneg|]. rewrite Qabs_pos by lra. lra. }
  eapply Qle_trans; [apply Qabs_triangle|].
  pose proof (Qabs_triangle (l - L) (((s - S) * m' + S * (m' - m)) * (2 * F' - 1))) as T'.
  lra.
Qed.

(** The hue and saturation of [rgbToHSL] before rounding. *)
Definition hs_exact (r g b : Q) : Q * Q :=
  let mx := js_max r (js_max g b) in
  let mn := js_min r (js_min g b) in
  let diff := mx - mn in
  let l := (mx + mn) / 2 in
  if qeq diff 0 then (0, 0)
  else
    let s := if qlt (1#2) l then diff / (2 - mx - mn) else diff / (mx + mn) in
    let h :=
      if qeq mx r then (g - b) / diff + (if qlt g b then 6 else 0)
      else if qeq mx g then (b - r) / diff + 2
      else if qeq mx b then (r - g) / diff + 4
      else 0 in
    (h / 6, s).

Lemma rgbToHSL_unfold (r0 g0 b0 : Z) :
  rgbToHSL (r0, g0, b0) =
  (inject_Z (js_round (fst (hs_exact (inject_Z r0 / 255) (inject_Z g0 / 255)
                                     (inject_Z b0 / 255)) * 360)),
   inject_Z (js_round (snd (hs_exact (inject_Z r0 / 255) (inject_Z g0 / 255)
                                     (inject_Z b0 / 255)) * 100)),
   inject_Z (js_round ((js_max (inject_Z r0 / 255)
                          (js_max (inject_Z g0 / 255) (inject_Z b0 / 255)) +
                        js_min (inject_Z r0 / 255)
                          (js_min (inject_Z g0 / 255) (inject_Z b0 / 255))) / 2 * 100))).
Proof.
  unfold rgbToHSL, hs_exact. cbv zeta.
  destruct (qeq _ 0); reflexivity.
Qed.

Ltac qcases_inner :=
  repeat match goal with
  | |- context [qlt ?a ?b] =>
      lazymatch a with context [qlt _ _] => fail | _ =>
      lazymatch b with context [qlt _ _] => fail | _ => qcase a b; cbv iota end end
  end.

Lemma max3_spec (r g b : Q) :
  r <= js_max r (js_max g b) /\ g <= js_max r (js_max g b) /\ b <= js_max r (js_max g b) /\
  (js_max r (js_max g b) == r \/ js_max r (js_max g b) == g \/ js_max r (js_max g b) == b).
Proof.
  unfold js_max. qcases_inner;
    (split; [lra|split; [lra|split; [lra|]]]);
    first [left; reflexivity | right; left; reflexivity | right; right; reflexivity].
Qed.

Lemma min3_spec (r g b : Q) :
  js_min r (js_min g b) <= r /\ js_min r (js_min g b) <= g /\ js_min r (js_min g b) <= b /\
  (js_min r (js_min g b) == r \/ js_min r (js_min g b) == g \/ js_min r (js_min g b) == b).
Proof.
  unfold js_min. qcases_inner;
    (split; [lra|split; [lra|split; [lra|]]]);
    first [left; reflexivity | right; left; reflexivity | right; right; reflexivity].
Qed.

(** The saturation times [mid l] is half the chroma. *)
Lemma K_half (mx mn : Q) : 0 <= mn -> mn < mx -> mx <= 1 ->
  (if qlt (1#2) ((mx + mn) / 2) then (mx - mn) / (2 - mx - mn) else (mx - mn) / (mx + mn))
    * mid ((mx + mn) / 2) == (mx - mn) / 2.
Proof.
  intros H0 H1 H2. unfold mid.
  qcase (1#2) ((mx + mn) / 2); cbv iota; qcase ((mx + mn) / 2) (1#2); cbv iota.
  - exfalso. lra.
  - field. intro X. unfold Qdiv in *. change (/ 2) with (1#2) in *. lra.
  - field. intro X. lra.
  - assert (Es : mx + mn == 1) by (unfold Qdiv in *; change (/ 2) with (1#2) in *; lra).
    rewrite Es. field.
Qed.

Ltac qnorm := unfold Qdiv in *; change (/ 6) with (1#6) in *; change (/ 2) with (1#2) in *.

Lemma ratio_neg (a d : Q) : 0 < d -> - d <= a < 0 -> -1 <= a / d < 0.
Proof.
  intros Hd [H1 H2]. split.
  - apply Qle_shift_div_l; [exact Hd|]. lra.
  - apply Qlt_shift_div_r; [exact Hd|]. lra.
Qed.

Ltac chan x num d Emx Emn :=
  match goal with
  | |- _ + _ * (2 * hat (wrap1 ?u) - 1) == _ =>
    let Hu := fresh "Hu" in
    assert (Hu : -(1#3) <= u <= (4#3)) by (qnorm; lra);
    let B := fresh "B" in let Ef := fresh "Ef" in
    destruct (F_spec u Hu) as [[B Ef]|[[B Ef]|[[B Ef]|[[B Ef]|[[B Ef]|[[B Ef]|[B Ef]]]]]]];
    first [ exfalso; qnorm; lra
          | rewrite Ef;
            let Hxd := fresh "Hxd" in
            assert (Hxd : x * d == num) by (unfold x; field; lra);
            clearbody x; rewrite Emx, Emn in *; qnorm; nra ]
  end.

(** Without rounding, [hslToRgb] inverts [rgbToHSL] exactly. *)
Lemma channel_of_exact (r g b : Q) :
  0 <= r <= 1 -> 0 <= g <= 1 -> 0 <= b <= 1 ->
  let L := (js_max r (js_max g b) + js_min r (js_min g b)) / 2 in
  let H := fst (hs_exact r g b) in
  let S := snd (hs_exact r g b) in
  channel_of L S (H + (1#3)) == r /\ channel_of L S H == g /\
  channel_of L S (H - (1#3)) == b.
Proof.
  intros Hr Hg Hb L H S. subst L H S.
  destruct (max3_spec r g b) as (M1 & M2 & M3 & M4).
  destruct (min3_spec r g b) as (N1 & N2 & N3 & N4).
  unfold hs_exact. cbv zeta.
  set (mx := js_max r (js_max g b)) in *.
  set (mn := js_min r (js_min g b)) in *.
  destruct (qeq (mx - mn) 0) eqn:D.
  - apply Qeq_bool_eq in D. cbn [fst snd].
    assert (G : forall t, channel_of ((mx + mn) / 2) 0 t == (mx + mn) / 2)
      by (intro t; unfold channel_of; ring).
    rewrite !G. qnorm. split; [|split]; lra.
  - apply Qeq_bool_neq in D.
    assert (Dp : mn < mx).
    { destruct (Qlt_le_dec mn mx) as [X|X]; [exact X|]. exfalso. apply D. lra. }
    assert (Hmx : mx <= 1) by (destruct M4 as [X|[X|X]]; lra).
    assert (Hmn : 0 <= mn) by (destruct N4 as [X|[X|X]]; lra).
    cbn [fst snd].
    assert (K : forall t,
      channel_of ((mx + mn) / 2)
        (if qlt (1#2) ((mx + mn) / 2) then (mx - mn) / (2 - mx - mn)
         else (mx - mn) / (mx + mn)) t ==
      (mx + mn) / 2 + (mx - mn) / 2 * (2 * hat (wrap1 t) - 1)).
    { intro t. unfold channel_of. rewrite <- (K_half mx mn) by lra. ring. }
    rewrite !K.
    assert (Dq : 0 < mx - mn) by lra.
    destruct (qeq mx r) eqn:Er; [apply Qeq_bool_eq in Er|apply Qeq_bool_neq in Er].
    + qcase g b; cbv iota.
      * assert (En : mn == g) by (destruct N4 as [X|[X|X]]; lra).
        pose proof (ratio_neg (g - b) (mx - mn) Dq ltac:(lra)) as Hx.
        set (x := (g - b) / (mx - mn)) in *.
        split; [|split]; chan x (g - b) (mx - mn) Er En.
      * assert (En : mn == b) by (destruct N4 as [X|[X|X]]; lra).
        pose proof (ratio_unit_pos (g - b) (mx - mn) Dq ltac:(lra)) as Hx.
        set (x := (g - b) / (mx - mn)) in *.
        split; [|split]; chan x (g - b) (mx - mn) Er En.
    + destruct (qeq mx g) eqn:Eg; [apply Qeq_bool_eq in Eg|apply Qeq_bool_neq in Eg].
      * destruct (Qlt_le_dec b r) as [Hbr|Hbr].
        -- assert (En : mn == b) by (destruct N4 as [X|[X|X]]; lra).
           pose proof (ratio_neg (b - r) (mx - mn) Dq ltac:(lra)) as Hx.
           set (x := (b - r) / (mx - mn)) in *.
           split; [|split]; chan x (b - r) (mx - mn) Eg En.
        -- assert (En : mn == r) by (destruct N4 as [X|[X|X]]; lra).
           pose proof (ratio_unit_pos (b - r) (mx - mn) Dq ltac:(lra)) as Hx.
           set (x := (b - r) / (mx - mn)) in *.
           split; [|split]; chan x (b - r) (mx - mn) Eg En.
      * destruct (qeq mx b) eqn:Eb; [apply Qeq_bool_eq in Eb|apply Qeq_bool_neq in Eb].
        -- destruct (Qlt_le_dec r g) as [Hrg|Hrg].
           ++ assert (En : mn == r) by (destruct N4 as [X|[X|X]]; lra).
              pose proof (ratio_neg (r - g) (mx - mn) Dq ltac:(lra)) as Hx.
              set (x := (r - g) / (mx - mn)) in *.
              split; [|split]; chan x (r - g) (mx - mn) Eb En.
           ++ assert (En : mn == g) by (destruct N4 as [X|[X|X]]; lra).
              pose proof (ratio_unit_pos (r - g) (mx - mn) Dq ltac:(lra)) as Hx.
              set (x := (r - g) / (mx - mn)) in *.
              split; [|split]; chan x (r - g) (mx - mn) Eb En.
        -- exfalso. destruct M4 as [X|[X|X]]; contradiction.
Qed.

Lemma js_round_approx (x : Q) : x - (1#2) < inject_Z (js_round x) <= x + (1#2).
Proof.
  unfold js_round. pose proof (Qfloor_le (x + (1#2))) as F1.
  pose proof (Qlt_floor (x + (1#2))) as F2.
  rewrite inject_Z_plus in F2. change (inject_Z 1) with 1 in F2. split; lra.
Qed.

(** A component rounded to a whole number over [k]: within [1 / (2 k)],
    and still in [[0, 1]]. *)
Lemma round_unit (x : Q) (k : Z) : (0 < k)%Z -> 0 <= x <= 1 ->
  0 <= inject_Z (js_round (x * inject_Z k)) / inject_Z k <= 1 /\
  Qabs (inject_Z (js_round (x * inject_Z k)) / inject_Z k - x) <= 1 / (2 * inject_Z k).
Proof.
  intros Hk Hx.
  assert (K : 0 < inject_Z k) by (change 0 with (inject_Z 0); rewrite <- Zlt_Qlt; exact Hk).
  pose proof (js_round_approx (x * inject_Z k)) as A.
  assert (R : (0 <= js_round (x * inject_Z k) <= k)%Z).
  { apply js_round_bounds. split.
    - change (inject_Z 0) with 0. apply Qmult_le_0_compat; lra.
    - setoid_replace (inject_Z k) with (1 * inject_Z k) at 2 by ring.
      apply Qmult_le_compat_r; lra. }
  set (n := js_round (x * inject_Z k)) in *.
  destruct R as [R1 R2]. rewrite Zle_Qle in R1, R2. change (inject_Z 0) with 0 in R1.
  split.
  - split.
    + apply Qle_shift_div_l; [exact K|]. lra.
    + apply Qle_shift_div_r; [exact K|]. lra.
  - apply Qabs_Qle_condition.
    assert (E1 : inject_Z n / inject_Z k - x == (inject_Z n - x * inject_Z k) / inject_Z k)
      by (field; intro; lra).
    assert (E2 : 1 / (2 * inject_Z k) == (1#2) / inject_Z k) by (field; intro; lra).
    rewrite E1, E2. split.
    + setoid_replace (- ((1#2) / inject_Z k)) with (- (1#2) / inject_Z k)
        by (field; intro; lra).
      apply Qle_shift_div_l; [exact K|].
      setoid_replace (- (1#2) / inject_Z k * inject_Z k) with (- (1#2)) by (field; intro; lra).
      lra.
    + apply Qle_shift_div_r; [exact K|].
      setoid_replace ((1#2) / inject_Z k * inject_Z k) with (1#2) by (field; intro; lra).
      lra.
Qed.

(** The rounded channel is within 5 of the original. *)
Lemma round_close (v : Q) (c : Z) :
  Qabs (v - inject_Z c / 255) <= (1#48) -> (Z.abs (js_round (v * 255) - c) <= 5)%Z.
Proof.
  intro H. apply Qabs_Qle_condition in H.
  pose proof (js_round_approx (v * 255)) as A.
  set (n := js_round (v * 255)) in *.
  assert (U : inject_Z n < inject_Z (c + 6)).
  { rewrite inject_Z_plus. unfold Qdiv in H. change (/ 255) with (1#255) in H.
    change (inject_Z 6) with 6. lra. }
  assert (D : inject_Z (c - 6) < inject_Z n).
  { unfold Z.sub. rewrite inject_Z_plus. unfold Qdiv in H. change (/ 255) with (1#255) in H.
    rewrite inject_Z_opp. change (inject_Z 6) with 6. lra. }
  rewrite <- Zlt_Qlt in U, D. lia.
Qed.

Lemma Qabs_shift (a b o : Q) : Qabs (a + o - (b + o)) == Qabs (a - b).
Proof. apply Qabs_wd. ring. Qed.

(** Every valid RGB triple comes back from [rgbToHSL] then [hslToRgb]
    within 5 per channel. *)
Lemma roundtrip_within_5 (c : RGB) :
  ConversionFacts.valid_rgb c -> ConversionFacts.roundtrip_within 5 c = true.
Proof.
  destruct c as [[r0 g0] b0]. intros (Hr & Hg & Hb).
  unfold ConversionFacts.roundtrip_within.
  rewrite rgbToHSL_unfold, hslToRgb_channels.
  pose proof (channel_unit r0 Hr) as Ur.
  pose proof (channel_unit g0 Hg) as Ug.
  pose proof (channel_unit b0 Hb) as Ub.
  pose proof (channel_of_exact _ _ _ Ur Ug Ub) as X. cbv zeta in X.
  destruct X as (Xr & Xg & Xb).
  pose proof (rgbToHSL_hs_unit _ _ _ Ur Ug Ub) as HS. cbv zeta in HS.
  destruct (max3_spec (inject_Z r0 / 255) (inject_Z g0 / 255) (inject_Z b0 / 255))
    as (M1 & M2 & M3 & M4).
  destruct (min3_spec (inject_Z r0 / 255) (inject_Z g0 / 255) (inject_Z b0 / 255))
    as (N1 & N2 & N3 & N4).
  set (r := inject_Z r0 / 255) in *.
  set (g := inject_Z g0 / 255) in *.
  set (b := inject_Z b0 / 255) in *.
  set (H := fst (hs_exact r g b)) in *.
  set (S := snd (hs_exact r g b)) in *.
  assert (HSr : 0 <= H <= 1 /\ 0 <= S <= 1).
  { apply HS. unfold H, S. rewrite <- surjective_pairing. reflexivity. }
  clear HS. destruct HSr as [HH HS].
  set (mx := js_max r (js_max g b)) in *.
  set (mn := js_min r (js_min g b)) in *.
  assert (HL : 0 <= (mx + mn) / 2 <= 1).
  { assert (0 <= mn) by (destruct N4 as [X|[X|X]]; lra).
    assert (mx <= 1) by (destruct M4 as [X|[X|X]]; lra).
    unfold Qdiv. change (/ 2) with (1#2). lra. }
  set (L := (mx + mn) / 2) in *.
  destruct (round_unit H 360 eq_refl HH) as [RH1 RH2].
  destruct (round_unit S 100 eq_refl HS) as [RS1 RS2].
  destruct (round_unit L 100 eq_refl HL) as [RL1 RL2].
  change (inject_Z 360) with 360 in RH1, RH2.
  change (inject_Z 100) with 100 in RS1, RS2, RL1, RL2.
  change (1 / (2 * 360)) with (1#720) in RH2.
  change (1 / (2 * 100)) with (1#200) in RS2, RL2.
  set (h' := inject_Z (js_round (H * 360)) / 360) in *.
  set (s' := inject_Z (js_round (S * 100)) / 100) in *.
  set (l' := inject_Z (js_round (L * 100)) / 100) in *.
  cbv beta iota.
  rewrite !andb_true_iff, !Z.leb_le.
  split; [split|]; apply round_close.
  - fold r. rewrite <- Xr. apply channel_of_close; try assumption; try lra.
    rewrite Qabs_shift. exact RH2.
  - fold g. rewrite <- Xg. apply channel_of_close; try assumption; try lra.
  - fold b. rewrite <- Xb. apply channel_of_close; try assumption; try lra.
    setoid_replace (h' - (1 # 3) - (H - (1 # 3))) with (h' - H) by ring. exact RH2.
Qed.
End RoundTripFacts.

(** C4 (amended): the round trip [rgbToHSL] then [hslToRgb] moves each
    channel of any valid RGB triple (channels in [[0, 255]]) by at most 5,
    and 5 is attained: rgb(2, 228, 230) goes to hsl(181, 98, 45) and back
    to rgb(2, 223, 227), so no bound of 4 holds. *)
Theorem rgb_hsl_roundtrip_within_5 :
  (forall c, ConversionFacts.valid_rgb c -> ConversionFacts.roundtrip_within 5 c = true) /\
  rgbToHSL (2, 228, 230) = (181, 98, 45)%Q /\
  hslToRgb (rgbToHSL (2, 228, 230)) = (2, 223, 227) /\
  ConversionFacts.roundtrip_within 4 (2, 228, 230) = false.
Proof.
  split; [exact RoundTripFacts.roundtrip_within_5|].
  split; [vm_compute; reflexivity|]. split; vm_compute; reflexivity.
Qed.

Lemma rgb_hsl_roundtrip_within_5_witness :
  ConversionFacts.valid_rgb (2, 228, 230) /\
  ConversionFacts.roundtrip_within 5 (2, 228, 230) = true.
Proof.
  assert (Hv : ConversionFacts.valid_rgb (2, 228, 230)) by (simpl; lia).
  split; [exact Hv|].
  exact (proj1 rgb_hsl_roundtrip_within_5 (2, 228, 230) Hv).
Defined.

(** For hues in [[0, 360]] and a ratio in [[0, 1]], [mixHSLColors] returns
    whole numbers: a hue in [[0, 360]] (360 itself when the mixed hue
    rounds up to it) and a saturation and lightness in [[0, 100]], whatever
    the saturations and lightnesses of the inputs. *)
Theorem mixHSLColors_range (hsl1 hsl2 : HSL) (ratio : Q) :
  (0 <= hsl_h hsl1 <= 360)%Q -> (0 <= hsl_h hsl2 <= 360)%Q -> (0 <= ratio <= 1)%Q ->
  exists h s l : Z,
    ColorUtilsMore.mixHSLColors hsl1 hsl2 ratio = (inject_Z h, inject_Z s, inject_Z l) /\
    0 <= h <= 360 /\ 0 <= s <= 100 /\ 0 <= l <= 100.
Proof.
  destruct hsl1 as [[h1 s1] l1], hsl2 as [[h2 s2] l2].
  unfold hsl_h. cbn [fst snd]. intros H1 H2 R.
  unfold ColorUtilsMore.mixHSLColors. cbv zeta.
  eexists _, _, _. split; [reflexivity|].
  split; [|split; apply JsNumFacts.js_round_bounds; change (inject_Z 0) with 0%Q;
           change (inject_Z 100) with 100%Q; apply JsNumFacts.js_max_min_range; lra].
  apply JsNumFacts.js_round_bounds. change (inject_Z 0) with 0%Q. change (inject_Z 360) with 360%Q.
  JsNumFacts.qcase 180%Q (Qabs (h2 - h1)).
  - match goal with |- context [js_mod ?a 360] =>
      pose proof (JsNumFacts.js_mod_360_bound a) as M; set (m := js_mod a 360) in * end.
    JsNumFacts.qcase m 0%Q; lra.
  - split; nra.
Qed.

(** For whole-number colours with hues in [[0, 360)] and saturation and
    lightness in [[0, 100]], mixing with ratio 0 gives the first colour and
    mixing with ratio 1 gives the second, also when the hue takes the way
    round through 0. *)
Theorem mixHSLColors_endpoints (h1 s1 l1 h2 s2 l2 : Z) :
  0 <= h1 < 360 -> 0 <= s1 <= 100 -> 0 <= l1 <= 100 ->
  0 <= h2 < 360 -> 0 <= s2 <= 100 -> 0 <= l2 <= 100 ->
  ColorUtilsMore.mixHSLColors (inject_Z h1, inject_Z s1, inject_Z l1)
    (inject_Z h2, inject_Z s2, inject_Z l2) 0 = (inject_Z h1, inject_Z s1, inject_Z l1) /\
  ColorUtilsMore.mixHSLColors (inject_Z h1, inject_Z s1, inject_Z l1)
    (inject_Z h2, inject_Z s2, inject_Z l2) 1 = (inject_Z h2, inject_Z s2, inject_Z l2).
Proof.
  intros Ha1 Hs1 Hl1 Ha2 Hs2 Hl2.
  apply inject_range_lt in Ha1, Ha2. apply inject_range in Hs1, Hl1, Hs2, Hl2.
  revert Ha1 Hs1 Hl1 Ha2 Hs2 Hl2.
  change (inject_Z 0) with 0%Q. change (inject_Z 360) with 360%Q.
  change (inject_Z 100) with 100%Q. intros Ha1 Hs1 Hl1 Ha2 Hs2 Hl2.
  unfold ColorUtilsMore.mixHSLColors. cbv beta iota zeta.
  split; f_equal; [f_equal| |f_equal|]; f_equal;
    match goal with
    | |- js_round _ = ?z =>
        transitivity (js_round (inject_Z z)); [apply js_round_comp|apply js_round_inject]
    end;
    try (eapply Qeq_trans; [apply clamp_id; lra|lra]);
    (JsNumFacts.qcase 180%Q (Qabs (inject_Z h2 - inject_Z h1)); cbv iota; [|lra]);
    (JsNumFacts.qcase (inject_Z h2) (inject_Z h1); cbv iota).
  - eapply Qeq_trans; [apply wrap_id; lra|lra].
  - eapply Qeq_trans; [apply wrap_id; lra|lra].
  - eapply Qeq_trans; [apply wrap_sub; lra|lra].
  - assert (Hd : (180 < inject_Z h2 - inject_Z h1)%Q).
    { revert E. pattern (Qabs (inject_Z h2 - inject_Z h1)).
      apply Qabs_case; intros; lra. }
    eapply Qeq_trans; [apply wrap_neg; lra|lra].
Qed.

Lemma mixHSLColors_endpoints_witness :
  ColorUtilsMore.mixHSLColors (inject_Z 350, inject_Z 80, inject_Z 40)
    (inject_Z 20, inject_Z 50, inject_Z 60) 0 = (inject_Z 350, inject_Z 80, inject_Z 40) /\
  ColorUtilsMore.mixHSLColors (inject_Z 350, inject_Z 80, inject_Z 40)
    (inject_Z 20, inject_Z 50, inject_Z 60) 1 = (inject_Z 20, inject_Z 50, inject_Z 60).
Proof. apply (mixHSLColors_endpoints 350 80 40 20 50 60); lia. Defined.

Lemma mixHSLColors_range_witness :
  (0 <= hsl_h (350, 80, 40)%Q <= 360)%Q /\ (0 <= hsl_h (20, 50, 60)%Q <= 360)%Q /\
  exists h s l : Z,
    ColorUtilsMore.mixHSLColors (350, 80, 40)%Q (20, 50, 60)%Q (1 # 2) =
      (inject_Z h, inject_Z s, inject_Z l) /\
    0 <= h <= 360 /\ 0 <= s <= 100 /\ 0 <= l <= 100.
Proof.
  assert (A : (0 <= hsl_h (350, 80, 40)%Q <= 360)%Q)
    by (unfold hsl_h; cbn [fst snd]; split; lra).
  assert (B : (0 <= hsl_h (20, 50, 60)%Q <= 360)%Q)
    by (unfold hsl_h; cbn [fst snd]; split; lra).
  split; [exact A|]. split; [exact B|].
  apply mixHSLColors_range; [exact A|exact B|split; lra].
Defined.

(** ** Distance and text colour of js/color-utils.js *)

(** The colour-utils distance is symmetric; with hues in [[0, 360)] it is
    0 exactly when the two colours have equal hue, saturation and
    lightness; and hue 0 and hue 360 are at distance 0. *)
Theorem colorUtils_calculateColorDistance_props (c1 c2 : HSL) :
  ColorUtilsMore.calculateColorDistance c1 c2 = ColorUtilsMore.calculateColorDistance c2 c1 /\
  ((0 <= hsl_h c1 < 360)%Q -> (0 <= hsl_h c2 < 360)%Q ->
   (ColorUtilsMore.calculateColorDistance c1 c2 = 0%R <->
    (hsl_h c1 == hsl_h c2 /\ hsl_s c1 == hsl_s c2 /\ hsl_l c1 == hsl_l c2)%Q)) /\
  (forall s l : Q, ColorUtilsMore.calculateColorDistance (0, s, l)%Q (360, s, l)%Q = 0%R).
Proof.
  split; [|split].
  - destruct c1 as [[h1 s1] l1], c2 as [[h2 s2] l2].
    unfold ColorUtilsMore.calculateColorDistance. cbv beta iota zeta.
    f_equal. apply Qeq_eqR. rewrite (Qabs_Qminus h1 h2). ring.
  - destruct c1 as [[h1 s1] l1], c2 as [[h2 s2] l2].
    unfold hsl_h, hsl_s, hsl_l. cbn [fst snd]. intros H1 H2.
    unfold ColorUtilsMore.calculateColorDistance. cbv beta iota zeta.
    assert (A : (0 <= Qabs (h1 - h2) < 360)%Q)
      by (apply Qabs_case; intros; split; lra).
    assert (Z0 : Q2R 0 = 0%R) by (unfold Q2R; simpl; ring).
    set (d := Qabs (h1 - h2)) in *.
    set (hd := if qlt 180 d then (360 - d)%Q else d).
    assert (HD : (0 < hd \/ (hd == 0 /\ d == 0))%Q)
      by (unfold hd; JsNumFacts.qcase 180%Q d; cbv iota; lra).
    set (q := (hd * 2 * (hd * 2) + (s1 - s2) * 1 * ((s1 - s2) * 1) +
               (l1 - l2) * 1 * ((l1 - l2) * 1))%Q).
    assert (Q0 : (0 <= q)%Q)
      by (unfold q; pose proof (Qsq_nonneg (hd * 2)); pose proof (Qsq_nonneg ((s1 - s2) * 1));
          pose proof (Qsq_nonneg ((l1 - l2) * 1)); lra).
    split.
    + intro E. apply sqrt_eq_0 in E; [|rewrite <- Z0; apply Qle_Rle; exact Q0].
      rewrite <- Z0 in E. apply eqR_Qeq in E.
      apply Qsq_sum_zero in E as (Eh & Hs & Hl).
      destruct HD as [HD|[_ HD]]; [exfalso; lra|].
      unfold d in HD. revert HD. pattern (Qabs (h1 - h2)).
      apply Qabs_case; intros; repeat split; lra.
    + intros (Eh & Es & El).
      assert (D0 : (d == 0)%Q) by (unfold d; rewrite Eh; setoid_replace (h2 - h2)%Q with 0%Q by ring; reflexivity).
      assert (HD0 : (hd == 0)%Q)
        by (unfold hd; JsNumFacts.qcase 180%Q d; cbv iota; lra).
      assert (E : (q == 0)%Q) by (unfold q; rewrite HD0, Es, El; ring).
      rewrite (Qeq_eqR _ _ E), Z0. apply sqrt_0.
  - intros s l. unfold ColorUtilsMore.calculateColorDistance. cbv beta iota zeta.
    assert (T : qlt 180 (Qabs (0 - 360)) = true) by reflexivity.
    rewrite T. cbv iota.
    match goal with |- sqrt (Q2R ?x) = _ => assert (E : (x == 0)%Q) end.
    { setoid_replace (Qabs (0 - 360)) with 360%Q by reflexivity. ring. }
    rewrite (Qeq_eqR _ _ E). replace (Q2R 0) with 0%R by (unfold Q2R; simpl; ring).
    apply sqrt_0.
Qed.

Lemma colorUtils_calculateColorDistance_props_witness :
  (0 <= hsl_h (10, 20, 30)%Q < 360)%Q /\
  ColorUtilsMore.calculateColorDistance (10, 20, 30)%Q (10, 20, 30)%Q = 0%R.
Proof.
  assert (A : (0 <= hsl_h (10, 20, 30)%Q < 360)%Q)
    by (unfold hsl_h; cbn [fst snd]; split; lra).
  split; [exact A|].
  apply (proj2 (proj1 (proj2 (colorUtils_calculateColorDistance_props
           (10, 20, 30)%Q (10, 20, 30)%Q)) A A)).
  unfold hsl_h, hsl_s, hsl_l. cbn [fst snd]. repeat split; reflexivity.
Defined.

(** Whenever [hexToRgb] reads a colour whose luminance lies in
    [[0.19, 0.5]], [getContrastingTextColor] picks white text, although
    white fails the 4.5 AA check on that colour and black passes it. *)
Theorem getContrastingTextColor_white_fails (hex : string) (c : RGB) :
  hexToRgb hex = Some c -> (0.19 <= calculateLuminance c <= 0.5)%R ->
  ColorUtilsMore.getContrastingTextColor hex = "#ffffff"%string /\
  WcagChecks.passesContrastCheck c whiteRgb false = false /\
  WcagChecks.passesContrastCheck c blackRgb false = true.
Proof.
  intros H L. pose proof (hexToRgb_valid hex c H) as V.
  destruct (AccessibilityFacts.flags_of_luminance c V (proj1 L)) as [B W].
  unfold ColorUtilsMore.getContrastingTextColor, WcagChecks.passesContrastCheck.
  rewrite H. cbv zeta iota. rewrite B, W.
  destruct (Rlt_dec 0.5 (calculateLuminance c)); [lra|]. auto.
Qed.

Lemma getContrastingTextColor_white_fails_witness :
  hexToRgb "#f00" = Some (255, 0, 0)%Z /\
  (0.19 <= calculateLuminance (255, 0, 0)%Z <= 0.5)%R /\
  ColorUtilsMore.getContrastingTextColor "#f00" = "#ffffff"%string.
Proof.
  assert (H : hexToRgb "#f00" = Some (255, 0, 0)%Z) by (vm_compute; reflexivity).
  assert (L : (0.19 <= calculateLuminance (255, 0, 0)%Z <= 0.5)%R)
    by (rewrite AccessibilityFacts.luminance_red; lra).
  split; [exact H|]. split; [exact L|].
  apply (getContrastingTextColor_white_fails "#f00" (255, 0, 0)%Z H L).
Defined.

(** ** The dark-mode search for a fully accessible colour *)

Module DarkSearchFacts.

Import JsNumFacts Contrast ContrastFacts AccessibilityFacts RangeFacts.

Lemma in_firstn {A : Type} (n : nat) (x : A) (l : list A) : In x (firstn n l) -> In x l.
Proof.
  intro H. rewrite <- (firstn_skipn n l). apply in_or_app. left. exact H.
Qed.

(** Every value of the search range lies in [[lo, hi]] when the bounds
    and the centre do. *)
Lemma ui_generateSearchRange_bounds (center min max step lo hi x : Q) :
  (0 <= step -> lo <= min -> min <= max -> max <= hi -> lo <= center <= hi ->
   In x (UiSearch.generateSearchRange center min max step) -> lo <= x <= hi)%Q.
Proof.
  intros Hs H1 H2 H3 Hc Hx. unfold UiSearch.generateSearchRange in Hx.
  apply sort_by_dist_in in Hx. destruct Hx as [<-|Hx].
  - pose proof (js_max_min_range min max center H2). lra.
  - apply in_flat_map in Hx as (i & Hi & Hx).
    apply count_up_bounds in Hi; [|exact Hs].
    apply in_app_or in Hx. destruct Hx as [Hx|Hx].
    + destruct (qle min (center - i)) eqn:E; [|contradiction].
      apply qle_true in E. destruct Hx as [<-|[]]. lra.
    + destruct (qle (center + i) max) eqn:E; [|contradiction].
      apply qle_true in E. destruct Hx as [<-|[]]. lra.
Qed.

Local Open Scope R_scope.

Lemma round_ge_450 (x : R) : 450 <= IZR (js_roundR x) -> 449.5 <= x.
Proof.
  intro H. unfold js_roundR in H. destruct (base_Int_part (x + / 2)) as [B _].
  unfold_decimals. lra.
Qed.

(** Passing 4.5 against both black and white pins the luminance to a
    narrow band. *)
Lemma band_of_flags (c : RGB) :
  valid_rgb c ->
  Rgeb (getContrastRatio c blackRgb) 4.5 = true ->
  Rgeb (getContrastRatio c whiteRgb) 4.5 = true ->
  0.17475 <= calculateLuminance c <= 0.1836.
Proof.
  intros Hv HB HW. pose proof (calculateLuminance_range c Hv) as R.
  apply Rgeb_true_iff in HB, HW.
  unfold getContrastRatio in HB, HW.
  set (L := calculateLuminance c) in *.
  rewrite luminance_black, Rmax_left, Rmin_right in HB by lra.
  rewrite luminance_white, Rmax_right, Rmin_left in HW by lra.
  assert (GB : 450 <= IZR (js_roundR ((L + 0.05) / (0 + 0.05) * 100)))
    by (unfold_decimals; unfold Rdiv in *; lra).
  assert (GW : 450 <= IZR (js_roundR ((1 + 0.05) / (L + 0.05) * 100)))
    by (unfold_decimals; unfold Rdiv in *; lra).
  apply round_ge_450 in GB, GW.
  replace ((L + 0.05) / (0 + 0.05) * 100) with ((L + 0.05) * 2000) in GB
    by (unfold_decimals; field).
  assert (Hp : 0 < L + 0.05) by (unfold_decimals; lra).
  set (y := / (L + 0.05)).
  assert (Y : y * (L + 0.05) = 1) by (unfold y; field; lra).
  replace ((1 + 0.05) / (L + 0.05) * 100) with (105 * y) in GW
    by (unfold y; unfold_decimals; field; lra).
  assert (P : 0 <= (105 * y - 449.5) * (L + 0.05))
    by (apply Rmult_le_pos; lra).
  unfold_decimals. split; nra.
Qed.

Local Open Scope Q_scope.

(** A candidate the search may store. *)
Definition dark_ok (c : HSL) : Prop :=
  fullyAccessible c = true /\ 0 <= hsl_h c <= 360 /\ 0 <= hsl_s c <= 100 /\
  In (hsl_l c) [35; 40; 45; 50; 55; 60].

Definition dark_inv (st : DarkState) : Prop :=
  match fst st with
  | Some c => dark_ok c
  | None => True
  end.

Lemma dark_saturationLoop_inv orig h l ss st :
  0 <= h <= 360 -> In l [35; 40; 45; 50; 55; 60] ->
  Forall (fun s => 0 <= s <= 100) ss ->
  dark_inv st -> dark_inv (saturationLoop orig h l ss st).
Proof.
  intros Hh Hl Hss. revert st. induction Hss as [|s rest Hs Hrest IH]; intros st H;
    cbn [saturationLoop]; [exact H|].
  destruct (fullyAccessible (h, s, l)) eqn:E; [|apply IH; exact H].
  assert (OK : dark_ok (h, s, l))
    by (unfold dark_ok, hsl_h, hsl_s, hsl_l; cbn [fst snd]; tauto).
  destruct (lt_min _ _); [|apply IH; exact H].
  destruct (qlt _ 25); [exact OK|apply IH; exact OK].
Qed.

Lemma dark_lightnessLoop_inv orig h ls ss st :
  0 <= h <= 360 -> (forall l, In l ls -> In l [35; 40; 45; 50; 55; 60]) ->
  Forall (fun s => 0 <= s <= 100) ss ->
  dark_inv st -> dark_inv (lightnessLoop orig h ls ss st).
Proof.
  intros Hh Hls Hss. revert st. induction ls as [|l rest IH]; intros st H;
    cbn [lightnessLoop]; [exact H|].
  pose proof (dark_saturationLoop_inv orig h l ss st Hh (Hls l (or_introl eq_refl)) Hss H) as H1.
  destruct (closeEnough _); [exact H1|].
  apply IH; [intros l' I; apply Hls; right; exact I|exact H1].
Qed.

Lemma dark_hueLoop_inv orig hs ls ss st :
  Forall (fun h => 0 <= h <= 360) hs ->
  (forall l, In l ls -> In l [35; 40; 45; 50; 55; 60]) ->
  Forall (fun s => 0 <= s <= 100) ss ->
  dark_inv st -> dark_inv (hueLoop orig hs ls ss st).
Proof.
  intros Hhs Hls Hss. revert st. induction Hhs as [|h rest Hh Hrest IH]; intros st H;
    cbn [hueLoop]; [exact H|].
  pose proof (dark_lightnessLoop_inv orig h ls ss st Hh Hls Hss H) as H1.
  destruct (closeEnough _); [exact H1|apply IH; exact H1].
Qed.

End DarkSearchFacts.

Import DarkSearchFacts.

(** For an original hue in [[0, 360]] and saturation in [[0, 100]],
    whatever [findFullyAccessibleColorForDarkMode] returns passes AA for
    normal and large text against both black and white, has one of the
    listed lightnesses 35 to 60, and has a WCAG luminance between 0.17475
    and 0.1836, the only band where both 4.5 checks hold. *)
Theorem findFullyAccessibleColorForDarkMode_result (originalHSL : HSL) :
  (0 <= hsl_h originalHSL <= 360)%Q -> (0 <= hsl_s originalHSL <= 100)%Q ->
  match findFullyAccessibleColorForDarkMode originalHSL with
  | Some c =>
      fullyAccessible c = true /\ In (hsl_l c) [35; 40; 45; 50; 55; 60]%Q /\
      (0.17475 <= calculateLuminance (hslToRgb c) <= 0.1836)%R
  | None => True
  end.
Proof.
  destruct originalHSL as [[h s] l]. unfold hsl_h, hsl_s. cbn [fst snd]. intros Hh Hs.
  unfold findFullyAccessibleColorForDarkMode. cbv beta iota zeta.
  assert (INV : dark_inv (hueLoop (h, s, l)
             (firstn 8 (UiSearch.generateSearchRange h 0 360 15))
             [35; 40; 45; 50; 55; 60]%Q
             (firstn 6 (UiSearch.generateSearchRange s 30 85 10)) (None, None))).
  { apply dark_hueLoop_inv; [| | |exact I].
    - apply Forall_forall. intros x Hx. apply in_firstn in Hx.
      apply (ui_generateSearchRange_bounds h 0 360 15); try lra; exact Hx.
    - intros x Hx. exact Hx.
    - apply Forall_forall. intros x Hx. apply in_firstn in Hx.
      apply (ui_generateSearchRange_bounds s 30 85 10); try lra; exact Hx. }
  revert INV. unfold dark_inv.
  destruct (fst (hueLoop _ _ _ _ _)) as [[[ch cs] cl]|]; [|trivial].
  unfold dark_ok, hsl_h, hsl_s, hsl_l. cbn [fst snd]. intros (F & Ch & Cs & Cl).
  split; [exact F|]. split; [exact Cl|].
  assert (V : valid_rgb (hslToRgb (ch, cs, cl))).
  { apply RgbRangeFacts.hslToRgb_valid; try lra.
    simpl in Cl. intuition (subst; lra). }
  unfold fullyAccessible, getContrastInfo, side_of in F.
  cbn [passesNormal passesLarge black white] in F.
  rewrite !andb_true_iff in F. destruct F as [[[B _] W] _].
  apply band_of_flags; assumption.
Qed.

Lemma findFullyAccessibleColorForDarkMode_result_witness :
  (0 <= hsl_h (210, 60, 50)%Q <= 360)%Q /\ (0 <= hsl_s (210, 60, 50)%Q <= 100)%Q /\
  match findFullyAccessibleColorForDarkMode (210, 60, 50)%Q with
  | Some c =>
      fullyAccessible c = true /\ In (hsl_l c) [35; 40; 45; 50; 55; 60]%Q /\
      (0.17475 <= calculateLuminance (hslToRgb c) <= 0.1836)%R
  | None => True
  end.
Proof.
  assert (A : (0 <= hsl_h (210, 60, 50)%Q <= 360)%Q)
    by (unfold hsl_h; cbn [fst snd]; split; lra).
  assert (B : (0 <= hsl_s (210, 60, 50)%Q <= 100)%Q)
    by (unfold hsl_s; cbn [fst snd]; split; lra).
  split; [exact A|]. split; [exact B|].
  apply findFullyAccessibleColorForDarkMode_result; assumption.
Defined.
